(** * Service-description validator: a shallow embedding and its properties

    The development embeds [services/service_description_validator.py]:
    the text normalizer, the heading segmenter, the contract section
    aligner, the section comparator and the validation aggregator.

    Python [str] values are modelled as lists of characters whose code
    points are below 256 (the Latin-1 range, which contains ASCII); on that
    range [str.strip], [str.lower] and the regular-expression classes used
    by the source are written out below.  Larger code points are outside
    the model.

    What the module takes from outside is a parameter of the development:
    the reference markdown file read at class creation, [json.loads], and
    the chat client.  Exceptions are results ([Raise]); the calls of the
    aligner and of the oracle are recorded in a trace that the aggregator
    threads through the run, which is how "not invoked" is stated.

    The first part holds the definitions (strings, the [re] engine, the
    program, and the notions the statements use); the second part the
    proofs: the matcher against its specification, then one section per
    component. *)

From Stdlib Require Import ZArith Ascii String List Bool Arith Lia.
Import ListNotations.

Set Implicit Arguments.

(* ================================================================= *)
(** ** Python strings *)

Module Py.

Definition str := list ascii.

(** String literals of the source are written with [L]. *)
Definition L (s : string) : str := list_ascii_of_string s.

Arguments L : simpl never.

Definition NL : ascii := "010"%char.
Definition DQ : ascii := "034"%char.
Definition SQ : ascii := "039"%char.

Definition str_eqb (a b : str) : bool :=
  if list_eq_dec ascii_dec a b then true else false.

(** [Py_UNICODE_ISSPACE] below code point 256: TAB..CR, FS..US, space,
    NEL and the no-break space.  [str.strip] and the class [\s] both use
    it. *)
Definition isspace (c : ascii) : bool :=
  let n := nat_of_ascii c in
  ((9 <=? n) && (n <=? 13)) || ((28 <=? n) && (n <=? 32))
  || (n =? 133) || (n =? 160).

(** [str.lower] on one character: A-Z and the Latin-1 capitals (all of
    192..222 but the multiplication sign) move up by 32. *)
Definition lower_char (c : ascii) : ascii :=
  let n := nat_of_ascii c in
  if ((65 <=? n) && (n <=? 90))
     || ((192 <=? n) && (n <=? 222) && negb (n =? 215))
  then ascii_of_nat (n + 32) else c.

Definition lower (s : str) : str := map lower_char s.

Fixpoint lstrip (s : str) : str :=
  match s with
  | c :: s' => if isspace c then lstrip s' else s
  | [] => []
  end.

Definition rstrip (s : str) : str := rev (lstrip (rev s)).

Definition strip (s : str) : str := rstrip (lstrip s).

(** [s[a:b]] for [0 <= a] and [0 <= b]; an inverted range is empty, and
    both ends are clipped at [len(s)], as in Python. *)
Definition slice (s : str) (a b : nat) : str := firstn (b - a) (skipn a s).

(** [sep.join(parts)] *)
Fixpoint join (sep : str) (parts : list str) : str :=
  match parts with
  | [] => []
  | [p] => p
  | p :: ps => p ++ sep ++ join sep ps
  end.

(** [s.replace("\n", " ")] *)
Definition replace_nl_space (s : str) : str :=
  map (fun c => if Ascii.eqb c NL then " "%char else c) s.

(** Truthiness of a string: [not s] is [true] exactly on the empty string. *)
Definition is_empty (s : str) : bool :=
  match s with [] => true | _ => false end.

End Py.

(* ================================================================= *)
(** ** Regular expressions of the [re] module

    A backtracking matcher in continuation-passing style, with the
    priorities of Python's engine: alternatives left to right, greedy
    quantifiers longest first, lazy quantifiers shortest first.  Every
    quantifier of the source applies to a single-character class, so [Rep]
    quantifies a class. *)

Module Re.
Import Py.

Inductive re : Type :=
| Eps
| Cls (p : ascii -> bool)
| Bol (multiline : bool)
| Eol (multiline : bool)
| Seq (r1 r2 : re)
| Alt (r1 r2 : re)
| Rep (greedy : bool) (lo : nat) (hi : option nat) (p : ascii -> bool)
| Grp (n : nat) (r : re).

Definition captures := list (nat * (nat * nat)).

Record rmatch : Type := MkMatch {
  m_start : nat;
  m_end : nat;
  m_caps : captures
}.

Definition at_bol (multiline : bool) (s : str) (pos : nat) : bool :=
  match pos with
  | 0 => true
  | S q => multiline &&
           match nth_error s q with
           | Some c => Ascii.eqb c NL
           | None => false
           end
  end.

Definition at_eol (multiline : bool) (s : str) (pos : nat) : bool :=
  match skipn pos s with
  | [] => true
  | c :: rest =>
      Ascii.eqb c NL && (multiline || is_empty rest)
  end.

Definition below (hi : option nat) (cnt : nat) : bool :=
  match hi with
  | None => true
  | Some h => cnt <? h
  end.

Section Matcher.
Context {A : Type}.
Variable s : str.

Fixpoint rep (g : bool) (lo : nat) (hi : option nat) (p : ascii -> bool)
         (suf : str) (cnt pos : nat) (k : nat -> option A) : option A :=
  let more :=
    match suf with
    | c :: suf' =>
        if below hi cnt && p c
        then rep g lo hi p suf' (S cnt) (S pos) k
        else None
    | [] => None
    end in
  if g then
    match more with
    | Some x => Some x
    | None => if lo <=? cnt then k pos else None
    end
  else
    match (if lo <=? cnt then k pos else None) with
    | Some x => Some x
    | None => more
    end.

Fixpoint run (r : re) (pos : nat) (caps : captures)
         (k : nat -> captures -> option A) : option A :=
  match r with
  | Eps => k pos caps
  | Cls p =>
      match nth_error s pos with
      | Some c => if p c then k (S pos) caps else None
      | None => None
      end
  | Bol ml => if at_bol ml s pos then k pos caps else None
  | Eol ml => if at_eol ml s pos then k pos caps else None
  | Seq r1 r2 => run r1 pos caps (fun pos' caps' => run r2 pos' caps' k)
  | Alt r1 r2 =>
      match run r1 pos caps k with
      | Some x => Some x
      | None => run r2 pos caps k
      end
  | Rep g lo hi p =>
      rep g lo hi p (skipn pos s) 0 pos (fun pos' => k pos' caps)
  | Grp n r1 =>
      run r1 pos caps (fun pos' caps' => k pos' ((n, (pos, pos')) :: caps'))
  end.
End Matcher.

(** One attempt at position [pos]; with [must_advance] an empty match is
    refused (the engine's rule after an empty match at the same place). *)
Definition match_at (r : re) (s : str) (pos : nat) (must_advance : bool)
  : option rmatch :=
  run s r pos []
      (fun e caps =>
         if must_advance && (e =? pos) then None
         else Some (MkMatch pos e caps)).

(** The leftmost match starting at [pos] or later; [suf] is [s[pos:]]. *)
Fixpoint search_from (r : re) (s suf : str) (pos : nat) (must_advance : bool)
  : option rmatch :=
  match match_at r s pos must_advance with
  | Some mt => Some mt
  | None =>
      match suf with
      | [] => None
      | _ :: suf' => search_from r s suf' (S pos) false
      end
  end.

(** [re.search(r, s)] *)
Definition search (r : re) (s : str) : option rmatch :=
  search_from r s s 0 false.

Fixpoint finditer_from (fuel : nat) (r : re) (s : str) (pos : nat)
         (must_advance : bool) : list rmatch :=
  match fuel with
  | 0 => []
  | S fuel' =>
      match search_from r s (skipn pos s) pos must_advance with
      | None => []
      | Some mt =>
          mt :: finditer_from fuel' r s (m_end mt) (m_end mt =? m_start mt)
      end
  end.

(** [list(re.finditer(r, s))].  Every round either moves the position or
    sets [must_advance], so [2 * len(s) + 3] rounds are enough. *)
Definition finditer (r : re) (s : str) : list rmatch :=
  finditer_from (2 * length s + 3) r s 0 false.

(** [m.group(0)] and [m.group(n)] (the groups of the source's patterns
    always take part in the match). *)
Definition group0 (s : str) (mt : rmatch) : str :=
  slice s (m_start mt) (m_end mt).

Fixpoint cap_lookup (n : nat) (caps : captures) : option (nat * nat) :=
  match caps with
  | [] => None
  | (i, span) :: rest => if i =? n then Some span else cap_lookup n rest
  end.

Definition group (s : str) (n : nat) (mt : rmatch) : str :=
  match cap_lookup n (m_caps mt) with
  | Some (a, b) => slice s a b
  | None => []
  end.

Fixpoint sub_build (s : str) (repl : rmatch -> str) (prev : nat)
         (ms : list rmatch) : str :=
  match ms with
  | [] => skipn prev s
  | mt :: ms' =>
      slice s prev (m_start mt) ++ repl mt ++ sub_build s repl (m_end mt) ms'
  end.

(** [re.sub(r, repl, s)] with [repl] a function of the match. *)
Definition sub (r : re) (repl : rmatch -> str) (s : str) : str :=
  sub_build s repl 0 (finditer r s).

Fixpoint split_build (s : str) (prev : nat) (ms : list rmatch) : list str :=
  match ms with
  | [] => [skipn prev s]
  | mt :: ms' => slice s prev (m_start mt) :: split_build s (m_end mt) ms'
  end.

(** [re.split(r, s)] for a pattern without groups. *)
Definition split (r : re) (s : str) : list str :=
  split_build s 0 (finditer r s).

(** *** Pattern syntax *)

Definition ci_eqb (a b : ascii) : bool :=
  Ascii.eqb (lower_char a) (lower_char b).

(** A literal character; [ic] is [re.IGNORECASE]. *)
Definition lit (ic : bool) (c : ascii) : re :=
  Cls (if ic then ci_eqb c else Ascii.eqb c).

Fixpoint lits (ic : bool) (s : str) : re :=
  match s with
  | [] => Eps
  | [c] => lit ic c
  | c :: s' => Seq (lit ic c) (lits ic s')
  end.

(** [.]; [dotall] is [re.DOTALL]. *)
Definition dot_class (dotall : bool) (c : ascii) : bool :=
  dotall || negb (Ascii.eqb c NL).

Definition star (p : ascii -> bool) : re := Rep true 0 None p.
Definition star_lazy (p : ascii -> bool) : re := Rep false 0 None p.
Definition plus (p : ascii -> bool) : re := Rep true 1 None p.
Definition plus_lazy (p : ascii -> bool) : re := Rep false 1 None p.

Definition ws : re := star isspace.

(** *** Specification of matching *)

(** What a pattern matches, as a relation between the two ends of the
    matched slice [s[i:j]]. *)
Definition within (hi : option nat) (m : nat) : Prop :=
  match hi with
  | None => True
  | Some h => m <= h
  end.

Definition all_in (s : str) (p : ascii -> bool) (i j : nat) : Prop :=
  forall q, i <= q < j -> exists c, nth_error s q = Some c /\ p c = true.

Fixpoint matches (s : str) (r : re) (i j : nat) : Prop :=
  match r with
  | Eps => i = j
  | Cls p => j = S i /\ exists c, nth_error s i = Some c /\ p c = true
  | Bol ml => i = j /\ at_bol ml s i = true
  | Eol ml => i = j /\ at_eol ml s i = true
  | Seq r1 r2 => exists m, matches s r1 i m /\ matches s r2 m j
  | Alt r1 r2 => matches s r1 i j \/ matches s r2 i j
  | Rep _ lo hi p =>
      i <= j /\ lo <= j - i /\ within hi (j - i) /\ all_in s p i j
  | Grp _ r1 => matches s r1 i j
  end.

(** Matches listed left to right without overlap, inside the string. *)
Fixpoint ordered (s : str) (prev : nat) (ms : list rmatch) : Prop :=
  match ms with
  | [] => True
  | mt :: ms' =>
      prev <= m_start mt /\ m_start mt <= m_end mt /\ m_end mt <= length s
      /\ ordered s (m_end mt) ms'
  end.


(** The groups a match adds lie inside the matched slice. *)
Definition caps_from (old new : captures) (lo hi : nat) : Prop :=
  forall n a b,
    In (n, (a, b)) new ->
    In (n, (a, b)) old \/ (lo <= a /\ a <= b /\ b <= hi).

(** The iteration of [finditer] without a bound on its rounds: search
    from the current position, and go on from the end of the match found,
    refusing an empty match there if the last one was empty. *)
Inductive iterates (r : re) (s : str) : nat -> bool -> list rmatch -> Prop :=
| iterates_done pos ma :
    search_from r s (skipn pos s) pos ma = None ->
    iterates r s pos ma []
| iterates_more pos ma mt ms :
    search_from r s (skipn pos s) pos ma = Some mt ->
    iterates r s (m_end mt) (m_end mt =? m_start mt) ms ->
    iterates r s pos ma (mt :: ms).

(** The words of a pattern without anchors, read on their own. *)
Fixpoint lang (r : re) (w : str) : Prop :=
  match r with
  | Eps => w = []
  | Cls p => exists c, w = [c] /\ p c = true
  | Bol _ => False
  | Eol _ => False
  | Seq r1 r2 => exists w1 w2, w = w1 ++ w2 /\ lang r1 w1 /\ lang r2 w2
  | Alt r1 r2 => lang r1 w \/ lang r2 w
  | Rep _ lo hi p =>
      lo <= length w /\ within hi (length w)
      /\ Forall (fun c => p c = true) w
  | Grp _ r1 => lang r1 w
  end.

Fixpoint anchor_free (r : re) : Prop :=
  match r with
  | Eps => True
  | Cls _ => True
  | Bol _ => False
  | Eol _ => False
  | Seq r1 r2 => anchor_free r1 /\ anchor_free r2
  | Alt r1 r2 => anchor_free r1 /\ anchor_free r2
  | Rep _ _ _ _ => True
  | Grp _ r1 => anchor_free r1
  end.

End Re.

Import Py Re.

Notation "a '>>' b" := (Seq a b) (at level 61, right associativity).

(* ================================================================= *)
(** ** Python values, exceptions and ordered dictionaries *)

Inductive pyobj : Type :=
| PyNone
| PyBool (b : bool)
| PyInt (z : Z)
| PyStr (s : str)
| PyBytes (b : list ascii).

Inductive exn : Type :=
| TypeError
| AttributeError
| TransportError
| JSONDecodeError
| RecursionError
| ValueError.

(** [except json.JSONDecodeError]: the clause catches that class only; a
    [RecursionError], and a [ValueError] that is no [JSONDecodeError], go
    through. *)
Definition is_JSONDecodeError (e : exn) : bool :=
  match e with
  | JSONDecodeError => true
  | _ => false
  end.

Inductive result (A : Type) : Type :=
| Ok (a : A)
| Raise (e : exn).

Arguments Ok {A} a.
Arguments Raise {A} e.

Definition rbind {A B} (c : result A) (f : A -> result B) : result B :=
  match c with
  | Ok a => f a
  | Raise e => Raise e
  end.

Notation "x <- c ;; k" := (rbind c (fun x => k))
  (at level 62, c at next level, right associativity).

(** [isinstance(v, str)] *)
Definition isinstance_str (v : pyobj) : bool :=
  match v with
  | PyStr _ => true
  | _ => false
  end.

(** [re.sub] applied to an arbitrary object: anything but a string is a
    [TypeError]. *)
Definition re_sub (r : re) (repl : str -> rmatch -> str) (v : pyobj)
  : result str :=
  match v with
  | PyStr s => Ok (Re.sub r (repl s) s)
  | _ => Raise TypeError
  end.

(** A [dict] with string keys keeps its keys in insertion order; storing
    under a key that is present replaces the value in place. *)
Definition dict (V : Type) := list (str * V).

Fixpoint dict_set {V} (d : dict V) (k : str) (v : V) : dict V :=
  match d with
  | [] => [(k, v)]
  | (k', v') :: d' =>
      if str_eqb k' k then (k', v) :: d' else (k', v') :: dict_set d' k v
  end.

Fixpoint dict_lookup {V} (d : dict V) (k : str) : option V :=
  match d with
  | [] => None
  | (k', v') :: d' => if str_eqb k' k then Some v' else dict_lookup d' k
  end.

(** [d.get(k, default)] *)
Definition dict_get {V} (d : dict V) (k : str) (default : V) : V :=
  match dict_lookup d k with
  | Some v => v
  | None => default
  end.

Definition keys {V} (d : dict V) : list str := map fst d.

(** [not xs] for a list *)
Definition is_nil {A} (xs : list A) : bool :=
  match xs with
  | [] => true
  | _ => false
  end.

(* ================================================================= *)
(** ** Text cleaning and section extraction *)

Definition quote (c : ascii) : bool := Ascii.eqb c DQ || Ascii.eqb c SQ.

Definition sharp (c : ascii) : bool := Ascii.eqb c "#"%char.

Definition newline (c : ascii) : bool := Ascii.eqb c NL.

(** [<!--\s*PageHeader\s*=\s*["\'](.*?)["\']\s*-->] *)
Definition pageheader_re : re :=
  lits false (L "<!--") >> ws >> lits false (L "PageHeader") >> ws >>
  lit false "="%char >> ws >> Cls quote >>
  Grp 1 (star_lazy (dot_class false)) >> Cls quote >> ws >>
  lits false (L "-->").

(** [<!--.*?-->] with [re.DOTALL] *)
Definition comment_re : re :=
  lits false (L "<!--") >> star_lazy (dot_class true) >> lits false (L "-->").

(** [<figure.*?>.*?</figure>] with [re.DOTALL | re.I] *)
Definition figure_re : re :=
  lits true (L "<figure") >> star_lazy (dot_class true) >> lit true ">"%char >>
  star_lazy (dot_class true) >> lits true (L "</figure>").

(** [^\s*(Logo|Footer|Confidential)\s*$] with [re.M | re.I] *)
Definition boilerplate_re : re :=
  Bol true >> ws >>
  Grp 1 (Alt (lits true (L "Logo"))
             (Alt (lits true (L "Footer")) (lits true (L "Confidential")))) >>
  ws >> Eol true.

Definition replace_pageheader (s : str) (mt : rmatch) : str :=
  [NL] ++ group s 1 mt ++ [NL].

Definition remove (_ : str) (_ : rmatch) : str := [].

Definition clean_text_preserve_headings (text : pyobj) : result str :=
  if negb (isinstance_str text) then Ok []
  else
    text1 <- re_sub pageheader_re replace_pageheader text ;;
    text2 <- re_sub comment_re remove (PyStr text1) ;;
    text3 <- re_sub figure_re remove (PyStr text2) ;;
    text4 <- re_sub boilerplate_re remove (PyStr text3) ;;
    Ok (strip text4).

(** [^(#{1,6})\s*(.+?)\s*$] with [re.M] *)
Definition heading_re : re :=
  Bol true >> Grp 1 (Rep true 1 (Some 6) sharp) >> ws >>
  Grp 2 (plus_lazy (dot_class false)) >> ws >> Eol true.

Definition dummy_match : rmatch := MkMatch 0 0 [].

(** The loop body of [_extract_sections_from_text] at index [i]. *)
Definition section_at (clean_text : str) (headings : list rmatch) (i : nat)
  : str * str :=
  let h := nth i headings dummy_match in
  let title := strip (group clean_text 2 h) in
  let start := m_end h in
  let end_ := if S i <? length headings
              then m_start (nth (S i) headings dummy_match)
              else length clean_text in
  let content := strip (slice clean_text start end_) in
  (title, content).

Definition _extract_sections_from_text (md_text : str)
  : result (list (str * str)) :=
  clean_text <- clean_text_preserve_headings (PyStr md_text) ;;
  let headings := finditer heading_re clean_text in
  Ok (map (section_at clean_text headings) (seq 0 (length headings))).

(** [\n\n+] *)
Definition blank_lines_re : re := lit false NL >> plus newline.

(** [^#+\s*] (no flag: [^] is the start of the string only) *)
Definition leading_sharps_re : re := Bol false >> plus sharp >> ws.

(** [re.sub(r'^#+\s*', '', p).strip().lower()] *)
Definition p_clean (p : str) : str :=
  lower (strip (Re.sub leading_sharps_re (remove p) p)).

(** [[p.strip() for p in re.split(r'\n\n+', text) if p.strip()]] *)
Definition paragraphs_of (contract_text : str) : list str :=
  map strip
      (filter (fun p => negb (is_empty (strip p)))
              (Re.split blank_lines_re contract_text)).

(** The first [j] in [range(start_idx, num_paragraphs)] whose cleaned
    paragraph equals [target]; [ps] is [paragraphs[j:]]. *)
Fixpoint scan (ps : list str) (j : nat) (target : str) : option nat :=
  match ps with
  | [] => None
  | p :: ps' =>
      if str_eqb (p_clean p) target then Some j else scan ps' (S j) target
  end.

Definition find_heading (paragraphs : list str) (start_idx : nat)
           (target : str) : option nat :=
  scan (skipn start_idx paragraphs) start_idx target.

(** The search for the next heading: the first of the remaining reference
    headings that matches somewhere after [found_idx] ends the section. *)
Fixpoint find_end (paragraphs : list str) (found_idx : nat)
         (rest : list str) : nat :=
  match rest with
  | [] => length paragraphs
  | next_heading :: rest' =>
      match find_heading paragraphs (S found_idx) (lower next_heading) with
      | Some j => j
      | None => find_end paragraphs found_idx rest'
      end
  end.

(** [paragraphs[a:b]] *)
Definition span (paragraphs : list str) (a b : nat) : list str :=
  firstn (b - a) (skipn a paragraphs).

Definition section_text (paragraphs : list str) (found_idx end_idx : nat)
  : str :=
  strip (join [NL; NL] (span paragraphs (S found_idx) end_idx)).

(** The [for i, heading in enumerate(ref_headings)] loop; [ref_rest] is
    [ref_headings[i:]]. *)
Fixpoint align_loop (paragraphs : list str) (ref_rest : list str)
         (start_idx : nat) (aligned_sections : dict str) : dict str :=
  match ref_rest with
  | [] => aligned_sections
  | heading :: rest =>
      match find_heading paragraphs start_idx (lower heading) with
      | None =>
          align_loop paragraphs rest start_idx
                     (dict_set aligned_sections heading [])
      | Some found_idx =>
          let end_idx := find_end paragraphs found_idx rest in
          align_loop paragraphs rest end_idx
                     (dict_set aligned_sections heading
                               (section_text paragraphs found_idx end_idx))
      end
  end.

Definition extract_contract_sections (contract_text : str)
           (ref_headings : list str) : result (dict str) :=
  contract_text' <- clean_text_preserve_headings (PyStr contract_text) ;;
  let paragraphs := paragraphs_of contract_text' in
  Ok (align_loop paragraphs ref_headings 0 []).

(** *** The positions the aligner visits

    [normalize] is the string branch of [clean_text_preserve_headings].
    [align_trace] replays the loop of [extract_contract_sections] and
    records, for each reference heading in turn, the [found_idx] and the
    [end_idx] of its iteration ([None] when the scan found no paragraph);
    [replay] stores the bodies of a trace the way the loop does. *)

Definition normalize (text : str) : str :=
  strip
    (Re.sub boilerplate_re (remove text)
       (Re.sub figure_re (remove text)
          (Re.sub comment_re (remove text)
             (Re.sub pageheader_re (replace_pageheader text) text)))).

Fixpoint align_trace (paragraphs : list str) (ref_rest : list str)
         (start_idx : nat) : list (option (nat * nat)) :=
  match ref_rest with
  | [] => []
  | heading :: rest =>
      match find_heading paragraphs start_idx (lower heading) with
      | None => None :: align_trace paragraphs rest start_idx
      | Some found_idx =>
          let end_idx := find_end paragraphs found_idx rest in
          Some (found_idx, end_idx) :: align_trace paragraphs rest end_idx
      end
  end.

Definition body_of (paragraphs : list str) (o : option (nat * nat)) : str :=
  match o with
  | None => []
  | Some (found_idx, end_idx) => section_text paragraphs found_idx end_idx
  end.

Definition replay (paragraphs : list str)
           (steps : list (str * option (nat * nat))) (d : dict str)
  : dict str :=
  fold_left (fun d step => dict_set d (fst step) (body_of paragraphs (snd step)))
            steps d.

(** The keys of a dictionary after one more store. *)
Fixpoint add_key (ks : list str) (k : str) : list str :=
  match ks with
  | [] => [k]
  | k' :: ks' => if str_eqb k' k then ks else k' :: add_key ks' k
  end.

(** The distinct titles of a heading list, in order of first occurrence. *)
Definition distinct_titles (hs : list str) : list str :=
  fold_left add_key hs [].

(** Some contract paragraph at position [start_idx] or later is the
    heading. *)
Definition has_paragraph (paragraphs : list str) (start_idx : nat)
           (heading : str) : Prop :=
  exists j p, start_idx <= j /\ nth_error paragraphs j = Some p
              /\ p_clean p = lower heading.

(* ================================================================= *)
(** ** The comparison oracle, JSON values and the run trace *)

Set Warnings "-register-all".

(** What [json.loads] can return; a number keeps its literal text. *)
Inductive json : Type :=
| JNull
| JBool (b : bool)
| JNum (text : str)
| JStr (s : str)
| JArr (items : list json)
| JObj (fields : list (str * json)).

(** The variable parts of the chat request: the prompt is a fixed
    template filled with the heading and the two excerpts. *)
Record request : Type := MkRequest {
  req_heading : str;
  req_reference : str;
  req_contract : str
}.

(** The oracle either fails in transport or returns a completion, whose
    [message.content] is a string or [None]. *)
Inductive reply : Type :=
| Completion (content : option str)
| Failure.

(** The calls a run makes, oldest first. *)
Inductive event : Type :=
| AlignerCall (contract_text : str) (ref_headings : list str)
| OracleCall (req : request).

Definition trace := list event.

(** Computations that extend the trace and may raise. *)
Definition M (A : Type) : Type := trace -> result (A * trace).

Definition ret {A} (a : A) : M A := fun tr => Ok (a, tr).

Definition mbind {A B} (c : M A) (f : A -> M B) : M B :=
  fun tr =>
    match c tr with
    | Ok (a, tr') => f a tr'
    | Raise e => Raise e
    end.

Definition lift {A} (c : result A) : M A :=
  fun tr =>
    match c with
    | Ok a => Ok (a, tr)
    | Raise e => Raise e
    end.

Notation "x <~ c ;; k" := (mbind c (fun x => k))
  (at level 62, c at next level, right associativity).

(** [obj.get(key)]: only a [dict] has the method. *)
Definition json_get (obj : json) (key : str) : result (option json) :=
  match obj with
  | JObj fields => Ok (dict_lookup fields key)
  | _ => Raise AttributeError
  end.

(** [value == "literal"] for the result of [get]. *)
Definition eq_str (value : option json) (literal : str) : bool :=
  match value with
  | Some (JStr s) => str_eqb s literal
  | _ => false
  end.

(** [\{.*\}] with [re.DOTALL] *)
Definition json_re : re :=
  lit false "{"%char >> star (dot_class true) >> lit false "}"%char.

Definition alnum (c : ascii) : bool :=
  let n := nat_of_ascii c in
  ((97 <=? n) && (n <=? 122)) || ((65 <=? n) && (n <=? 90))
  || ((48 <=? n) && (n <=? 57)).

(** [attachment\s*1[^a-zA-Z0-9]*service\s*description] with [re.I] *)
Definition gate_re : re :=
  lits true (L "attachment") >> ws >> lit true "1"%char >>
  star (fun c => negb (alnum c)) >>
  lits true (L "service") >> ws >> lits true (L "description").

Record report : Type := MkReport {
  validation_status : str;
  modified_sections : list json
}.

Section Validator.

(** The reference markdown read at class creation, the [json.loads] of
    the standard library, which returns a value or raises
    ([JSONDecodeError] on a text that is not JSON, [RecursionError] on
    one nested too deep, [ValueError] on an integer literal that is too
    long), and the chat client, whose answer may depend on the calls made
    so far. *)
Variable FIELDGLASS_REF_MD : str.
Variable json_loads : str -> result json.
Variable client : trace -> request -> reply.

Definition extract_reference_sections : result (list (str * str)) :=
  _extract_sections_from_text FIELDGLASS_REF_MD.

(** The verdict of the two fallback branches. *)
Definition fallback (section_label content : str) : json :=
  JObj [ (L "section", JStr section_label);
         (L "status", JStr (L "Modified"));
         (L "difference_summary",
          JStr (firstn 400 (replace_nl_space content))) ].

Definition compare_section_with_gpt (ref_heading ref_text con_text : str)
  : M json :=
  fun tr =>
    let section_label := ref_heading in
    let ref_excerpt := firstn 3000 (strip ref_text) in
    let con_excerpt := firstn 3000 (strip con_text) in
    let req := MkRequest ref_heading ref_excerpt con_excerpt in
    match client tr req with
    | Failure => Raise TransportError
    | Completion None => Raise TypeError
    | Completion (Some content) =>
        result_json <-
          match Re.search json_re content with
          | Some json_text =>
              match json_loads (group0 content json_text) with
              | Ok v => Ok v
              | Raise e =>
                  if is_JSONDecodeError e
                  then Ok (fallback section_label content)
                  else Raise e
              end
          | None => Ok (fallback section_label content)
          end ;;
        Ok (result_json, tr ++ [OracleCall req])
    end.

(** The call of the aligner, recorded in the trace. *)
Definition call_aligner (contract_text : str) (ref_headings : list str)
  : M (dict str) :=
  fun tr =>
    d <- extract_contract_sections contract_text ref_headings ;;
    Ok (d, tr ++ [AlignerCall contract_text ref_headings]).

(** The [for heading, ref_text in ref_sections] loop. *)
Fixpoint validate_loop (contract_sections : dict str)
         (ref_sections : list (str * str)) (modified_results : list json)
  : M (list json) :=
  match ref_sections with
  | [] => ret modified_results
  | (heading, ref_text) :: rest =>
      let con_text := dict_get contract_sections heading [] in
      if is_empty (strip con_text)
      then validate_loop contract_sections rest modified_results
      else
        parsed <~ compare_section_with_gpt heading ref_text con_text ;;
        status <~ lift (json_get parsed (L "status")) ;;
        if eq_str status (L "Modified")
        then validate_loop contract_sections rest
                           (modified_results ++ [parsed])
        else validate_loop contract_sections rest modified_results
  end.

Definition validate_service_description (contract_md_text : str)
  : M report :=
  match Re.search gate_re contract_md_text with
  | None => ret (MkReport (L "Missing") [])
  | Some _ =>
      ref_sections <~ lift extract_reference_sections ;;
      let ref_headings := map fst ref_sections in
      contract_sections <~ call_aligner contract_md_text ref_headings ;;
      modified_results <~ validate_loop contract_sections ref_sections [] ;;
      let validation_status :=
        if is_nil modified_results then L "Correct" else L "Mismatch" in
      ret (MkReport validation_status modified_results)
  end.

End Validator.

(** *** Notions used in the statements *)

(** The loose marker in words: [attachment], optional white space, the
    digit [1], any run of characters that are not ASCII letters or
    digits, [service], optional white space, [description]; the letters
    in either case. *)
Definition all_chars (p : ascii -> bool) (w : str) : Prop :=
  Forall (fun c => p c = true) w.

Definition loose_marker (w : str) : Prop :=
  exists a w1 w2 sv w3 d,
    w = a ++ w1 ++ L "1" ++ w2 ++ sv ++ w3 ++ d
    /\ lower a = L "attachment"
    /\ all_chars isspace w1
    /\ all_chars (fun c => negb (alnum c)) w2
    /\ lower sv = L "service"
    /\ all_chars isspace w3
    /\ lower d = L "description".

Definition contains_marker (text : str) : Prop :=
  exists before w after, text = before ++ w ++ after /\ loose_marker w.


(** On the slices of the response that run from a [{] to a [}],
    [json.loads] raises nothing but [JSONDecodeError]. *)
Definition only_decode_errors (json_loads : str -> result json)
           (content : str) : Prop :=
  forall i j e,
    i < j -> j <= length content ->
    nth_error content i = Some "{"%char ->
    nth_error content (j - 1) = Some "}"%char ->
    json_loads (slice content i j) = Raise e -> e = JSONDecodeError.

(** The aligned contract text of a heading is empty or only whitespace:
    the test [not con_text.strip()] of the aggregator. *)
Definition blank (contract_sections : dict str) (heading : str) : bool :=
  is_empty (strip (dict_get contract_sections heading [])).

(** The request the comparator sends for a section. *)
Definition request_for (ref_heading ref_text con_text : str) : request :=
  MkRequest ref_heading (firstn 3000 (strip ref_text))
            (firstn 3000 (strip con_text)).

(** The raw pieces of the segmenter: the text of the [i]-th heading
    match and the untrimmed text from its end to the next heading (or to
    the end of the text). *)
Definition body_end (clean_text : str) (headings : list rmatch) (i : nat)
  : nat :=
  if S i <? length headings
  then m_start (nth (S i) headings dummy_match)
  else length clean_text.

Definition raw_heading (clean_text : str) (headings : list rmatch) (i : nat)
  : str :=
  group0 clean_text (nth i headings dummy_match).

Definition raw_body (clean_text : str) (headings : list rmatch) (i : nat)
  : str :=
  slice clean_text (m_end (nth i headings dummy_match))
        (body_end clean_text headings i).

(** Titles and bodies of a section list, concatenated in order. *)
Definition flatten (sections : list (str * str)) : str :=
  concat (map (fun sec => fst sec ++ snd sec) sections).

Definition next_start (s : str) (ms : list rmatch) : nat :=
  match ms with
  | [] => length s
  | mt :: _ => m_start mt
  end.

Fixpoint pieces (s : str) (ms : list rmatch) : str :=
  match ms with
  | [] => []
  | mt :: ms' =>
      group0 s mt ++ slice s (m_end mt) (next_start s ms') ++ pieces s ms'
  end.

Definition one_heading_text : str := L "# A" ++ [NL] ++ L "x".

(** *** Sample collaborators and inputs for the examples *)

Definition never_parses : str -> result json :=
  fun _ => Raise JSONDecodeError.

Definition parses_to (v : json) : str -> result json := fun _ => Ok v.



(** The answer [{"status": "Match"}], and a [json.loads] that knows this
    text and the text of the empty array. *)
Definition json_answer : str :=
  L "{" ++ [DQ] ++ L "status" ++ [DQ] ++ L ": "
  ++ [DQ] ++ L "Match" ++ [DQ] ++ L "}".

Definition sample_loads : str -> result json :=
  fun s => if str_eqb s json_answer
           then Ok (JObj [(L "status", JStr (L "Match"))])
           else if str_eqb s (L "[]") then Ok (JArr [])
           else Raise JSONDecodeError.

Definition always_answers (content : str) : trace -> request -> reply :=
  fun _ _ => Completion (Some content).

Definition sample_reference : str :=
  L "# Term" ++ [NL] ++ L "12 months" ++ [NL] ++ L "# Fees" ++ [NL] ++ L "none".

Definition sample_contract : str :=
  L "Attachment 1: Service Description" ++ [NL; NL] ++
  L "Term" ++ [NL; NL] ++ L "Twelve (12) months".

Definition sample_answer : str := L "no" ++ [NL] ++ L "json".

(** A contract with the title [Term] twice. *)
Definition contract_two_terms : str :=
  L "Term" ++ [NL; NL] ++ L "x" ++ [NL; NL] ++ L "Term" ++ [NL; NL] ++ L "y".

(* ================================================================= *)
(** ** The document extractor and the pipeline

    [services/document_extractor.py] cuts the service description out of
    the extracted markdown, and [run_pipeline] of [app.py] hands the cut
    to the validator. *)

(** [start_pattern]: the text of the gate's pattern, with [re.I] *)
Definition start_pattern : re :=
  lits true (L "attachment") >> ws >> lit true "1"%char >>
  star (fun c => negb (alnum c)) >>
  lits true (L "service") >> ws >> lits true (L "description").

(** [end_pattern]: [attachment\s*2] with [re.I] *)
Definition end_pattern : re :=
  lits true (L "attachment") >> ws >> lit true "2"%char.

(** [DocumentExtractor.extract_service_description]; the [print] of the
    extracted text is left out. *)
Definition extract_service_description (md_text : str) : str :=
  match Re.search start_pattern md_text with
  | None => L "*Service Description not found*"
  | Some start_match =>
      let start_index := m_start start_match in
      let end_index :=
        match Re.search end_pattern (skipn start_index md_text) with
        | Some end_match => start_index + m_start end_match
        | None => length md_text
        end in
      let extracted := strip (slice md_text start_index end_index) in
      if is_empty extracted then L "*Service Description is empty*"
      else extracted
  end.

(** [heading.replace(".", "")] *)
Definition remove_dots (heading : str) : str :=
  filter (fun c => negb (Ascii.eqb c "."%char)) heading.

(** [DocumentExtractor._clean_heading] *)
Definition _clean_heading (heading : str) : str :=
  strip (remove_dots heading).

(** [DocumentExtractor._build_final_markdown] *)
Definition _build_final_markdown (sections : dict str) : str :=
  if is_nil sections
  then L "# Extracted Sections" ++ [NL; NL] ++
       L "*No matching sections found.*" ++ [NL]
  else
    fold_left
      (fun md sec =>
         md ++ (L "## " ++ fst sec ++ [NL; NL] ++ snd sec ++ [NL; NL]))
      sections (L "# Extracted Sections" ++ [NL; NL]).

(** The part of [run_pipeline] that yields
    [result_json["service_description_validation"]]: the validator applied
    to the extractor's cut of the full text. *)
Definition service_description_validation
           (FIELDGLASS_REF_MD : str) (json_loads : str -> result json)
           (client : trace -> request -> reply) (full_text : str)
  : M report :=
  let service_md := extract_service_description full_text in
  validate_service_description FIELDGLASS_REF_MD json_loads client service_md.

(** A full text with the sample contract between a cover page and a
    second attachment. *)
Definition sample_full_text : str :=
  L "Master agreement" ++ [NL; NL] ++ sample_contract ++ [NL; NL] ++
  L "ATTACHMENT 2" ++ [NL] ++ L "Fees".

(** The run on the sample inputs: its request, report and trace. *)
Definition sample_request : request :=
  MkRequest (L "Term") (L "12 months") (L "Twelve (12) months").

Definition sample_report : report :=
  MkReport (L "Mismatch")
           [ JObj [ (L "section", JStr (L "Term"));
                    (L "status", JStr (L "Modified"));
                    (L "difference_summary", JStr (L "no json")) ] ].

Definition sample_trace : trace :=
  [ AlignerCall sample_contract [L "Term"; L "Fees"];
    OracleCall sample_request ].

(** *** Further notions used in the statements *)

(** The position of the first and of the last occurrence of a character. *)
Fixpoint first_index (c : ascii) (s : str) : option nat :=
  match s with
  | [] => None
  | x :: s' =>
      if Ascii.eqb x c then Some 0 else option_map S (first_index c s')
  end.

Fixpoint last_index (c : ascii) (s : str) : option nat :=
  match s with
  | [] => None
  | x :: s' =>
      match last_index c s' with
      | Some j => Some (S j)
      | None => if Ascii.eqb x c then Some 0 else None
      end
  end.

(** Every word of the pattern begins with a character of [P]. *)
Fixpoint first_char_in (P : ascii -> Prop) (r : re) : Prop :=
  match r with
  | Cls p => forall x, p x = true -> P x
  | Seq r1 _ => first_char_in P r1
  | Alt r1 r2 => first_char_in P r1 /\ first_char_in P r2
  | Grp _ r1 => first_char_in P r1
  | _ => False
  end.

(** The first character, if any, is not white space. *)
Definition head_ok (s : str) : Prop :=
  match s with
  | c :: _ => isspace c = false
  | [] => True
  end.

(** No white space at either end: what [strip] leaves. *)
Definition trimmed (s : str) : Prop := strip s = s.

(** The requests the aggregator sends for a list of reference sections:
    one for each section whose aligned text is not blank, in order. *)
Definition requests_for (contract_sections : dict str)
           (ref_sections : list (str * str)) : list request :=
  map (fun sec => request_for (fst sec) (snd sec)
                              (dict_get contract_sections (fst sec) []))
      (filter (fun sec => negb (blank contract_sections (fst sec)))
              ref_sections).

(** A contract laid out as the reference expects: some leading
    paragraphs, then for each heading its paragraph and the paragraphs of
    its body. *)
Definition block : Type := (str * list str)%type.

Definition flat_blocks (blocks : list block) : list str :=
  concat (map (fun b => fst b :: snd b) blocks).

(** [well_laid lead pairs]: each reference heading comes with its
    heading paragraph and its body paragraphs; the heading paragraph is
    the heading, and no paragraph between the end of the previous heading
    paragraph and this one ([lead], then the previous body) is. *)
Fixpoint well_laid (lead : list str) (pairs : list (str * block)) : Prop :=
  match pairs with
  | [] => True
  | (heading, (heading_paragraph, body)) :: rest =>
      p_clean heading_paragraph = lower heading
      /\ (forall p, In p lead -> p_clean p <> lower heading)
      /\ well_laid body rest
  end.

(** The body the aligner is expected to return for a block. *)
Definition block_text (b : block) : str := strip (join [NL; NL] (snd b)).

(** A word of the extractor's end pattern: [attachment], any white space
    and [2], letters in either case. *)
Definition next_marker (v : str) : Prop :=
  exists a w,
    v = a ++ w ++ L "2"
    /\ lower a = L "attachment"
    /\ all_chars isspace w.

(* ================================================================= *)
(** * Properties of strings *)

Lemma nth_error_skipn_shift {A} (l : list A) (pos q : nat) :
  nth_error (skipn pos l) q = nth_error l (pos + q).
Proof.
  revert l. induction pos as [ | pos IH]; intros l; simpl.
  - reflexivity.
  - destruct l as [ | x l]; simpl.
    + now destruct q.
    + apply IH.
Qed.

Lemma str_eqb_eq (a b : str) : str_eqb a b = true <-> a = b.
Proof.
  unfold str_eqb. destruct (list_eq_dec ascii_dec a b); split; congruence.
Qed.

Lemma str_eqb_refl (a : str) : str_eqb a a = true.
Proof. now apply str_eqb_eq. Qed.

Lemma str_eqb_neq (a b : str) : str_eqb a b = false <-> a <> b.
Proof.
  unfold str_eqb. destruct (list_eq_dec ascii_dec a b); split; congruence.
Qed.


Lemma length_replace_nl_space (s : str) :
  length (replace_nl_space s) = length s.
Proof. unfold replace_nl_space. apply length_map. Qed.

Lemma slice_skipn (s : str) (a b : nat) :
  a <= b -> slice s a b ++ skipn b s = skipn a s.
Proof.
  intros Hab. unfold slice.
  replace (skipn b s) with (skipn (b - a) (skipn a s)).
  - apply firstn_skipn.
  - rewrite skipn_skipn. f_equal. lia.
Qed.

Lemma slice_to_end (s : str) (a : nat) : slice s a (length s) = skipn a s.
Proof.
  unfold slice. apply firstn_all2. rewrite length_skipn. lia.
Qed.

Lemma slice_app (s : str) (a b c : nat) :
  a <= b <= c -> slice s a b ++ slice s b c = slice s a c.
Proof.
  intros H. unfold slice.
  replace (skipn b s) with (skipn (b - a) (skipn a s))
    by (rewrite skipn_skipn; f_equal; lia).
  replace (c - a) with ((b - a) + (c - b)) by lia.
  generalize (skipn a s) as l. generalize (b - a) as n.
  induction n as [ | n IH]; intros l; simpl; [reflexivity | ].
  destruct l as [ | x l]; simpl.
  - now rewrite firstn_nil.
  - now rewrite IH.
Qed.

Lemma length_slice (s : str) (i j : nat) :
  j <= length s -> length (slice s i j) = j - i.
Proof.
  intros H. unfold slice. rewrite length_firstn, length_skipn. lia.
Qed.

Lemma nth_error_slice (s : str) (i j q : nat) :
  q < j - i -> nth_error (slice s i j) q = nth_error s (i + q).
Proof.
  intros H. unfold slice. rewrite nth_error_firstn.
  apply Nat.ltb_lt in H. rewrite H. apply nth_error_skipn_shift.
Qed.

Lemma slice_head (s : str) (i j : nat) (c : ascii) :
  i < j -> nth_error s i = Some c -> exists rest, slice s i j = c :: rest.
Proof.
  intros Hij H. pose proof (@nth_error_slice s i j 0) as Hn.
  rewrite Nat.add_0_r, H in Hn.
  destruct (slice s i j) as [ | x rest]; simpl in Hn.
  - assert (Hf : None = Some c) by (apply Hn; lia). discriminate Hf.
  - exists rest. f_equal. assert (Hf : Some x = Some c) by (apply Hn; lia).
    now inversion Hf.
Qed.

Lemma slice_one (s : str) (i : nat) (c : ascii) :
  nth_error s i = Some c -> slice s i (S i) = [c].
Proof.
  intros H. unfold slice. replace (S i - i) with 1 by lia.
  pose proof (nth_error_skipn_shift s i 0) as Hs.
  rewrite Nat.add_0_r, H in Hs.
  destruct (skipn i s) as [ | x l]; simpl in Hs; [discriminate | ].
  now inversion Hs.
Qed.

Lemma slice_empty (s : str) (i : nat) : slice s i i = [].
Proof. unfold slice. now rewrite Nat.sub_diag. Qed.

Lemma app_inv_length {A} (l1 l1' l2 l2' : list A) :
  l1 ++ l2 = l1' ++ l2' -> length l1 = length l1' ->
  l1 = l1' /\ l2 = l2'.
Proof.
  revert l1'. induction l1 as [ | x l1 IH]; intros [ | y l1'] H Hlen;
    simpl in *; try discriminate.
  - now split.
  - inversion H; subst. destruct (IH l1' H2) as [-> ->]; [lia | now split].
Qed.

Lemma slice_split (s : str) (i j : nat) (w1 w2 : str) :
  i <= j -> j <= length s -> slice s i j = w1 ++ w2 ->
  i + length w1 <= j
  /\ slice s i (i + length w1) = w1
  /\ slice s (i + length w1) j = w2.
Proof.
  intros Hij Hj H.
  assert (Hlen : length w1 + length w2 = j - i).
  { rewrite <- length_app, <- H. now apply length_slice. }
  assert (Hm : i + length w1 <= j) by lia.
  split; [exact Hm | ].
  apply app_inv_length.
  - rewrite slice_app by lia. exact H.
  - rewrite length_slice by lia. lia.
Qed.

Lemma slice_of_app (before w after : str) :
  slice (before ++ w ++ after) (length before) (length before + length w) = w.
Proof.
  unfold slice. rewrite skipn_app, skipn_all, Nat.sub_diag. simpl.
  replace (length before + length w - length before) with (length w) by lia.
  rewrite firstn_app, firstn_all, Nat.sub_diag. simpl. apply app_nil_r.
Qed.

Lemma text_cut (s : str) (i j : nat) :
  i <= j -> s = firstn i s ++ slice s i j ++ skipn j s.
Proof.
  intros H. rewrite slice_skipn by assumption.
  symmetry. apply firstn_skipn.
Qed.

(* ================================================================= *)
(** * Properties of the regular-expression matcher *)

Module ReFacts.
Import Re.

Lemma matches_bounds (s : str) (r : re) :
  forall i j, matches s r i j -> i <= j /\ (i <= length s -> j <= length s).
Proof.
  induction r as [ | p | ml | ml | r1 IH1 r2 IH2 | r1 IH1 r2 IH2
                   | g lo hi p | n r1 IH1 ]; simpl; intros i j H.
  - subst. lia.
  - destruct H as [-> (c & Hc & _)].
    assert (i < length s) by (apply nth_error_Some; congruence). lia.
  - destruct H as [-> _]. lia.
  - destruct H as [-> _]. lia.
  - destruct H as (m & H1 & H2).
    apply IH1 in H1. apply IH2 in H2. lia.
  - destruct H as [H | H]; [apply IH1 in H | apply IH2 in H]; lia.
  - destruct H as (Hij & _ & _ & Hall). split; [assumption | intros Hi].
    destruct (Nat.eq_dec i j) as [-> | Hne]; [assumption | ].
    destruct (Hall (j - 1)) as (c & Hc & _); [lia | ].
    assert (j - 1 < length s) by (apply nth_error_Some; congruence). lia.
  - now apply IH1.
Qed.

Section Soundness.
Context {A : Type}.
Variable s : str.

(** [rep] hands to its continuation a position reached by consuming
    characters of the class only, within the bounds. *)
Lemma rep_sound g lo hi p :
  forall suf cnt pos (k : nat -> option A) res,
    within hi cnt ->
    rep g lo hi p suf cnt pos k = Some res ->
    exists n,
      n <= length suf /\
      (forall q, q < n -> exists c, nth_error suf q = Some c /\ p c = true) /\
      lo <= cnt + n /\ within hi (cnt + n) /\ k (pos + n) = Some res.
Proof.
  induction suf as [ | c suf IH]; intros cnt pos k res Hw H.
  - simpl in H.
    assert (Hk : (if lo <=? cnt then k pos else None) = Some res).
    { destruct g; [assumption | ].
      destruct (if lo <=? cnt then k pos else None);
        [assumption | discriminate]. }
    clear H.
    destruct (lo <=? cnt) eqn:Hlo; [ | discriminate].
    apply Nat.leb_le in Hlo.
    exists 0. rewrite !Nat.add_0_r. repeat split; auto; intros; lia.
  - simpl in H.
    assert (Hcases :
      (below hi cnt && p c = true /\
       rep g lo hi p suf (S cnt) (S pos) k = Some res)
      \/ (if lo <=? cnt then k pos else None) = Some res).
    { destruct g.
      - destruct (below hi cnt && p c) eqn:Hb.
        + destruct (rep true lo hi p suf (S cnt) (S pos) k) eqn:Hr.
          * left. split; [reflexivity | congruence].
          * now right.
        + now right.
      - destruct (if lo <=? cnt then k pos else None) eqn:Hs.
        + now right.
        + left. destruct (below hi cnt && p c); [auto | discriminate]. }
    destruct Hcases as [[Hb Hr] | Hs].
    + apply andb_true_iff in Hb. destruct Hb as [Hbel Hp].
      assert (Hw' : within hi (S cnt)).
      { destruct hi as [h | ]; simpl in *; [ | exact I].
        apply Nat.ltb_lt in Hbel. lia. }
      destruct (IH _ _ _ _ Hw' Hr) as (n & Hn & Hall & Hlo & Hhi & Hk).
      exists (S n). simpl. repeat split.
      * lia.
      * intros [ | q] Hq; simpl; [eauto | apply Hall; lia].
      * lia.
      * now replace (cnt + S n) with (S cnt + n) by lia.
      * now replace (pos + S n) with (S pos + n) by lia.
    + destruct (lo <=? cnt) eqn:Hlo; [ | discriminate].
      apply Nat.leb_le in Hlo.
      exists 0. rewrite !Nat.add_0_r. repeat split; auto; intros; lia.
Qed.

(** Whatever [run] returns comes from its continuation, called at the
    end of a slice the pattern matches. *)
Lemma run_sound (r : re) :
  forall pos caps (k : nat -> captures -> option A) res,
    run s r pos caps k = Some res ->
    exists e caps', matches s r pos e /\ k e caps' = Some res.
Proof.
  induction r as [ | p | ml | ml | r1 IH1 r2 IH2 | r1 IH1 r2 IH2
                   | g lo hi p | n r1 IH1 ]; simpl; intros pos caps k res H.
  - eauto.
  - destruct (nth_error s pos) as [c | ] eqn:Hc; [ | discriminate].
    destruct (p c) eqn:Hp; [ | discriminate]. eauto 8.
  - destruct (at_bol ml s pos) eqn:Hb; [eauto | discriminate].
  - destruct (at_eol ml s pos) eqn:Hb; [eauto | discriminate].
  - apply IH1 in H. destruct H as (m & caps1 & Hm1 & H).
    apply IH2 in H. destruct H as (e & caps2 & Hm2 & H). eauto 8.
  - destruct (run s r1 pos caps k) eqn:H1.
    + inversion H; subst. apply IH1 in H1.
      destruct H1 as (e & caps' & Hm & Hk). eauto 8.
    + apply IH2 in H. destruct H as (e & caps' & Hm & Hk). eauto 8.
  - apply rep_sound in H.
    + destruct H as (n & Hn & Hall & Hlo & Hhi & Hk).
      exists (pos + n), caps. split; [ | assumption].
      replace (pos + n - pos) with n by lia.
      repeat split; try assumption; try lia.
      intros q Hq. destruct (Hall (q - pos)) as (c & Hc & Hp); [lia | ].
      rewrite nth_error_skipn_shift in Hc.
      replace (pos + (q - pos)) with q in Hc by lia. eauto.
    + destruct hi; simpl; [lia | exact I].
  - apply IH1 in H. destruct H as (e & caps' & Hm & Hk). eauto.
Qed.

(** The same, keeping track of the groups recorded on the way. *)
Lemma run_sound_caps (r : re) :
  forall pos caps (k : nat -> captures -> option A) res,
    run s r pos caps k = Some res ->
    exists e caps',
      matches s r pos e /\ k e caps' = Some res
      /\ caps_from caps caps' pos e.
Proof.
  assert (Hsame : forall caps lo hi, caps_from caps caps lo hi)
    by (intros caps lo hi n a b Hin; now left).
  induction r as [ | p | ml | ml | r1 IH1 r2 IH2 | r1 IH1 r2 IH2
                   | g lo hi p | n r1 IH1 ]; simpl; intros pos caps k res H.
  - eauto 8.
  - destruct (nth_error s pos) as [c | ] eqn:Hc; [ | discriminate].
    destruct (p c) eqn:Hp; [ | discriminate]. eauto 10.
  - destruct (at_bol ml s pos) eqn:Hb; [eauto 8 | discriminate].
  - destruct (at_eol ml s pos) eqn:Hb; [eauto 8 | discriminate].
  - apply IH1 in H. destruct H as (m & caps1 & Hm1 & H & Hc1).
    apply IH2 in H. destruct H as (e & caps2 & Hm2 & H & Hc2).
    exists e, caps2. split; [eauto | split; [assumption | ]].
    pose proof (@matches_bounds s r1 pos m Hm1) as [B1 _].
    pose proof (@matches_bounds s r2 m e Hm2) as [B2 _].
    intros n a b Hin. destruct (Hc2 n a b Hin) as [Hin1 | Hb]; [ | right; lia].
    destruct (Hc1 n a b Hin1) as [Hin0 | Hb]; [now left | right; lia].
  - destruct (run s r1 pos caps k) eqn:H1.
    + inversion H; subst. apply IH1 in H1.
      destruct H1 as (e & caps' & Hm & Hk & Hc). eauto 8.
    + apply IH2 in H. destruct H as (e & caps' & Hm & Hk & Hc). eauto 8.
  - pose proof (@run_sound (Rep g lo hi p) pos caps k res H)
      as (e & caps' & Hm & Hk).
    apply rep_sound in H; [ | destruct hi; simpl; [lia | exact I]].
    destruct H as (n & Hn & Hall & Hlo & Hhi & Hk').
    exists (pos + n), caps. split; [ | split; [assumption | apply Hsame]].
    replace (pos + n - pos) with n by lia.
    repeat split; try assumption; try lia.
    intros q Hq. destruct (Hall (q - pos)) as (c & Hc & Hp); [lia | ].
    rewrite nth_error_skipn_shift in Hc.
    replace (pos + (q - pos)) with q in Hc by lia. eauto.
  - apply IH1 in H. destruct H as (e & caps' & Hm & Hk & Hc).
    exists e, ((n, (pos, e)) :: caps'). split; [assumption | ].
    split; [assumption | ].
    pose proof (@matches_bounds s r1 pos e Hm) as [B _].
    intros n0 a b [Heq | Hin].
    + inversion Heq; subst. right. lia.
    + apply Hc. exact Hin.
Qed.
End Soundness.


Section Completeness.
Context {A : Type}.
Variable s : str.

(** If some admissible number of characters of the class leads to a
    continuation that succeeds, [rep] succeeds (perhaps with another
    count, by its priorities). *)
Lemma rep_complete g lo hi p :
  forall suf cnt pos (k : nat -> option A) n,
    n <= length suf ->
    (forall q, q < n -> exists c, nth_error suf q = Some c /\ p c = true) ->
    lo <= cnt + n -> within hi (cnt + n) ->
    k (pos + n) <> None ->
    rep g lo hi p suf cnt pos k <> None.
Proof.
  induction suf as [ | c suf IH]; intros cnt pos k n Hn Hall Hlo Hhi Hk.
  - simpl in Hn. assert (n = 0) by lia. subst n.
    rewrite Nat.add_0_r in *. simpl.
    apply Nat.leb_le in Hlo. rewrite Hlo.
    destruct g; destruct (k pos); congruence.
  - destruct n as [ | n].
    + rewrite Nat.add_0_r in *. simpl.
      apply Nat.leb_le in Hlo. rewrite Hlo.
      destruct g.
      * destruct (if below hi cnt && p c
                  then rep true lo hi p suf (S cnt) (S pos) k else None);
          [discriminate | assumption].
      * destruct (k pos); [discriminate | congruence].
    + assert (Hmore : rep g lo hi p suf (S cnt) (S pos) k <> None).
      { apply IH with (n := n).
        - simpl in Hn. lia.
        - intros q Hq. apply (Hall (S q)). lia.
        - lia.
        - now replace (S cnt + n) with (cnt + S n) by lia.
        - now replace (S pos + n) with (pos + S n) by lia. }
      assert (Hb : below hi cnt && p c = true).
      { apply andb_true_iff. split.
        - destruct hi as [h | ]; simpl in *; [ | reflexivity].
          apply Nat.ltb_lt. lia.
        - destruct (Hall 0) as (c' & Hc' & Hp); [lia | ].
          simpl in Hc'. now inversion Hc'; subst. }
      simpl. rewrite Hb.
      destruct g.
      * destruct (rep true lo hi p suf (S cnt) (S pos) k);
          [discriminate | congruence].
      * destruct (if lo <=? cnt then k pos else None);
          [discriminate | assumption].
Qed.

(** If the pattern matches some slice starting at [pos] whose end the
    continuation accepts whatever the groups, [run] succeeds. *)
Lemma run_complete (r : re) :
  forall pos e caps (k : nat -> captures -> option A),
    matches s r pos e ->
    (forall caps', k e caps' <> None) ->
    run s r pos caps k <> None.
Proof.
  induction r as [ | p | ml | ml | r1 IH1 r2 IH2 | r1 IH1 r2 IH2
                   | g lo hi p | n r1 IH1 ]; simpl; intros pos e caps k Hm Hk.
  - subst e. apply Hk.
  - destruct Hm as (-> & c & Hc & Hp). rewrite Hc, Hp. apply Hk.
  - destruct Hm as (-> & Hb). rewrite Hb. apply Hk.
  - destruct Hm as (-> & Hb). rewrite Hb. apply Hk.
  - destruct Hm as (m & H1 & H2).
    apply IH1 with (e := m); [assumption | ].
    intros caps'. now apply IH2 with (e := e).
  - destruct Hm as [H1 | H2].
    + pose proof (IH1 pos e caps k H1 Hk) as Hr.
      destruct (run s r1 pos caps k); [discriminate | congruence].
    + destruct (run s r1 pos caps k); [discriminate | ].
      now apply IH2 with (e := e).
  - destruct Hm as (Hle & Hlo & Hhi & Hall).
    apply rep_complete with (n := e - pos).
    + rewrite length_skipn.
      destruct (Nat.eq_dec pos e) as [-> | Hne]; [lia | ].
      destruct (Hall (e - 1)) as (c & Hc & _); [lia | ].
      assert (e - 1 < length s) by (apply nth_error_Some; congruence). lia.
    + intros q Hq. rewrite nth_error_skipn_shift. apply Hall. lia.
    + exact Hlo.
    + exact Hhi.
    + replace (pos + (e - pos)) with e by lia. apply Hk.
  - apply IH1 with (e := e); [assumption | ]. intros caps'. apply Hk.
Qed.
End Completeness.

Lemma match_at_complete r s pos e :
  matches s r pos e -> match_at r s pos false <> None.
Proof.
  intros Hm. unfold match_at. apply run_complete with (e := e);
    [assumption | ].
  intros caps'. simpl. discriminate.
Qed.

Lemma search_from_complete r s i j :
  matches s r i j ->
  forall suf pos,
    pos <= i <= pos + length suf ->
    search_from r s suf pos false <> None.
Proof.
  intros Hm. induction suf as [ | c suf IH]; intros pos Hpos; simpl.
  - assert (i = pos) by (simpl in Hpos; lia). subst i.
    pose proof (@match_at_complete r s pos j Hm) as Hc.
    destruct (match_at r s pos false); [discriminate | congruence].
  - destruct (match_at r s pos false) eqn:Ha; [discriminate | ].
    apply IH. simpl in Hpos.
    destruct (Nat.eq_dec i pos) as [-> | Hne]; [ | lia].
    exfalso. now apply (@match_at_complete r s pos j Hm).
Qed.

Lemma match_at_sound r s pos ma mt :
  match_at r s pos ma = Some mt ->
  m_start mt = pos /\ matches s r pos (m_end mt)
  /\ (ma = true -> m_end mt <> pos).
Proof.
  unfold match_at. intros H. apply run_sound in H.
  destruct H as (e & caps' & Hm & Hk).
  destruct (ma && (e =? pos)) eqn:Hadv; [discriminate | ].
  inversion Hk; subst; simpl. repeat split; [assumption | ].
  intros ->. simpl in Hadv. now apply Nat.eqb_neq in Hadv.
Qed.

Lemma search_from_sound r s :
  forall suf pos ma mt,
    search_from r s suf pos ma = Some mt ->
    pos <= m_start mt <= pos + length suf
    /\ matches s r (m_start mt) (m_end mt)
    /\ (ma = true -> m_end mt <> pos).
Proof.
  induction suf as [ | c suf IH]; intros pos ma mt H; simpl in H.
  - destruct (match_at r s pos ma) eqn:Hm; [ | discriminate].
    inversion H; subst. apply match_at_sound in Hm.
    destruct Hm as (Hs & Hm & Ha). rewrite Hs. repeat split; auto; lia.
  - destruct (match_at r s pos ma) eqn:Hm.
    + inversion H; subst. apply match_at_sound in Hm.
      destruct Hm as (Hs & Hm & Ha). rewrite Hs. simpl.
      repeat split; auto; lia.
    + apply IH in H. destruct H as (Hb & Hm' & _). simpl.
      repeat split; auto; try lia.
      intros _ He. apply matches_bounds in Hm'. lia.
Qed.

(** [re.search] finds a match exactly when some slice of the text matches
    the pattern. *)
Theorem search_spec r s :
  Re.search r s <> None
  <-> exists i j, i <= length s /\ matches s r i j.
Proof.
  unfold Re.search. split.
  - intros H. destruct (search_from r s s 0 false) as [mt | ] eqn:Hs;
      [ | congruence].
    apply search_from_sound in Hs. destruct Hs as (Hb & Hm & _).
    exists (m_start mt), (m_end mt). split; [simpl in Hb; lia | assumption].
  - intros (i & j & Hi & Hm).
    apply (@search_from_complete r s i j Hm). lia.
Qed.

Lemma finditer_from_ordered r s :
  forall fuel pos ma,
    pos <= length s -> ordered s pos (finditer_from fuel r s pos ma).
Proof.
  induction fuel as [ | fuel IH]; intros pos ma Hpos; simpl; [exact I | ].
  destruct (search_from r s (skipn pos s) pos ma) as [mt | ] eqn:Hs;
    simpl; [ | exact I].
  apply search_from_sound in Hs. destruct Hs as (Hb & Hm & _).
  rewrite length_skipn in Hb.
  apply matches_bounds in Hm. destruct Hm as [Hle Hlen].
  assert (m_end mt <= length s) by (apply Hlen; lia).
  repeat split; try lia. now apply IH.
Qed.

Lemma finditer_ordered r s : ordered s 0 (finditer r s).
Proof. apply finditer_from_ordered. lia. Qed.

Lemma finditer_from_matches r s :
  forall fuel pos ma mt,
    In mt (finditer_from fuel r s pos ma) ->
    matches s r (m_start mt) (m_end mt).
Proof.
  induction fuel as [ | fuel IH]; intros pos ma mt Hin; simpl in Hin;
    [contradiction | ].
  destruct (search_from r s (skipn pos s) pos ma) as [m0 | ] eqn:Hs;
    [ | contradiction].
  destruct Hin as [<- | Hin].
  - now apply search_from_sound in Hs.
  - eapply IH; eassumption.
Qed.

Lemma match_at_caps r s pos ma mt :
  match_at r s pos ma = Some mt ->
  forall n a b,
    In (n, (a, b)) (m_caps mt) ->
    m_start mt <= a /\ a <= b /\ b <= m_end mt.
Proof.
  unfold match_at. intros H. apply run_sound_caps in H.
  destruct H as (e & caps' & Hm & Hk & Hc).
  destruct (ma && (e =? pos)); [discriminate | ].
  inversion Hk; subst; simpl. intros n a b Hin.
  destruct (Hc n a b Hin) as [[] | Hb]. exact Hb.
Qed.

Lemma search_from_caps r s :
  forall suf pos ma mt,
    search_from r s suf pos ma = Some mt ->
    forall n a b,
      In (n, (a, b)) (m_caps mt) ->
      m_start mt <= a /\ a <= b /\ b <= m_end mt.
Proof.
  induction suf as [ | c suf IH]; intros pos ma mt H; simpl in H.
  - destruct (match_at r s pos ma) eqn:Hm; [ | discriminate].
    inversion H; subst. eapply match_at_caps; eassumption.
  - destruct (match_at r s pos ma) eqn:Hm.
    + inversion H; subst. eapply match_at_caps; eassumption.
    + eapply IH; eassumption.
Qed.

Lemma finditer_from_caps r s :
  forall fuel pos ma mt,
    In mt (finditer_from fuel r s pos ma) ->
    forall n a b,
      In (n, (a, b)) (m_caps mt) ->
      m_start mt <= a /\ a <= b /\ b <= m_end mt.
Proof.
  induction fuel as [ | fuel IH]; intros pos ma mt Hin; simpl in Hin;
    [contradiction | ].
  destruct (search_from r s (skipn pos s) pos ma) as [m0 | ] eqn:Hs;
    [ | contradiction].
  destruct Hin as [<- | Hin].
  - eapply search_from_caps; eassumption.
  - eapply IH; eassumption.
Qed.

Lemma cap_lookup_in (n : nat) (caps : captures) (a b : nat) :
  cap_lookup n caps = Some (a, b) -> In (n, (a, b)) caps.
Proof.
  induction caps as [ | [i span] caps IH]; simpl; [discriminate | ].
  destruct (i =? n) eqn:E.
  - apply Nat.eqb_eq in E. intros H. inversion H; subst. now left.
  - intros H. right. now apply IH.
Qed.

(** A group of a match found by [finditer] is a slice of the text inside
    the match. *)
Lemma finditer_group_inside r s n mt :
  In mt (finditer r s) ->
  exists a b,
    m_start mt <= a /\ a <= b /\ b <= m_end mt
    /\ group s n mt = slice s a b.
Proof.
  intros Hin. unfold group.
  destruct (cap_lookup n (m_caps mt)) as [[a b] | ] eqn:Hc.
  - apply cap_lookup_in in Hc.
    destruct (finditer_from_caps _ _ _ _ _ _ Hin _ _ _ Hc) as (H1 & H2 & H3).
    exists a, b. repeat split; assumption.
  - exists (m_start mt), (m_start mt).
    apply finditer_from_matches in Hin. apply matches_bounds in Hin.
    rewrite slice_empty. repeat split; lia.
Qed.

(** The number of rounds [finditer] allows is never the reason it
    stops: its result is that of the unbounded iteration. *)
Lemma finditer_from_iterates r s :
  forall fuel pos (ma : bool),
    pos <= length s ->
    2 * (length s - pos) + (if ma then 1 else 2) <= fuel ->
    iterates r s pos ma (finditer_from fuel r s pos ma).
Proof.
  induction fuel as [ | fuel IH]; intros pos ma Hpos Hfuel.
  - destruct ma; lia.
  - cbn [finditer_from].
    destruct (search_from r s (skipn pos s) pos ma) as [mt | ] eqn:Hs.
    + apply iterates_more; [exact Hs | ].
      apply search_from_sound in Hs. destruct Hs as (Hb & Hm & Hadv).
      rewrite length_skipn in Hb.
      apply matches_bounds in Hm. destruct Hm as [Hle Hlen].
      assert (He : m_end mt <= length s) by (apply Hlen; lia).
      apply IH; [exact He | ].
      destruct (m_end mt =? m_start mt) eqn:E.
      * apply Nat.eqb_eq in E. destruct ma.
        -- specialize (Hadv eq_refl). lia.
        -- lia.
      * apply Nat.eqb_neq in E. destruct ma; lia.
    + now apply iterates_done.
Qed.

Theorem finditer_iterates r s : iterates r s 0 false (finditer r s).
Proof. apply finditer_from_iterates; lia. Qed.

(** The positional and the word readings of a pattern agree. *)
Lemma lang_matches (s : str) (r : re) :
  forall i j,
    i <= j -> j <= length s -> lang r (slice s i j) -> matches s r i j.
Proof.
  induction r as [ | p | ml | ml | r1 IH1 r2 IH2 | r1 IH1 r2 IH2
                   | g lo hi p | n r1 IH1 ]; simpl; intros i j Hij Hj H.
  - apply (f_equal (@length ascii)) in H.
    rewrite length_slice in H by assumption. simpl in H. lia.
  - destruct H as (c & Hc & Hp).
    pose proof (f_equal (@length ascii) Hc) as Hl.
    rewrite length_slice in Hl by assumption. simpl in Hl.
    split; [lia | ]. exists c. split; [ | assumption].
    pose proof (@nth_error_slice s i j 0) as Hn.
    rewrite Hc, Nat.add_0_r in Hn. simpl in Hn. symmetry. apply Hn. lia.
  - contradiction.
  - contradiction.
  - destruct H as (w1 & w2 & Hw & H1 & H2).
    destruct (@slice_split s i j w1 w2 Hij Hj Hw) as (Hm & Hs1 & Hs2).
    exists (i + length w1). split.
    + apply IH1; [lia | lia | now rewrite Hs1].
    + apply IH2; [lia | lia | now rewrite Hs2].
  - destruct H as [H | H]; [left; now apply IH1 | right; now apply IH2].
  - destruct H as (Hlo & Hhi & Hall).
    rewrite length_slice in Hlo, Hhi by assumption.
    repeat split; try assumption.
    intros q Hq.
    assert (Hlt : q - i < length (slice s i j))
      by (rewrite length_slice by assumption; lia).
    apply nth_error_Some in Hlt.
    destruct (nth_error (slice s i j) (q - i)) as [c | ] eqn:Hc;
      [ | congruence].
    exists c. split.
    + rewrite nth_error_slice in Hc by lia.
      now replace (i + (q - i)) with q in Hc by lia.
    + apply nth_error_In in Hc.
      rewrite Forall_forall in Hall. now apply Hall.
  - now apply IH1.
Qed.

Lemma matches_lang (s : str) (r : re) :
  forall i j,
    anchor_free r -> i <= length s -> matches s r i j ->
    lang r (slice s i j).
Proof.
  induction r as [ | p | ml | ml | r1 IH1 r2 IH2 | r1 IH1 r2 IH2
                   | g lo hi p | n r1 IH1 ]; simpl; intros i j Haf Hi H.
  - subst j. apply slice_empty.
  - destruct H as (-> & c & Hc & Hp). exists c. split; [ | assumption].
    now apply slice_one.
  - contradiction.
  - contradiction.
  - destruct Haf as [Ha1 Ha2]. destruct H as (m & H1 & H2).
    pose proof (@matches_bounds s r1 i m H1) as [B1 B1'].
    pose proof (@matches_bounds s r2 m j H2) as [B2 B2'].
    exists (slice s i m), (slice s m j). split.
    + symmetry. apply slice_app. lia.
    + split; [now apply IH1 | apply IH2; auto].
  - destruct Haf as [Ha1 Ha2].
    destruct H as [H | H]; [left; now apply IH1 | right; now apply IH2].
  - pose proof (@matches_bounds s (Rep g lo hi p) i j H) as [B B'].
    destruct H as (Hle & Hlo & Hhi & Hall).
    rewrite length_slice by auto. repeat split; try assumption.
    apply Forall_forall. intros c Hin.
    apply In_nth_error in Hin. destruct Hin as (q & Hq).
    assert (Hlt : q < j - i).
    { rewrite <- (length_slice s i) by auto.
      apply nth_error_Some. congruence. }
    rewrite nth_error_slice in Hq by assumption.
    destruct (Hall (i + q)) as (c' & Hc' & Hp); [lia | ]. congruence.
  - now apply IH1.
Qed.

(** [re.search] with a pattern without anchors succeeds exactly on the
    texts that contain a word of the pattern. *)
Theorem search_lang (r : re) (s : str) :
  anchor_free r ->
  (Re.search r s <> None
   <-> exists before w after, s = before ++ w ++ after /\ lang r w).
Proof.
  intros Haf. rewrite search_spec. split.
  - intros (i & j & Hi & Hm).
    pose proof (@matches_bounds s r i j Hm) as [B B'].
    exists (firstn i s), (slice s i j), (skipn j s). split.
    + now apply text_cut.
    + now apply matches_lang.
  - intros (before & w & after & Hs & Hw).
    exists (length before), (length before + length w). split.
    + rewrite Hs, length_app. lia.
    + apply lang_matches.
      * lia.
      * rewrite Hs, !length_app. lia.
      * rewrite Hs, slice_of_app. exact Hw.
Qed.

End ReFacts.

(* ================================================================= *)
(** * Evaluation on small inputs *)

(** A boilerplate line is removed together with the blank lines the
    classes [\s*] around it reach, up to the last newline before the
    next text. *)
Example clean_removes_logo_line :
  clean_text_preserve_headings
    (PyStr (L "a" ++ [NL; NL; NL] ++ L "Logo" ++ [NL; NL; NL] ++ L "b"))
  = Ok (L "a" ++ [NL; NL] ++ L "b").
Proof. vm_compute. reflexivity. Qed.

Example clean_page_header_comment_figure :
  clean_text_preserve_headings
    (PyStr (L "<!-- PageHeader = 'Hello' --> x <!-- c" ++ [NL] ++
            L " d --> y <FIGURE a>zz" ++ [NL] ++ L "</figure>  confidential "))
  = Ok (L "Hello" ++ [NL] ++ L " x  y   confidential").
Proof. vm_compute. reflexivity. Qed.

Example segmenter_on_mixed_headings :
  _extract_sections_from_text
    (L "pre" ++ [NL] ++ L "# A" ++ [NL] ++ L "x" ++ [NL; NL] ++ L "## B  " ++
     [NL; NL; NL] ++ L "body b" ++ [NL] ++ L "####### seven" ++ [NL] ++
     L "#" ++ [NL; NL] ++ L "foo")
  = Ok [ (L "A", L "x"); (L "B", L "body b"); (L "# seven", []);
         (L "foo", []) ].
Proof. vm_compute. reflexivity. Qed.

Example paragraphs_on_blank_lines :
  paragraphs_of (L "a" ++ [NL; NL; NL] ++ L " b " ++ [NL] ++ L "c" ++
                 [NL; NL] ++ L "   " ++ [NL; NL] ++ L "d")
  = [ L "a"; L "b " ++ [NL] ++ L "c"; L "d" ].
Proof. vm_compute. reflexivity. Qed.

Example p_clean_strips_markers :
  p_clean (L "###  Hello World ") = L "hello world"
  /\ p_clean (L " # Hello") = L "# hello".
Proof. split; vm_compute; reflexivity. Qed.

(** The heading [C] stands before [B] in the contract: it ends up inside
    the body of [A] and is itself reported with an empty body. *)
Example aligner_out_of_order_heading :
  extract_contract_sections
    (L "A" ++ [NL; NL] ++ L "x" ++ [NL; NL] ++ L "C" ++ [NL; NL] ++ L "y" ++
     [NL; NL] ++ L "# b" ++ [NL; NL] ++ L "z")
    [L "A"; L "B"; L "C"]
  = Ok [ (L "A", L "x" ++ [NL; NL] ++ L "C" ++ [NL; NL] ++ L "y");
         (L "B", L "z"); (L "C", []) ].
Proof. vm_compute. reflexivity. Qed.

Example gate_accepts_loose_spelling :
  option_map (fun mt => (m_start mt, m_end mt))
             (Re.search gate_re (L "xx ATTACHMENT 1: - Service  Description"))
  = Some (3, 39).
Proof. vm_compute. reflexivity. Qed.

Example gate_refuses_letter_between :
  Re.search gate_re (L "Attachment 1 a Service Description") = None.
Proof. vm_compute. reflexivity. Qed.

(** The JSON pattern is greedy: it runs from the first opening brace to
    the last closing brace. *)
Example json_re_is_greedy :
  option_map (fun mt => (m_start mt, m_end mt))
             (Re.search json_re (L "ab { x } y } z"))
  = Some (3, 12).
Proof. vm_compute. reflexivity. Qed.

(** The run of the specification's example: the contract has the section
    [Term], the oracle's answer parses to an object with status [Match],
    and the report is [Correct] with no entry; the oracle was asked once,
    with both excerpts. *)
Example validate_term_match :
  validate_service_description
    (L "# Term" ++ [NL] ++ L "12 months")
    (parses_to (JObj [ (L "section", JStr (L "Term"));
                       (L "status", JStr (L "Match"));
                       (L "difference_summary", JStr []) ]))
    (always_answers (L "{}"))
    sample_contract []
  = Ok (MkReport (L "Correct") [],
        [ AlignerCall sample_contract [L "Term"];
          OracleCall (MkRequest (L "Term") (L "12 months")
                                (L "Twelve (12) months")) ]).
Proof. vm_compute. reflexivity. Qed.

(* ================================================================= *)
(** * Properties of ordered dictionaries *)

Lemma keys_dict_set {V} (d : dict V) (k : str) (v : V) :
  keys (dict_set d k v) = add_key (keys d) k.
Proof.
  induction d as [ | [k' v'] d IH]; simpl; [reflexivity | ].
  destruct (str_eqb k' k); simpl; [reflexivity | ].
  now rewrite IH.
Qed.

Lemma dict_lookup_set_same {V} (d : dict V) (k : str) (v : V) :
  dict_lookup (dict_set d k v) k = Some v.
Proof.
  induction d as [ | [k' v'] d IH]; simpl.
  - now rewrite str_eqb_refl.
  - destruct (str_eqb k' k) eqn:E; simpl; rewrite E; [reflexivity | exact IH].
Qed.

Lemma dict_lookup_set_other {V} (d : dict V) (k k' : str) (v : V) :
  k <> k' -> dict_lookup (dict_set d k v) k' = dict_lookup d k'.
Proof.
  intros Hne. induction d as [ | [k0 v0] d IH]; simpl.
  - apply str_eqb_neq in Hne. now rewrite Hne.
  - destruct (str_eqb k0 k) eqn:E; simpl.
    + apply str_eqb_eq in E. subst k0.
      apply str_eqb_neq in Hne. now rewrite Hne.
    + now rewrite IH.
Qed.

Lemma add_key_fresh (ks : list str) (k : str) :
  ~ In k ks -> add_key ks k = ks ++ [k].
Proof.
  induction ks as [ | k' ks IH]; simpl; intros Hnin; [reflexivity | ].
  destruct (str_eqb k' k) eqn:E.
  - apply str_eqb_eq in E. exfalso. apply Hnin. now left.
  - rewrite IH; [reflexivity | ]. intros Hin. apply Hnin. now right.
Qed.

Lemma add_key_present (ks : list str) (k : str) :
  In k ks -> add_key ks k = ks.
Proof.
  induction ks as [ | k' ks IH]; simpl; intros Hin; [contradiction | ].
  destruct (str_eqb k' k) eqn:E; [reflexivity | ].
  destruct Hin as [-> | Hin].
  - now rewrite str_eqb_refl in E.
  - now rewrite IH.
Qed.

Lemma fold_add_key_nodup (hs ks : list str) :
  NoDup (ks ++ hs) -> fold_left add_key hs ks = ks ++ hs.
Proof.
  revert ks. induction hs as [ | h hs IH]; intros ks Hnd; simpl.
  - now rewrite app_nil_r.
  - assert (Hnin : ~ In h ks).
    { apply NoDup_remove_2 in Hnd. intros Hin. apply Hnd.
      apply in_or_app. now left. }
    rewrite add_key_fresh by assumption.
    rewrite IH; rewrite <- app_assoc; simpl; [reflexivity | assumption].
Qed.

Lemma distinct_titles_nodup (hs : list str) :
  NoDup hs -> distinct_titles hs = hs.
Proof. intros H. unfold distinct_titles. now rewrite fold_add_key_nodup. Qed.

Lemma nodup_snoc (ks : list str) (k : str) :
  NoDup ks -> ~ In k ks -> NoDup (ks ++ [k]).
Proof.
  intros Hnd Hno. induction ks as [ | x ks IH]; simpl.
  - constructor; [intros [] | constructor].
  - inversion Hnd; subst. constructor.
    + intros Hin. apply in_app_or in Hin. destruct Hin as [Hin | [-> | []]].
      * contradiction.
      * apply Hno. now left.
    + apply IH; [assumption | ]. intros Hin. apply Hno. now right.
Qed.

(** Adding the titles of a list one by one gives as many keys as the
    list is long only when no title repeats. *)
Lemma fold_add_key_length (hs : list str) :
  forall ks,
    NoDup ks ->
    length (fold_left add_key hs ks) <= length ks + length hs
    /\ (length (fold_left add_key hs ks) = length ks + length hs ->
        NoDup (ks ++ hs)).
Proof.
  induction hs as [ | h hs IH]; intros ks Hnd; simpl.
  - rewrite app_nil_r. split; [lia | now intros _].
  - destruct (in_dec (list_eq_dec ascii_dec) h ks) as [Hin | Hno].
    + rewrite add_key_present by assumption.
      destruct (IH ks Hnd) as [Hle _]. split; [lia | intros H; lia].
    + rewrite add_key_fresh by assumption.
      destruct (IH (ks ++ [h]) (@nodup_snoc ks h Hnd Hno)) as [Hle Heq].
      rewrite length_app in Hle, Heq. simpl in Hle, Heq.
      split; [lia | ]. intros H.
      rewrite <- app_assoc in Heq. simpl in Heq. apply Heq. lia.
Qed.

Lemma distinct_titles_length (hs : list str) :
  length (distinct_titles hs) = length hs <-> NoDup hs.
Proof.
  split.
  - intros H. destruct (@fold_add_key_length hs [] (NoDup_nil _)) as [_ Hn].
    apply Hn. exact H.
  - intros H. now rewrite distinct_titles_nodup.
Qed.

(* ================================================================= *)
(** * Properties of the aligner's scans *)

Lemma scan_some (ps : list str) :
  forall j target k,
    scan ps j target = Some k ->
    j <= k < j + length ps
    /\ (exists p, nth_error ps (k - j) = Some p /\ p_clean p = target)
    /\ (forall q p, q < k - j -> nth_error ps q = Some p -> p_clean p <> target).
Proof.
  induction ps as [ | p ps IH]; intros j target k H; simpl in H;
    [discriminate | ].
  destruct (str_eqb (p_clean p) target) eqn:E.
  - inversion H; subst k. apply str_eqb_eq in E.
    rewrite Nat.sub_diag. simpl. split; [lia | split].
    + eauto.
    + intros q p' Hq. lia.
  - apply IH in H. destruct H as (Hb & (p' & Hp' & Hc) & Hfirst).
    simpl. split; [lia | split].
    + exists p'. replace (k - j) with (S (k - S j)) by lia. simpl. auto.
    + intros q p0 Hq Hn. destruct q as [ | q]; simpl in Hn.
      * inversion Hn; subst p0. now apply str_eqb_neq in E.
      * apply (Hfirst q p0); [lia | assumption].
Qed.

Lemma scan_none (ps : list str) :
  forall j target,
    scan ps j target = None ->
    forall q p, nth_error ps q = Some p -> p_clean p <> target.
Proof.
  induction ps as [ | p ps IH]; intros j target H q p' Hn; simpl in H.
  - now destruct q.
  - destruct (str_eqb (p_clean p) target) eqn:E; [discriminate | ].
    destruct q as [ | q]; simpl in Hn.
    + inversion Hn; subst p'. now apply str_eqb_neq in E.
    + eapply IH; eassumption.
Qed.

Lemma scan_complete (ps : list str) :
  forall j target q p,
    nth_error ps q = Some p -> p_clean p = target ->
    scan ps j target <> None.
Proof.
  intros j target q p Hn Hc H. eapply scan_none in H; eauto.
Qed.

Lemma find_heading_some paragraphs start_idx target k :
  find_heading paragraphs start_idx target = Some k ->
  start_idx <= k < length paragraphs
  /\ (exists p, nth_error paragraphs k = Some p /\ p_clean p = target)
  /\ (forall q p, start_idx <= q < k -> nth_error paragraphs q = Some p ->
                  p_clean p <> target).
Proof.
  unfold find_heading. intros H. apply scan_some in H.
  destruct H as (Hb & (p & Hp & Hc) & Hfirst).
  rewrite nth_error_skipn_shift in Hp.
  assert (Hlen : k < length paragraphs).
  { apply nth_error_Some. replace (start_idx + (k - start_idx)) with k in Hp
      by lia. congruence. }
  split; [lia | split].
  - exists p. replace (start_idx + (k - start_idx)) with k in Hp by lia. auto.
  - intros q p0 Hq Hn. apply (Hfirst (q - start_idx) p0); [lia | ].
    rewrite nth_error_skipn_shift.
    now replace (start_idx + (q - start_idx)) with q by lia.
Qed.

Lemma find_heading_none paragraphs start_idx target :
  find_heading paragraphs start_idx target = None <->
  (forall q p, start_idx <= q -> nth_error paragraphs q = Some p ->
               p_clean p <> target).
Proof.
  unfold find_heading. split.
  - intros H q p Hq Hn. eapply scan_none with (q := q - start_idx);
      [exact H | ].
    rewrite nth_error_skipn_shift.
    now replace (start_idx + (q - start_idx)) with q by lia.
  - intros H. destruct (scan (skipn start_idx paragraphs) start_idx target)
      as [k | ] eqn:E; [ | reflexivity].
    apply scan_some in E. destruct E as (Hb & (p & Hp & Hc) & _).
    rewrite nth_error_skipn_shift in Hp. exfalso.
    apply (H (start_idx + (k - start_idx)) p); [lia | assumption | assumption].
Qed.

Lemma find_heading_none_later paragraphs a b target :
  a <= b ->
  find_heading paragraphs a target = None ->
  find_heading paragraphs b target = None.
Proof.
  intros Hab H. apply find_heading_none. intros q p Hq.
  rewrite find_heading_none in H. apply H. lia.
Qed.

Lemma find_end_bounds paragraphs found_idx rest :
  found_idx < length paragraphs ->
  found_idx < find_end paragraphs found_idx rest <= length paragraphs.
Proof.
  intros Hf. induction rest as [ | h rest IH]; simpl; [lia | ].
  destruct (find_heading paragraphs (S found_idx) (lower h)) as [j | ] eqn:E;
    [ | exact IH].
  apply find_heading_some in E. lia.
Qed.

(* ================================================================= *)
(** * Properties of the normalizer and of the aligner's loop *)

Lemma clean_text_str (text : str) :
  clean_text_preserve_headings (PyStr text) = Ok (normalize text).
Proof. reflexivity. Qed.

Lemma extract_contract_sections_eq (contract_text : str) (hs : list str) :
  extract_contract_sections contract_text hs
  = Ok (align_loop (paragraphs_of (normalize contract_text)) hs 0 []).
Proof. reflexivity. Qed.

Section AlignLoop.
Variable paragraphs : list str.

Lemma align_trace_length :
  forall hs st, length (align_trace paragraphs hs st) = length hs.
Proof.
  induction hs as [ | h hs IH]; intros st; simpl; [reflexivity | ].
  destruct (find_heading paragraphs st (lower h)); simpl; now rewrite IH.
Qed.

(** The loop stores exactly the bodies of the positions in its trace. *)
Lemma align_loop_replay :
  forall hs st d,
    align_loop paragraphs hs st d
    = replay paragraphs (combine hs (align_trace paragraphs hs st)) d.
Proof.
  induction hs as [ | h hs IH]; intros st d; simpl; [reflexivity | ].
  destruct (find_heading paragraphs st (lower h)) as [f | ]; simpl;
    now rewrite IH.
Qed.

Lemma align_loop_keys :
  forall hs st d,
    keys (align_loop paragraphs hs st d) = fold_left add_key hs (keys d).
Proof.
  induction hs as [ | h hs IH]; intros st d; simpl; [reflexivity | ].
  destruct (find_heading paragraphs st (lower h)) as [f | ];
    rewrite IH, keys_dict_set; reflexivity.
Qed.

(** A matched heading lies at or after the cursor, and its section ends
    after it. *)
Lemma align_trace_bounds :
  forall hs st j f e,
    nth_error (align_trace paragraphs hs st) j = Some (Some (f, e)) ->
    st <= f /\ f < e /\ e <= length paragraphs.
Proof.
  induction hs as [ | h hs IH]; intros st j f e H; simpl in H.
  - now destruct j.
  - destruct (find_heading paragraphs st (lower h)) as [f0 | ] eqn:E.
    + apply find_heading_some in E. destruct E as (Hb & _).
      pose proof (find_end_bounds paragraphs hs (proj2 Hb)) as He.
      destruct j as [ | j]; simpl in H.
      * inversion H; subst. lia.
      * apply IH in H. lia.
    + destruct j as [ | j]; simpl in H; [discriminate | ].
      now apply IH in H.
Qed.

(** A later heading is matched at or after the end of an earlier matched
    heading's section. *)
Lemma align_trace_order :
  forall hs st i j fi ei fj ej,
    i < j ->
    nth_error (align_trace paragraphs hs st) i = Some (Some (fi, ei)) ->
    nth_error (align_trace paragraphs hs st) j = Some (Some (fj, ej)) ->
    ei <= fj.
Proof.
  induction hs as [ | h hs IH]; intros st i j fi ei fj ej Hij Hi Hj;
    simpl in Hi, Hj.
  - now destruct i.
  - destruct j as [ | j]; [lia | ].
    destruct (find_heading paragraphs st (lower h)) as [f0 | ] eqn:E;
      simpl in Hj.
    + destruct i as [ | i]; simpl in Hi.
      * inversion Hi; subst. apply align_trace_bounds in Hj. lia.
      * eapply IH with (i := i) (j := j); eauto. lia.
    + destruct i as [ | i]; simpl in Hi; [discriminate | ].
      eapply IH with (i := i) (j := j); eauto. lia.
Qed.

(** The recorded position holds a paragraph that is the heading. *)
Lemma align_trace_found :
  forall hs st i h f e,
    nth_error hs i = Some h ->
    nth_error (align_trace paragraphs hs st) i = Some (Some (f, e)) ->
    exists p, nth_error paragraphs f = Some p /\ p_clean p = lower h.
Proof.
  induction hs as [ | h0 hs IH]; intros st i h f e Hh H; simpl in H.
  - now destruct i.
  - destruct (find_heading paragraphs st (lower h0)) as [f0 | ] eqn:E.
    + destruct i as [ | i]; simpl in H, Hh.
      * inversion H; subst. inversion Hh; subst.
        apply find_heading_some in E. tauto.
      * eapply IH; eauto.
    + destruct i as [ | i]; simpl in H, Hh; [discriminate | ].
      eapply IH; eauto.
Qed.

(** Once a scan for a title fails, the title's entry ends up empty:
    every later store under it is empty too, the cursor never moving
    back. *)
Lemma align_loop_unmatched :
  forall hs st d h,
    find_heading paragraphs st (lower h) = None ->
    In h hs \/ dict_lookup d h = Some [] ->
    dict_lookup (align_loop paragraphs hs st d) h = Some [].
Proof.
  induction hs as [ | h0 hs IH]; intros st d h Hnone Hin; simpl.
  - destruct Hin as [[] | Hd]. exact Hd.
  - destruct (list_eq_dec ascii_dec h0 h) as [-> | Hne].
    + rewrite Hnone. apply IH; [assumption | ].
      right. apply dict_lookup_set_same.
    + assert (Hin' : forall v, In h hs \/ dict_lookup (dict_set d h0 v) h = Some []).
      { intros v. destruct Hin as [[Heq | Hin] | Hd].
        - contradiction.
        - now left.
        - right. now rewrite dict_lookup_set_other. }
      destruct (find_heading paragraphs st (lower h0)) as [f0 | ] eqn:E.
      * apply IH; [ | apply Hin'].
        apply find_heading_some in E. destruct E as (Hb & _).
        pose proof (find_end_bounds paragraphs hs (proj2 Hb)).
        eapply find_heading_none_later; [ | eassumption]. lia.
      * apply IH; [assumption | apply Hin'].
Qed.

Lemma align_loop_unmatched_at :
  forall hs st d i h,
    nth_error hs i = Some h ->
    nth_error (align_trace paragraphs hs st) i = Some None ->
    dict_lookup (align_loop paragraphs hs st d) h = Some [].
Proof.
  induction hs as [ | h0 hs IH]; intros st d i h Hh H.
  - now destruct i.
  - destruct i as [ | i]; simpl in Hh.
    + inversion Hh; subst h0. apply align_loop_unmatched; [ | left; now left].
      simpl in H.
      destruct (find_heading paragraphs st (lower h)); [discriminate | reflexivity].
    + simpl in H |- *.
      destruct (find_heading paragraphs st (lower h0)) as [f0 | ];
        simpl in H; eapply IH; eauto.
Qed.

Lemma align_loop_present :
  forall hs st d h,
    In h hs -> exists body, dict_lookup (align_loop paragraphs hs st d) h = Some body.
Proof.
  assert (Hkeep : forall hs st d h body,
             dict_lookup d h = Some body ->
             exists body', dict_lookup (align_loop paragraphs hs st d) h = Some body').
  { induction hs as [ | h0 hs IH]; intros st d h body Hd; simpl; [eauto | ].
    assert (Hset : forall v, exists b, dict_lookup (dict_set d h0 v) h = Some b).
    { intros v. destruct (list_eq_dec ascii_dec h0 h) as [-> | Hne].
      - rewrite dict_lookup_set_same. eauto.
      - rewrite dict_lookup_set_other by assumption. eauto. }
    destruct (find_heading paragraphs st (lower h0)) as [f0 | ].
    - destruct (Hset (section_text paragraphs f0 (find_end paragraphs f0 hs)))
        as [b Hb]. eapply IH; eauto.
    - destruct (Hset []) as [b Hb]. eapply IH; eauto. }
  induction hs as [ | h0 hs IH]; intros st d h Hin; simpl; [contradiction | ].
  destruct Hin as [-> | Hin].
  - destruct (find_heading paragraphs st (lower h)) as [f0 | ];
      eapply Hkeep; apply dict_lookup_set_same.
  - destruct (find_heading paragraphs st (lower h0)) as [f0 | ];
      now apply IH.
Qed.

End AlignLoop.

(** The aligner's result is its trace replayed: the bodies stored are
    those of the positions [align_trace] records. *)
Lemma extract_contract_sections_replay (contract_text : str) (hs : list str) :
  let paragraphs := paragraphs_of (normalize contract_text) in
  extract_contract_sections contract_text hs
  = Ok (replay paragraphs (combine hs (align_trace paragraphs hs 0)) []).
Proof.
  simpl. rewrite extract_contract_sections_eq. now rewrite align_loop_replay.
Qed.

(* ================================================================= *)
(** * The contract section aligner *)

(** C3, as stated, fails: with the title [Term] twice in the reference
    list the aligner returns a single entry, so the output does not have
    one section per reference heading. *)
Lemma aligner_repeated_title_counterexample :
  exists aligned,
    extract_contract_sections contract_two_terms [L "Term"; L "Term"]
    = Ok aligned
    /\ aligned = [(L "Term", L "y")]
    /\ length aligned <> length [L "Term"; L "Term"].
Proof.
  exists [(L "Term", L "y")]. split; [vm_compute; reflexivity | ].
  split; [reflexivity | simpl; lia].
Qed.

(** C3, amended: for every reference heading list, every heading has an
    entry in the aligner's result, and a heading that no contract
    paragraph equals has the empty body (it is present, not omitted).
    The result is keyed by title: its keys are the distinct titles in
    order of first occurrence.  So there is exactly one entry per
    reference heading, in reference order, exactly when no title
    repeats. *)
Theorem aligner_one_section_per_heading
        (contract_text : str) (ref_headings : list str) :
  exists aligned,
    extract_contract_sections contract_text ref_headings = Ok aligned
    /\ keys aligned = distinct_titles ref_headings
    /\ (forall h, In h ref_headings ->
                  exists body, dict_lookup aligned h = Some body)
    /\ (forall h, In h ref_headings ->
                  ~ has_paragraph (paragraphs_of (normalize contract_text)) 0 h ->
                  dict_lookup aligned h = Some [])
    /\ (NoDup ref_headings -> keys aligned = ref_headings)
    /\ (length aligned = length ref_headings <-> NoDup ref_headings).
Proof.
  eexists. split; [apply extract_contract_sections_eq | ].
  assert (Hkeys : keys (align_loop (paragraphs_of (normalize contract_text))
                                   ref_headings 0 [])
                  = distinct_titles ref_headings)
    by now rewrite align_loop_keys.
  split; [exact Hkeys | ]. split; [ | split; [ | split]].
  - intros h Hin. now apply align_loop_present.
  - intros h Hin Hno. apply align_loop_unmatched; [ | now left].
    apply find_heading_none. intros q p _ Hq Hc. apply Hno.
    exists q, p. repeat split; [lia | assumption | assumption].
  - intros Hnd. rewrite Hkeys. now apply distinct_titles_nodup.
  - rewrite <- distinct_titles_length, <- Hkeys. unfold keys.
    now rewrite length_map.
Qed.

(** An instance: two distinct titles, of which only [Term] is in the
    contract. *)
Lemma aligner_one_section_per_heading_witness :
  NoDup [L "Term"; L "Fees"]
  /\ exists aligned,
      extract_contract_sections contract_two_terms [L "Term"; L "Fees"]
      = Ok aligned
      /\ keys aligned = distinct_titles [L "Term"; L "Fees"]
      /\ (forall h, In h [L "Term"; L "Fees"] ->
                    exists body, dict_lookup aligned h = Some body)
      /\ (forall h, In h [L "Term"; L "Fees"] ->
                    ~ has_paragraph
                        (paragraphs_of (normalize contract_two_terms)) 0 h ->
                    dict_lookup aligned h = Some [])
      /\ (NoDup [L "Term"; L "Fees"] -> keys aligned = [L "Term"; L "Fees"])
      /\ (length aligned = length [L "Term"; L "Fees"]
          <-> NoDup [L "Term"; L "Fees"]).
Proof.
  assert (Hnd : NoDup [L "Term"; L "Fees"]).
  { constructor.
    - simpl. intros [H | []]. discriminate H.
    - constructor; [simpl; tauto | constructor]. }
  split; [exact Hnd | ].
  exact (@aligner_one_section_per_heading contract_two_terms
                                          [L "Term"; L "Fees"]).
Defined.

(** C4: alignment is monotone.  If the headings at indices [i < j] of the
    reference list are matched at paragraph positions [p_i] and [p_j],
    then [p_i < p_j]; the positions are those of the aligner's own loop,
    whose result is the replay of the trace. *)
Theorem alignment_monotone
        (contract_text : str) (ref_headings : list str)
        (i j p_i e_i p_j e_j : nat) :
  i < j ->
  nth_error (align_trace (paragraphs_of (normalize contract_text))
                         ref_headings 0) i = Some (Some (p_i, e_i)) ->
  nth_error (align_trace (paragraphs_of (normalize contract_text))
                         ref_headings 0) j = Some (Some (p_j, e_j)) ->
  p_i < p_j
  /\ extract_contract_sections contract_text ref_headings
     = Ok (replay (paragraphs_of (normalize contract_text))
                  (combine ref_headings
                     (align_trace (paragraphs_of (normalize contract_text))
                                  ref_headings 0)) []).
Proof.
  intros Hij Hi Hj. split; [ | apply extract_contract_sections_replay].
  pose proof (align_trace_order _ _ _ Hij Hi Hj) as Hle.
  apply align_trace_bounds in Hi. lia.
Qed.

(** An instance: [Term] and [TERM] are matched at paragraphs 0 and 2. *)
Lemma alignment_monotone_witness :
  nth_error (align_trace (paragraphs_of (normalize contract_two_terms))
                         [L "Term"; L "TERM"] 0) 0 = Some (Some (0, 2))
  /\ nth_error (align_trace (paragraphs_of (normalize contract_two_terms))
                            [L "Term"; L "TERM"] 0) 1 = Some (Some (2, 4))
  /\ 0 < 2.
Proof.
  assert (H0 : nth_error (align_trace
                            (paragraphs_of (normalize contract_two_terms))
                            [L "Term"; L "TERM"] 0) 0 = Some (Some (0, 2)))
    by (vm_compute; reflexivity).
  assert (H1 : nth_error (align_trace
                            (paragraphs_of (normalize contract_two_terms))
                            [L "Term"; L "TERM"] 0) 1 = Some (Some (2, 4)))
    by (vm_compute; reflexivity).
  split; [exact H0 | split; [exact H1 | ]].
  exact (proj1 (@alignment_monotone contract_two_terms [L "Term"; L "TERM"]
                                    0 1 0 2 2 4 (Nat.lt_0_succ 0) H0 H1)).
Defined.

(** C10: the bodies are pairwise disjoint spans of paragraphs.  The body
    of a matched heading is [paragraphs[found_idx+1 : end_idx]], joined
    and trimmed; no position of one body lies in the body of another
    heading, and no position of a body is the position of a matched
    heading.  The spans are those of the aligner's own loop, whose result
    is the replay of the trace. *)
Theorem aligned_bodies_disjoint
        (contract_text : str) (ref_headings : list str)
        (i j f_i e_i f_j e_j k : nat) :
  nth_error (align_trace (paragraphs_of (normalize contract_text))
                         ref_headings 0) i = Some (Some (f_i, e_i)) ->
  nth_error (align_trace (paragraphs_of (normalize contract_text))
                         ref_headings 0) j = Some (Some (f_j, e_j)) ->
  S f_i <= k < e_i ->
  k <> f_j /\ (i <> j -> ~ (S f_j <= k < e_j))
  /\ body_of (paragraphs_of (normalize contract_text)) (Some (f_i, e_i))
     = strip (join [NL; NL]
                   (span (paragraphs_of (normalize contract_text))
                         (S f_i) e_i))
  /\ extract_contract_sections contract_text ref_headings
     = Ok (replay (paragraphs_of (normalize contract_text))
                  (combine ref_headings
                     (align_trace (paragraphs_of (normalize contract_text))
                                  ref_headings 0)) []).
Proof.
  intros Hi Hj Hk.
  assert (Hspans : k <> f_j /\ (i <> j -> ~ (S f_j <= k < e_j)));
    [ | destruct Hspans; repeat split;
        [assumption | assumption | apply extract_contract_sections_replay] ].
  pose proof (align_trace_bounds _ _ _ _ Hi) as Bi.
  pose proof (align_trace_bounds _ _ _ _ Hj) as Bj.
  destruct (Nat.lt_trichotomy i j) as [Hlt | [Heq | Hgt]].
  - pose proof (align_trace_order _ _ _ Hlt Hi Hj). lia.
  - subst j. rewrite Hi in Hj. inversion Hj; subst. lia.
  - pose proof (align_trace_order _ _ _ Hgt Hj Hi). lia.
Qed.

(** An instance: paragraph 1 is in the body of the first heading only. *)
Lemma aligned_bodies_disjoint_witness :
  nth_error (align_trace (paragraphs_of (normalize contract_two_terms))
                         [L "Term"; L "TERM"] 0) 0 = Some (Some (0, 2))
  /\ nth_error (align_trace (paragraphs_of (normalize contract_two_terms))
                            [L "Term"; L "TERM"] 0) 1 = Some (Some (2, 4))
  /\ 1 <= 1 < 2
  /\ 1 <> 2 /\ (0 <> 1 -> ~ (3 <= 1 < 4))
  /\ body_of (paragraphs_of (normalize contract_two_terms)) (Some (0, 2))
     = L "x".
Proof.
  assert (H0 : nth_error (align_trace
                            (paragraphs_of (normalize contract_two_terms))
                            [L "Term"; L "TERM"] 0) 0 = Some (Some (0, 2)))
    by (vm_compute; reflexivity).
  assert (H1 : nth_error (align_trace
                            (paragraphs_of (normalize contract_two_terms))
                            [L "Term"; L "TERM"] 0) 1 = Some (Some (2, 4)))
    by (vm_compute; reflexivity).
  assert (Hk : 1 <= 1 < 2) by lia.
  split; [exact H0 | split; [exact H1 | split; [exact Hk | ]]].
  destruct (@aligned_bodies_disjoint contract_two_terms [L "Term"; L "TERM"]
                                     0 1 0 2 2 4 1 H0 H1 Hk)
    as (Hne & Hout & _ & _).
  split; [exact Hne | split; [exact Hout | ]].
  vm_compute. reflexivity.
Defined.

(* ================================================================= *)
(** * The text normalizer *)

(** Without the [isinstance] guard the first substitution would raise on
    anything but a string. *)
Lemma re_sub_non_string (r : re) (repl : str -> rmatch -> str) (v : pyobj) :
  isinstance_str v = false -> re_sub r repl v = Raise TypeError.
Proof. destruct v; simpl; intros H; try reflexivity; discriminate. Qed.

(** C8: the normalizer never raises, and on an input that is not a string
    it returns the empty string. *)
Theorem normalizer_never_raises (text : pyobj) :
  exists cleaned,
    clean_text_preserve_headings text = Ok cleaned
    /\ (isinstance_str text = false -> cleaned = []).
Proof.
  destruct text as [ | b | z | s | b ];
    try (exists []; split; [reflexivity | reflexivity]).
  exists (normalize s). split; [apply clean_text_str | ].
  simpl. discriminate.
Qed.

(** An instance: an integer is cleaned to the empty string. *)
Lemma normalizer_never_raises_witness :
  isinstance_str (PyInt 7) = false
  /\ clean_text_preserve_headings (PyInt 7) = Ok [].
Proof.
  split; [reflexivity | ].
  destruct (normalizer_never_raises (PyInt 7)) as (cleaned & Hc & He).
  rewrite (He eq_refl) in Hc. exact Hc.
Defined.

(* ================================================================= *)
(** * The section comparator and the validation aggregator *)

Lemma matches_lit_exact (s : str) (c : ascii) (i j : nat) :
  matches s (lit false c) i j -> j = S i /\ nth_error s i = Some c.
Proof.
  intros (Hj & c' & Hc & Hp). apply Ascii.eqb_eq in Hp. now subst c'.
Qed.

Lemma json_re_span (content : str) (mt : rmatch) :
  Re.search json_re content = Some mt ->
  m_start mt < m_end mt /\ m_end mt <= length content
  /\ nth_error content (m_start mt) = Some "{"%char
  /\ nth_error content (m_end mt - 1) = Some "}"%char.
Proof.
  unfold Re.search. intros H. apply ReFacts.search_from_sound in H.
  destruct H as (Hb & Hm & _).
  pose proof (ReFacts.matches_bounds _ _ _ _ Hm) as [_ Hlen].
  simpl in Hb. specialize (Hlen (proj2 Hb)).
  unfold json_re in Hm. destruct Hm as (m1 & H1 & m2 & H2 & H3).
  apply matches_lit_exact in H1, H3.
  destruct H1 as [-> Hc1], H3 as [Hj Hc2].
  apply ReFacts.matches_bounds in H2. destruct H2 as [Hle _].
  rewrite Hj. replace (S m2 - 1) with m2 by lia.
  repeat split; try lia; assumption.
Qed.

Section ValidatorFacts.
Variable FIELDGLASS_REF_MD : str.
Variable json_loads : str -> result json.
Variable client : trace -> request -> reply.

Let compare := compare_section_with_gpt json_loads client.
Let loop := validate_loop json_loads client.


Lemma compare_parsed ref_heading ref_text con_text tr content mt v :
  client tr (request_for ref_heading ref_text con_text)
  = Completion (Some content) ->
  Re.search json_re content = Some mt ->
  json_loads (group0 content mt) = Ok v ->
  compare ref_heading ref_text con_text tr
  = Ok (v, tr ++ [OracleCall (request_for ref_heading ref_text con_text)]).
Proof.
  intros Hc Hs Hj. unfold compare, compare_section_with_gpt.
  fold (request_for ref_heading ref_text con_text).
  now rewrite Hc, Hs, Hj.
Qed.

Lemma compare_trace ref_heading ref_text con_text tr v tr' :
  compare ref_heading ref_text con_text tr = Ok (v, tr') ->
  tr' = tr ++ [OracleCall (request_for ref_heading ref_text con_text)].
Proof.
  unfold compare, compare_section_with_gpt.
  fold (request_for ref_heading ref_text con_text).
  destruct (client tr (request_for ref_heading ref_text con_text))
    as [[content | ] | ]; intros H; try discriminate H.
  match type of H with
  | rbind ?c _ = _ => destruct c as [r | e]; simpl in H; [ | discriminate H]
  end.
  inversion H; reflexivity.
Qed.

(** One round of the aggregator's loop. *)
Lemma loop_skip cs heading ref_text rest acc :
  blank cs heading = true ->
  loop cs ((heading, ref_text) :: rest) acc = loop cs rest acc.
Proof. unfold blank, loop. simpl. now intros ->. Qed.

Lemma loop_step cs heading ref_text rest acc tr :
  blank cs heading = false ->
  loop cs ((heading, ref_text) :: rest) acc tr
  = match compare heading ref_text (dict_get cs heading []) tr with
    | Ok (parsed, tr1) =>
        match json_get parsed (L "status") with
        | Ok status =>
            if eq_str status (L "Modified")
            then loop cs rest (acc ++ [parsed]) tr1
            else loop cs rest acc tr1
        | Raise e => Raise e
        end
    | Raise e => Raise e
    end.
Proof.
  unfold blank, loop, compare. simpl. intros ->. unfold mbind, lift.
  destruct (compare_section_with_gpt json_loads client heading ref_text
              (dict_get cs heading []) tr) as [[parsed tr1] | e];
    [ | reflexivity].
  destruct (json_get parsed (L "status")) as [status | e]; [ | reflexivity].
  destruct (eq_str status (L "Modified")); reflexivity.
Qed.

(** The loop only appends oracle calls to the trace, each for a heading
    of the list whose aligned text is not blank. *)
Lemma loop_calls cs :
  forall secs acc tr res tr',
    loop cs secs acc tr = Ok (res, tr') ->
    exists calls,
      tr' = tr ++ map OracleCall calls
      /\ forall req, In req calls ->
                     In (req_heading req) (map fst secs)
                     /\ blank cs (req_heading req) = false.
Proof.
  induction secs as [ | [h rt] secs IH]; intros acc tr res tr' H.
  - inversion H; subst. exists []. split; [now rewrite app_nil_r | ].
    intros req [].
  - destruct (blank cs h) eqn:Hb.
    + rewrite loop_skip in H by assumption. apply IH in H.
      destruct H as (calls & Htr & Hcalls). exists calls. split; [assumption | ].
      intros req Hin. destruct (Hcalls req Hin). split; [now right | assumption].
    + rewrite loop_step in H by assumption.
      destruct (compare h rt (dict_get cs h []) tr) as [[parsed tr1] | e] eqn:Hc;
        [ | discriminate].
      apply compare_trace in Hc.
      assert (Hrest : exists acc', loop cs secs acc' tr1 = Ok (res, tr')).
      { destruct (json_get parsed (L "status")) as [status | e];
          [ | discriminate].
        destruct (eq_str status (L "Modified")); eauto. }
      destruct Hrest as (acc' & Hrest). apply IH in Hrest.
      destruct Hrest as (calls & Htr & Hcalls).
      exists (request_for h rt (dict_get cs h []) :: calls). split.
      * rewrite Htr, Hc. simpl. now rewrite <- app_assoc.
      * intros req [<- | Hin]; simpl.
        -- split; [now left | assumption].
        -- destruct (Hcalls req Hin). split; [now right | assumption].
Qed.

(** Every entry of the result carries the status string [Modified]: the
    loop appends nothing else. *)
Lemma loop_entries_modified cs :
  forall secs acc tr res tr',
    loop cs secs acc tr = Ok (res, tr') ->
    (forall v, In v acc ->
               json_get v (L "status") = Ok (Some (JStr (L "Modified")))) ->
    forall v, In v res ->
              json_get v (L "status") = Ok (Some (JStr (L "Modified"))).
Proof.
  induction secs as [ | [h rt] secs IH]; intros acc tr res tr' H Hacc.
  - inversion H; subst. exact Hacc.
  - destruct (blank cs h) eqn:Hb.
    + rewrite loop_skip in H by assumption. eapply IH; eauto.
    + rewrite loop_step in H by assumption.
      destruct (compare h rt (dict_get cs h []) tr) as [[parsed tr1] | e];
        [ | discriminate].
      destruct (json_get parsed (L "status")) as [status | e] eqn:Hg;
        [ | discriminate].
      destruct (eq_str status (L "Modified")) eqn:He.
      * eapply IH; [exact H | ]. intros v Hin.
        apply in_app_or in Hin. destruct Hin as [Hin | [<- | []]];
          [now apply Hacc | ].
        rewrite Hg. unfold eq_str in He.
        destruct status as [[ | | | s | | ] | ]; try discriminate.
        apply str_eqb_eq in He. now subst s.
      * eapply IH; eauto.
Qed.

End ValidatorFacts.

(* ================================================================= *)
(** * The governing-clause gate *)

Lemma lang_lit_ci (c : ascii) (w : str) :
  lang (lit true c) w <-> map lower_char w = [lower_char c].
Proof.
  unfold lit. simpl. unfold ci_eqb. split.
  - intros (x & -> & Hx). apply Ascii.eqb_eq in Hx. simpl. now rewrite Hx.
  - intros H. destruct w as [ | x [ | y w]]; simpl in H; try discriminate.
    inversion H as [Hx]. exists x. split; [reflexivity | ].
    apply Ascii.eqb_eq. now rewrite Hx.
Qed.

(** A word of the pattern under [re.I] is a word whose letters, lowered,
    are those of the pattern lowered. *)
Lemma lang_lits_ci (word w : str) :
  lang (lits true word) w <-> map lower_char w = map lower_char word.
Proof.
  revert w. induction word as [ | c word IH]; intros w.
  - simpl. split; [now intros -> | ]. intros H.
    now destruct w.
  - destruct word as [ | c' word].
    + apply lang_lit_ci.
    + change (lits true (c :: c' :: word))
        with (Seq (lit true c) (lits true (c' :: word))).
      change (lang (Seq (lit true c) (lits true (c' :: word))) w)
        with (exists w1 w2, w = w1 ++ w2 /\ lang (lit true c) w1
                            /\ lang (lits true (c' :: word)) w2).
      split.
      * intros (w1 & w2 & -> & H1 & H2).
        apply lang_lit_ci in H1. apply IH in H2.
        rewrite map_app, H1, H2. reflexivity.
      * intros H. destruct w as [ | x w]; [discriminate | ].
        simpl in H. inversion H as [[Hx Hw]].
        exists [x], w. split; [reflexivity | ]. split.
        -- apply lang_lit_ci. simpl. now rewrite Hx.
        -- apply IH. exact Hw.
Qed.

Lemma lang_star (p : ascii -> bool) (w : str) :
  lang (star p) w <-> all_chars p w.
Proof.
  unfold star, all_chars. simpl. split; [tauto | ].
  intros H. repeat split; [lia | assumption].
Qed.

Lemma lower_is_one (x : ascii) : lower_char x = "1"%char -> x = "1"%char.
Proof.
  destruct x as [[] [] [] [] [] [] [] []]; vm_compute; intros H;
    solve [reflexivity | discriminate H].
Qed.

(** The words of the gate pattern are the loose markers. *)
Lemma gate_re_words (w : str) : lang gate_re w <-> loose_marker w.
Proof.
  unfold gate_re, loose_marker, ws. split.
  - intros (a & r1 & -> & Ha & w1 & r2 & -> & Hw1 & o & r3 & -> & Ho
            & w2 & r4 & -> & Hw2 & sv & r5 & -> & Hsv & w3 & d & -> & Hw3 & Hd).
    apply lang_lits_ci in Ha, Hsv, Hd. apply lang_star in Hw1, Hw2, Hw3.
    apply lang_lit_ci in Ho.
    assert (o = L "1").
    { destruct o as [ | x [ | y o]]; simpl in Ho; try discriminate.
      inversion Ho as [Hx]. change (lower_char "1") with "1"%char in Hx.
      apply lower_is_one in Hx. now subst x. }
    subst o. exists a, w1, w2, sv, w3, d. repeat split; assumption.
  - intros (a & w1 & w2 & sv & w3 & d & -> & Ha & Hw1 & Hw2 & Hsv & Hw3 & Hd).
    exists a, (w1 ++ L "1" ++ w2 ++ sv ++ w3 ++ d).
    split; [reflexivity | ]. split; [now apply lang_lits_ci | ].
    exists w1, (L "1" ++ w2 ++ sv ++ w3 ++ d).
    split; [reflexivity | ]. split; [now apply lang_star | ].
    exists (L "1"), (w2 ++ sv ++ w3 ++ d).
    split; [reflexivity | ]. split; [now apply lang_lit_ci | ].
    exists w2, (sv ++ w3 ++ d).
    split; [reflexivity | ]. split; [now apply lang_star | ].
    exists sv, (w3 ++ d).
    split; [reflexivity | ]. split; [now apply lang_lits_ci | ].
    exists w3, d.
    split; [reflexivity | ]. split; [now apply lang_star | ].
    now apply lang_lits_ci.
Qed.

Lemma gate_re_anchor_free : anchor_free gate_re.
Proof. vm_compute. tauto. Qed.

(** The gate's search succeeds exactly on the texts that contain a loose
    marker. *)
Theorem gate_search_spec (text : str) :
  Re.search gate_re text <> None <-> contains_marker text.
Proof.
  rewrite (@ReFacts.search_lang gate_re text gate_re_anchor_free).
  unfold contains_marker. split.
  - intros (b & w & a & Ht & Hw). exists b, w, a.
    split; [assumption | now apply gate_re_words].
  - intros (b & w & a & Ht & Hw). exists b, w, a.
    split; [assumption | now apply gate_re_words].
Qed.

Section Claims.
Variable FIELDGLASS_REF_MD : str.
Variable json_loads : str -> result json.
Variable client : trace -> request -> reply.

Let validate := validate_service_description FIELDGLASS_REF_MD json_loads client.
Let compare := compare_section_with_gpt json_loads client.
Let loop := validate_loop json_loads client.

(** When the gate's search finds nothing, the report is [Missing] and the
    trace is left as it was. *)
Lemma gate_closed_short_circuits (contract_md_text : str) (tr : trace) :
  Re.search gate_re contract_md_text = None ->
  validate contract_md_text tr = Ok (MkReport (L "Missing") [], tr).
Proof.
  intros H. unfold validate, validate_service_description. now rewrite H.
Qed.

(** C1: when the raw text contains no loose marker, the run returns
    exactly the report [Missing] with no verdicts, and the trace is left
    as it was: neither the aligner nor the oracle is called. *)
Theorem missing_marker_short_circuits (contract_md_text : str) (tr : trace) :
  ~ contains_marker contract_md_text ->
  validate contract_md_text tr = Ok (MkReport (L "Missing") [], tr)
  /\ (forall rep tr',
         validate contract_md_text [] = Ok (rep, tr') ->
         rep = MkReport (L "Missing") [] /\ tr' = []).
Proof.
  intros Hno.
  assert (Hs : Re.search gate_re contract_md_text = None).
  { destruct (Re.search gate_re contract_md_text) as [mt | ] eqn:E;
      [ | reflexivity].
    exfalso. apply Hno. apply gate_search_spec. rewrite E. discriminate. }
  split; [now apply gate_closed_short_circuits | ].
  intros rep tr' H. rewrite gate_closed_short_circuits in H by assumption.
  inversion H. now split.
Qed.

(** What a run that passes the gate returns. *)
Lemma validate_open_gate (contract_md_text : str) (tr : trace) rep tr' :
  Re.search gate_re contract_md_text <> None ->
  validate contract_md_text tr = Ok (rep, tr') ->
  exists ref_sections aligned,
    extract_reference_sections FIELDGLASS_REF_MD = Ok ref_sections
    /\ extract_contract_sections contract_md_text (map fst ref_sections)
       = Ok aligned
    /\ loop aligned ref_sections []
            (tr ++ [AlignerCall contract_md_text (map fst ref_sections)])
       = Ok (modified_sections rep, tr')
    /\ validation_status rep
       = if is_nil (modified_sections rep) then L "Correct" else L "Mismatch".
Proof.
  intros Hgate H. unfold validate, validate_service_description in H.
  destruct (Re.search gate_re contract_md_text) as [mt | ]; [ | congruence].
  unfold mbind, lift, call_aligner, ret in H.
  destruct (extract_reference_sections FIELDGLASS_REF_MD)
    as [ref_sections | e] eqn:Hr; [ | discriminate].
  destruct (extract_contract_sections contract_md_text (map fst ref_sections))
    as [aligned | e] eqn:Ha; simpl in H; [ | discriminate].
  destruct (validate_loop json_loads client aligned ref_sections []
              (tr ++ [AlignerCall contract_md_text (map fst ref_sections)]))
    as [[res tr1] | e] eqn:Hl; [ | discriminate].
  inversion H; subst. simpl. exists ref_sections, aligned.
  repeat split; assumption || reflexivity.
Qed.

(** A run returns a report whenever the oracle answers every request
    with a text on whose brace slices [json.loads] raises nothing but
    [JSONDecodeError], and [json.loads] yields an object for a text that
    starts with a brace, if it yields a value. *)
Lemma loop_returns (cs : dict str) :
  (forall tr req, exists content,
      client tr req = Completion (Some content)
      /\ only_decode_errors json_loads content) ->
  (forall s v, json_loads ("{"%char :: s) = Ok v ->
               exists fields, v = JObj fields) ->
  forall secs acc tr, exists res tr', loop cs secs acc tr = Ok (res, tr').
Proof.
  intros Hclient Hjson. unfold loop.
  induction secs as [ | [h rt] secs IH]; intros acc tr.
  - exists acc, tr. reflexivity.
  - destruct (blank cs h) eqn:Hb.
    + rewrite loop_skip by assumption. apply IH.
    + rewrite loop_step by assumption.
      unfold compare_section_with_gpt.
      destruct (Hclient tr (MkRequest h (firstn 3000 (strip rt))
                              (firstn 3000 (strip (dict_get cs h [])))))
        as (content & -> & Hdec).
      assert (Hobj : exists fields,
                 match Re.search json_re content with
                 | Some json_text =>
                     match json_loads (group0 content json_text) with
                     | Ok v => Ok v
                     | Raise e =>
                         if is_JSONDecodeError e
                         then Ok (fallback h content)
                         else Raise e
                     end
                 | None => Ok (fallback h content)
                 end = Ok (JObj fields)).
      { destruct (Re.search json_re content) as [mt | ] eqn:Hs;
          [ | unfold fallback; eauto].
        apply json_re_span in Hs.
        destruct Hs as (Hlt & Hlen & Hopen & Hclose).
        destruct (json_loads (group0 content mt)) as [v | e] eqn:Hj.
        - destruct (slice_head _ Hlt Hopen) as (rest & Hsl).
          unfold group0 in Hj. rewrite Hsl in Hj.
          destruct (Hjson _ _ Hj) as (fields & ->). eauto.
        - rewrite (Hdec _ _ e Hlt Hlen Hopen Hclose Hj). simpl.
          unfold fallback. eauto. }
      destruct Hobj as (fields & ->). cbn [rbind json_get].
      destruct (eq_str (dict_lookup fields (L "status")) (L "Modified"));
        apply IH.
Qed.

Lemma validate_returns :
  (forall tr req, exists content,
      client tr req = Completion (Some content)
      /\ only_decode_errors json_loads content) ->
  (forall s v, json_loads ("{"%char :: s) = Ok v ->
               exists fields, v = JObj fields) ->
  forall contract_md_text tr,
    exists rep tr', validate contract_md_text tr = Ok (rep, tr').
Proof.
  intros Hclient Hjson text tr.
  unfold validate, validate_service_description.
  destruct (Re.search gate_re text) as [mt | ]; [ | unfold ret; eauto].
  unfold mbind, lift, call_aligner, ret, extract_reference_sections,
    _extract_sections_from_text.
  rewrite clean_text_str. cbn [rbind]. rewrite extract_contract_sections_eq.
  cbn [rbind].
  match goal with
  | |- context [validate_loop json_loads client ?cs ?secs ?acc ?tr0] =>
      destruct (loop_returns cs Hclient Hjson secs acc tr0) as (res & tr1 & Hl)
  end.
  unfold loop in Hl. rewrite Hl. eauto.
Qed.

(** C2: in a run that passes the gate, the status is [Mismatch] exactly
    when [modified_sections] is not empty, and [Correct] otherwise. *)
Theorem status_matches_modified_sections
        (contract_md_text : str) (tr : trace) (rep : report) (tr' : trace) :
  contains_marker contract_md_text ->
  validate contract_md_text tr = Ok (rep, tr') ->
  (validation_status rep = L "Mismatch" <-> modified_sections rep <> [])
  /\ (validation_status rep = L "Correct" <-> modified_sections rep = []).
Proof.
  intros Hgate H. apply gate_search_spec in Hgate.
  destruct (validate_open_gate _ _ Hgate H) as (rs & al & _ & _ & _ & Hst).
  assert (Hne : L "Correct" <> L "Mismatch") by (vm_compute; discriminate).
  rewrite Hst. destruct (modified_sections rep) as [ | v vs]; simpl;
    split; split; intros H'; try reflexivity; congruence.
Qed.

(** C5: a heading whose aligned contract text is blank contributes no
    verdict.  Dropping it from the reference list leaves the loop's result
    and trace as they are, and the oracle is never asked about it; and a
    heading for which the aligner's scan finds no paragraph has an entry
    in the aligner's result, stored with the empty body, which is
    blank. *)
Theorem blank_section_contributes_no_verdict :
  (forall cs before heading ref_text rest acc tr,
      blank cs heading = true ->
      loop cs (before ++ (heading, ref_text) :: rest) acc tr
      = loop cs (before ++ rest) acc tr
      /\ (forall res tr',
             loop cs (before ++ (heading, ref_text) :: rest) acc tr
             = Ok (res, tr') ->
             exists calls,
               tr' = tr ++ map OracleCall calls
               /\ ~ In heading (map req_heading calls)))
  /\ (forall contract_text ref_headings i heading,
         nth_error ref_headings i = Some heading ->
         nth_error (align_trace (paragraphs_of (normalize contract_text))
                                ref_headings 0) i = Some None ->
         exists aligned,
           extract_contract_sections contract_text ref_headings = Ok aligned
           /\ dict_lookup aligned heading = Some []
           /\ dict_get aligned heading [] = []
           /\ blank aligned heading = true).
Proof.
  unfold loop. split.
  - intros cs before heading ref_text rest acc tr Hb.
    assert (Heq : forall acc tr,
               validate_loop json_loads client cs
                             (before ++ (heading, ref_text) :: rest) acc tr
               = validate_loop json_loads client cs (before ++ rest) acc tr).
    { clear acc tr. induction before as [ | [h rt] before IH]; intros acc tr.
      - cbn [app]. now rewrite loop_skip.
      - cbn [app]. destruct (blank cs h) eqn:Hh.
        + rewrite !loop_skip by assumption. apply IH.
        + rewrite !loop_step by assumption.
          destruct (compare_section_with_gpt json_loads client h rt
                      (dict_get cs h []) tr) as [[parsed tr1] | e];
            [ | reflexivity].
          destruct (json_get parsed (L "status")) as [status | e];
            [ | reflexivity].
          destruct (eq_str status (L "Modified")); apply IH. }
    split; [apply Heq | ].
    intros res tr' Hrun. apply loop_calls in Hrun.
    destruct Hrun as (calls & Htr & Hcalls). exists calls.
    split; [assumption | ]. intros Hin. apply in_map_iff in Hin.
    destruct Hin as (req & Hreq & Hin). destruct (Hcalls req Hin) as [_ Hnb].
    rewrite Hreq in Hnb. congruence.
  - intros contract_text ref_headings i heading Hh Hnone.
    eexists. split; [apply extract_contract_sections_eq | ].
    assert (Hl : dict_lookup
                   (align_loop (paragraphs_of (normalize contract_text))
                               ref_headings 0 []) heading = Some [])
      by (eapply align_loop_unmatched_at; eassumption).
    split; [exact Hl | ].
    unfold blank, dict_get. rewrite Hl. split; reflexivity.
Qed.


(** C9: when the comparator parses an object whose [status] is anything
    but the string [Modified] (another spelling, another value, or no
    such key), the round appends nothing to [modified_sections]: the loop
    goes on with the same list, exactly as it does after a [Match]. *)
Theorem other_status_counts_as_match
        (cs : dict str) (heading ref_text : str) (rest : list (str * str))
        (acc : list json) (tr : trace) (content : str) (mt : rmatch)
        (fields : list (str * json)) :
  blank cs heading = false ->
  client tr (request_for heading ref_text (dict_get cs heading []))
  = Completion (Some content) ->
  Re.search json_re content = Some mt ->
  json_loads (group0 content mt) = Ok (JObj fields) ->
  dict_lookup fields (L "status") <> Some (JStr (L "Modified")) ->
  loop cs ((heading, ref_text) :: rest) acc tr
  = loop cs rest acc
         (tr ++ [OracleCall
                   (request_for heading ref_text (dict_get cs heading []))]).
Proof.
  intros Hb Hc Hs Hj Hst. unfold loop.
  rewrite loop_step by assumption.
  rewrite (compare_parsed json_loads client _ _ _ _ Hc Hs Hj). simpl.
  destruct (dict_lookup fields (L "status")) as [[ | b | n | s | a | o] | ];
    simpl; try reflexivity.
  destruct (str_eqb s (L "Modified")) eqn:E; [ | reflexivity].
  apply str_eqb_eq in E. subst s. congruence.
Qed.

End Claims.

(** The entries of [modified_sections] all carry the status [Modified]. *)
Lemma modified_sections_all_modified
      (ref_md : str) (json_loads : str -> result json)
      (client : trace -> request -> reply)
      (contract_md_text : str) (tr : trace) (rep : report) (tr' : trace) :
  validate_service_description ref_md json_loads client contract_md_text tr
  = Ok (rep, tr') ->
  forall v, In v (modified_sections rep) ->
            json_get v (L "status") = Ok (Some (JStr (L "Modified"))).
Proof.
  intros H. destruct (Re.search gate_re contract_md_text) as [mt | ] eqn:Hs.
  - assert (Hgate : Re.search gate_re contract_md_text <> None)
      by (rewrite Hs; discriminate).
    destruct (validate_open_gate _ _ _ _ _ Hgate H)
      as (rs & al & _ & _ & Hl & _).
    eapply loop_entries_modified; [exact Hl | ]. intros v [].
  - rewrite gate_closed_short_circuits in H by assumption.
    inversion H; subst. intros v [].
Qed.

(* ================================================================= *)
(** * Instances on concrete inputs *)

(** An instance: a contract whose attachment has the number 2. *)
Lemma missing_marker_short_circuits_witness :
  ~ contains_marker (L "Attachment 2: Service Description")
  /\ validate_service_description sample_reference never_parses
       (always_answers sample_answer)
       (L "Attachment 2: Service Description") []
     = Ok (MkReport (L "Missing") [], []).
Proof.
  assert (Hno : ~ contains_marker (L "Attachment 2: Service Description")).
  { intros H. apply gate_search_spec in H. apply H.
    vm_compute. reflexivity. }
  split; [exact Hno | ].
  exact (proj1 (@missing_marker_short_circuits sample_reference never_parses
                  (always_answers sample_answer)
                  (L "Attachment 2: Service Description") [] Hno)).
Defined.

(** An instance: one section is compared and the unparseable answer makes
    it [Modified]. *)
Lemma status_matches_modified_sections_witness :
  let rep := MkReport (L "Mismatch") [fallback (L "Term") sample_answer] in
  let tr' := [ AlignerCall sample_contract [L "Term"; L "Fees"];
               OracleCall (MkRequest (L "Term") (L "12 months")
                                     (L "Twelve (12) months")) ] in
  contains_marker sample_contract
  /\ validate_service_description sample_reference never_parses
       (always_answers sample_answer) sample_contract [] = Ok (rep, tr')
  /\ (validation_status rep = L "Mismatch" <-> modified_sections rep <> [])
  /\ (validation_status rep = L "Correct" <-> modified_sections rep = []).
Proof.
  intros rep tr'.
  assert (Hgate : contains_marker sample_contract)
    by (apply gate_search_spec; vm_compute; discriminate).
  assert (Hrun : validate_service_description sample_reference never_parses
                   (always_answers sample_answer) sample_contract []
                 = Ok (rep, tr'))
    by (vm_compute; reflexivity).
  split; [exact Hgate | split; [exact Hrun | ]].
  exact (@status_matches_modified_sections sample_reference never_parses
           (always_answers sample_answer) sample_contract [] rep tr'
           Hgate Hrun).
Defined.

(** An instance: [Fees] is aligned to white space only, and is not found
    in the sample contract. *)
Lemma blank_section_contributes_no_verdict_witness :
  blank [(L "Fees", L "  ")] (L "Fees") = true
  /\ validate_loop never_parses (always_answers sample_answer)
       [(L "Fees", L "  ")] ([] ++ [(L "Fees", L "none")]) [] []
     = validate_loop never_parses (always_answers sample_answer)
         [(L "Fees", L "  ")] ([] ++ []) [] []
  /\ nth_error (align_trace (paragraphs_of (normalize sample_contract))
                            [L "Term"; L "Fees"] 0) 1 = Some None
  /\ exists aligned,
      extract_contract_sections sample_contract [L "Term"; L "Fees"]
      = Ok aligned
      /\ dict_lookup aligned (L "Fees") = Some []
      /\ dict_get aligned (L "Fees") [] = []
      /\ blank aligned (L "Fees") = true.
Proof.
  assert (Hb : blank [(L "Fees", L "  ")] (L "Fees") = true)
    by (vm_compute; reflexivity).
  assert (Hn : nth_error (align_trace
                            (paragraphs_of (normalize sample_contract))
                            [L "Term"; L "Fees"] 0) 1 = Some None)
    by (vm_compute; reflexivity).
  pose proof (@blank_section_contributes_no_verdict never_parses
                (always_answers sample_answer)) as [Hloop Halign].
  split; [exact Hb | split; [ | split; [exact Hn | ]]].
  - exact (proj1 (Hloop [(L "Fees", L "  ")] [] (L "Fees") (L "none") []
                        [] [] Hb)).
  - exact (Halign sample_contract [L "Term"; L "Fees"] 1 (L "Fees")
                  eq_refl Hn).
Defined.





(** An instance: the parsed status is [modified] in lower case. *)
Lemma other_status_counts_as_match_witness :
  let loads := parses_to (JObj [(L "status", JStr (L "modified"))]) in
  let client := always_answers (L "{}") in
  let cs := [(L "Term", L "Twelve")] in
  blank cs (L "Term") = false
  /\ Re.search json_re (L "{}") = Some (MkMatch 0 2 [])
  /\ dict_lookup [(L "status", JStr (L "modified"))] (L "status")
     <> Some (JStr (L "Modified"))
  /\ validate_loop loads client cs [(L "Term", L "12 months")] [] []
     = validate_loop loads client cs [] []
         ([] ++ [OracleCall
                   (request_for (L "Term") (L "12 months")
                                (dict_get cs (L "Term") []))]).
Proof.
  intros loads client cs.
  assert (Hb : blank cs (L "Term") = false) by (vm_compute; reflexivity).
  assert (Hs : Re.search json_re (L "{}") = Some (MkMatch 0 2 []))
    by (vm_compute; reflexivity).
  assert (Hst : dict_lookup [(L "status", JStr (L "modified"))] (L "status")
                <> Some (JStr (L "Modified")))
    by (vm_compute; discriminate).
  split; [exact Hb | split; [exact Hs | split; [exact Hst | ]]].
  exact (@other_status_counts_as_match loads client cs (L "Term")
           (L "12 months") [] [] [] (L "{}") (MkMatch 0 2 [])
           [(L "status", JStr (L "modified"))] Hb eq_refl Hs eq_refl Hst).
Defined.

(* ================================================================= *)
(** * The heading segmenter *)

(** Matches in order cut the text from the first match on into heading
    texts and the spans between them. *)
Lemma pieces_ordered (s : str) :
  forall ms prev mt,
    ordered s prev (mt :: ms) -> pieces s (mt :: ms) = skipn (m_start mt) s.
Proof.
  induction ms as [ | mt' ms IH]; intros prev mt Hord.
  - destruct Hord as (_ & H1 & H2 & _). simpl. rewrite app_nil_r.
    unfold group0. rewrite slice_to_end. now apply slice_skipn.
  - destruct Hord as (_ & H1 & H2 & Hrest).
    change (pieces s (mt :: mt' :: ms))
      with (group0 s mt ++ slice s (m_end mt) (m_start mt')
                   ++ pieces s (mt' :: ms)).
    rewrite (IH _ _ Hrest). destruct Hrest as (H3 & _).
    rewrite slice_skipn by assumption. unfold group0.
    now apply slice_skipn.
Qed.

Lemma raw_pieces_suffix (clean_text : str) :
  forall tl pre,
    concat (map (fun i => raw_heading clean_text (pre ++ tl) i
                          ++ raw_body clean_text (pre ++ tl) i)
                (seq (length pre) (length tl)))
    = pieces clean_text tl.
Proof.
  induction tl as [ | mt tl IH]; intros pre; [reflexivity | ].
  cbn [length seq map concat pieces].
  specialize (IH (pre ++ [mt])).
  rewrite <- app_assoc, length_app in IH. cbn [app length] in IH.
  rewrite Nat.add_1_r in IH. rewrite IH.
  unfold raw_heading, raw_body, body_end.
  rewrite nth_middle. rewrite <- app_assoc. do 2 f_equal.
  rewrite length_app. cbn [length].
  destruct tl as [ | mt' tl]; cbn [length next_start].
  - replace (S (length pre) <? length pre + 1) with false
      by (symmetry; apply Nat.ltb_ge; lia). reflexivity.
  - replace (S (length pre) <? length pre + S (S (length tl))) with true
      by (symmetry; apply Nat.ltb_lt; lia).
    replace (pre ++ mt :: mt' :: tl) with ((pre ++ [mt]) ++ mt' :: tl)
      by (now rewrite <- app_assoc).
    replace (S (length pre)) with (length (pre ++ [mt]))
      by (rewrite length_app; simpl; lia).
    now rewrite nth_middle.
Qed.

(** C7, as stated, fails: for the text [# A<newline>x] the only section
    is [(A, x)]; title and body concatenated give [Ax], which is no
    suffix of the text at all. *)
Lemma segmentation_totality_counterexample :
  _extract_sections_from_text one_heading_text = Ok [(L "A", L "x")]
  /\ normalize one_heading_text = one_heading_text
  /\ map (fun h => (m_start h, m_end h))
         (finditer heading_re one_heading_text) = [(0, 3)]
  /\ forall n, flatten [(L "A", L "x")] <> skipn n one_heading_text.
Proof.
  split; [vm_compute; reflexivity | ].
  split; [vm_compute; reflexivity | ].
  split; [vm_compute; reflexivity | ].
  intros n. do 6 (destruct n as [ | n]; [vm_compute; discriminate | ]).
  vm_compute. discriminate.
Qed.

(** C7, amended: the segmenter's sections are the trimmed pieces of a
    partition.  Each section is the trimmed second group of its heading
    match, a slice inside the heading's own text, paired with the trimmed
    span from the end of that match to the next heading (or the end of the
    text); and, when a heading is recognized, the heading matches followed
    by these untrimmed spans, concatenated in order, are exactly the suffix
    of the normalized text that starts at the first recognized heading. *)
Theorem segmentation_partitions_suffix (md_text : str) :
  let clean_text := normalize md_text in
  let headings := finditer heading_re clean_text in
  _extract_sections_from_text md_text
  = Ok (map (fun i => (strip (group clean_text 2 (nth i headings dummy_match)),
                       strip (raw_body clean_text headings i)))
            (seq 0 (length headings)))
  /\ (forall i,
         i < length headings ->
         exists a b,
           m_start (nth i headings dummy_match) <= a /\ a <= b
           /\ b <= m_end (nth i headings dummy_match)
           /\ group clean_text 2 (nth i headings dummy_match)
              = slice clean_text a b)
  /\ forall first rest,
      headings = first :: rest ->
      concat (map (fun i => raw_heading clean_text headings i
                            ++ raw_body clean_text headings i)
                  (seq 0 (length headings)))
      = skipn (m_start first) clean_text.
Proof.
  intros clean_text headings. split; [reflexivity | ]. split.
  { intros i Hi. apply ReFacts.finditer_group_inside with (r := heading_re).
    now apply nth_In. }
  intros first rest Hh.
  pose proof (raw_pieces_suffix clean_text headings []) as Hp.
  cbn [app length] in Hp. rewrite Hp, Hh.
  apply pieces_ordered with (prev := 0). rewrite <- Hh.
  apply ReFacts.finditer_ordered.
Qed.

(** An instance: the sample reference, which starts with a heading. *)
Lemma segmentation_partitions_suffix_witness :
  finditer heading_re (normalize sample_reference)
  = [ MkMatch 0 6 [(2, (2, 6)); (1, (0, 1))];
      MkMatch 17 23 [(2, (19, 23)); (1, (17, 18))] ]
  /\ _extract_sections_from_text sample_reference
     = Ok [(L "Term", L "12 months"); (L "Fees", L "none")]
  /\ L "# Term" ++ ([NL] ++ L "12 months" ++ [NL])
     ++ L "# Fees" ++ ([NL] ++ L "none")
     = skipn 0 (normalize sample_reference).
Proof.
  assert (Hh : finditer heading_re (normalize sample_reference)
               = [ MkMatch 0 6 [(2, (2, 6)); (1, (0, 1))];
                   MkMatch 17 23 [(2, (19, 23)); (1, (17, 18))] ])
    by (vm_compute; reflexivity).
  split; [exact Hh | split; [vm_compute; reflexivity | ]].
  pose proof (proj2 (proj2 (segmentation_partitions_suffix sample_reference))
                    _ _ Hh) as Hp.
  rewrite Hh in Hp. vm_compute in Hp. vm_compute. exact Hp.
Defined.

(* ================================================================= *)
(** * Further properties of strings: trimming and membership *)

Lemma lstrip_head_ok (s : str) : head_ok (lstrip s).
Proof.
  induction s as [ | c s IH]; simpl; [exact I | ].
  destruct (isspace c) eqn:E; [exact IH | exact E].
Qed.

Lemma lstrip_fixed (s : str) : head_ok s -> lstrip s = s.
Proof. destruct s as [ | c s]; simpl; [reflexivity | now intros ->]. Qed.

Lemma lstrip_split (s : str) :
  exists sp, s = sp ++ lstrip s /\ forallb isspace sp = true.
Proof.
  induction s as [ | c s (sp & Hs & Hsp)]; simpl.
  - now exists [].
  - destruct (isspace c) eqn:E.
    + exists (c :: sp). simpl. rewrite E, Hsp. split; [now f_equal | reflexivity].
    + now exists [].
Qed.

Lemma lstrip_app_keep (a b : str) :
  b <> [] -> head_ok b -> exists a', lstrip (a ++ b) = a' ++ b.
Proof.
  intros Hne Hb. induction a as [ | c a (a' & IH)]; simpl.
  - exists []. now apply lstrip_fixed.
  - destruct (isspace c); [now exists a' | now exists (c :: a)].
Qed.

Lemma head_ok_app (a b : str) : a <> [] -> head_ok (a ++ b) -> head_ok a.
Proof. destruct a; simpl; [congruence | auto]. Qed.

Lemma head_ok_app_l (a b : str) : a <> [] -> head_ok a -> head_ok (a ++ b).
Proof. destruct a; simpl; [congruence | auto]. Qed.

(** [strip] leaves a trimmed string. *)
Lemma strip_trimmed (s : str) : trimmed (strip s).
Proof.
  unfold trimmed, strip, rstrip.
  set (x := lstrip s). assert (Hx : head_ok x) by apply lstrip_head_ok.
  destruct (lstrip_split (rev x)) as (sp & Hs & _).
  set (z := lstrip (rev x)) in *.
  assert (Hz : head_ok z) by apply lstrip_head_ok.
  assert (Hy : lstrip (rev z) = rev z).
  { apply lstrip_fixed. destruct (rev z) as [ | c y] eqn:Ey; [exact I | ].
    apply (f_equal (@rev ascii)) in Hs.
    rewrite rev_involutive, rev_app_distr, Ey in Hs. rewrite Hs in Hx.
    exact Hx. }
  rewrite Hy, rev_involutive. now rewrite (@lstrip_fixed z Hz).
Qed.

Lemma lstrip_strip (s : str) : lstrip (strip s) = strip s.
Proof.
  unfold strip, rstrip.
  set (x := lstrip s). assert (Hx : head_ok x) by apply lstrip_head_ok.
  destruct (lstrip_split (rev x)) as (sp & Hs & _).
  set (z := lstrip (rev x)) in *.
  apply lstrip_fixed. destruct (rev z) as [ | c y] eqn:Ey; [exact I | ].
  apply (f_equal (@rev ascii)) in Hs.
  rewrite rev_involutive, rev_app_distr, Ey in Hs. rewrite Hs in Hx.
  exact Hx.
Qed.

Lemma strip_head_ok (s : str) : head_ok (strip s).
Proof. rewrite <- lstrip_strip. apply lstrip_head_ok. Qed.

Lemma strip_nil : strip [] = [].
Proof. reflexivity. Qed.

Lemma in_firstn {A} (x : A) (n : nat) (l : list A) :
  In x (firstn n l) -> In x l.
Proof.
  revert l. induction n as [ | n IH]; intros [ | y l]; simpl; try tauto.
  intros [H | H]; [now left | right; now apply IH].
Qed.

Lemma in_skipn {A} (x : A) (n : nat) (l : list A) :
  In x (skipn n l) -> In x l.
Proof.
  revert l. induction n as [ | n IH]; intros [ | y l]; simpl; try tauto.
  intros H. right. now apply IH.
Qed.

Lemma in_slice (c : ascii) (s : str) (a b : nat) :
  In c (slice s a b) -> In c s.
Proof. unfold slice. intros H. apply in_firstn in H. now apply in_skipn in H. Qed.

Lemma in_lstrip (c : ascii) (s : str) : In c (lstrip s) -> In c s.
Proof.
  induction s as [ | x s IH]; simpl; [tauto | ].
  destruct (isspace x); [intros H; right; now apply IH | auto].
Qed.

Lemma in_strip (c : ascii) (s : str) : In c (strip s) -> In c s.
Proof.
  unfold strip, rstrip. intros H. apply in_rev in H. apply in_lstrip in H.
  apply in_rev in H. now apply in_lstrip in H.
Qed.

Lemma strip_blank_iff (s : str) :
  trimmed s -> (is_empty (strip s) = true <-> s = []).
Proof.
  intros Ht. rewrite Ht. destruct s; simpl; split; congruence.
Qed.

(* ================================================================= *)
(** * Further properties of substitution and search *)

Lemma finditer_nil_of_search (r : re) (s : str) :
  Re.search r s = None -> finditer r s = [].
Proof.
  unfold Re.search, finditer. intros H.
  replace (2 * length s + 3) with (S (2 * length s + 2)) by lia.
  cbn [finditer_from skipn]. now rewrite H.
Qed.

(** Where the pattern is not found, [re.sub] returns the text as it is. *)
Lemma sub_no_match (r : re) (repl : rmatch -> str) (s : str) :
  Re.search r s = None -> Re.sub r repl s = s.
Proof.
  intros H. unfold Re.sub. now rewrite finditer_nil_of_search.
Qed.

(** A character of the result of [re.sub] comes from the text or from a
    replacement. *)
Lemma in_sub_build (s : str) (repl : rmatch -> str) (c : ascii) :
  forall ms prev,
    In c (sub_build s repl prev ms) ->
    In c s \/ exists mt, In mt ms /\ In c (repl mt).
Proof.
  induction ms as [ | mt ms IH]; intros prev H; simpl in H.
  - left. now apply in_skipn in H.
  - apply in_app_or in H. destruct H as [H | H].
    + left. now apply in_slice in H.
    + apply in_app_or in H. destruct H as [H | H].
      * right. exists mt. split; [now left | assumption].
      * apply IH in H. destruct H as [H | (m0 & Hin & Hc)]; [now left | ].
        right. exists m0. split; [now right | assumption].
Qed.

Lemma in_sub_remove (r : re) (x s : str) (c : ascii) :
  In c (Re.sub r (remove x) s) -> In c s.
Proof.
  unfold Re.sub. intros H. apply in_sub_build in H.
  destruct H as [H | (mt & _ & [])]. exact H.
Qed.

Lemma in_group (s : str) (n : nat) (mt : rmatch) (c : ascii) :
  In c (group s n mt) -> In c s.
Proof.
  unfold group. destruct (cap_lookup n (m_caps mt)) as [[a b] | ];
    [apply in_slice | intros []].
Qed.

Lemma matches_first_char (P : ascii -> Prop) (s : str) (r : re) :
  forall i j,
    first_char_in P r -> matches s r i j ->
    exists x, nth_error s i = Some x /\ P x.
Proof.
  induction r as [ | p | ml | ml | r1 IH1 r2 IH2 | r1 IH1 r2 IH2
                   | g lo hi p | n r1 IH1 ]; simpl; intros i j Hf Hm;
    try contradiction.
  - destruct Hm as (_ & c & Hc & Hp). eauto.
  - destruct Hm as (m & H1 & _). eauto.
  - destruct Hf as [F1 F2]. destruct Hm as [H | H]; eauto.
  - eauto.
Qed.

(** A pattern whose words all begin with one character is not found in a
    text without that character. *)
Lemma search_needs_first (c : ascii) (r : re) (s : str) :
  first_char_in (eq c) r -> ~ In c s -> Re.search r s = None.
Proof.
  intros Hf Hnot. destruct (Re.search r s) as [mt | ] eqn:E; [ | reflexivity].
  exfalso.
  assert (Hs : Re.search r s <> None) by (rewrite E; discriminate).
  apply ReFacts.search_spec in Hs. destruct Hs as (i & j & _ & Hm).
  destruct (matches_first_char _ _ _ _ _ Hf Hm) as (x & Hx & <-).
  apply Hnot. eapply nth_error_In. exact Hx.
Qed.

Lemma ci_less_than (x : ascii) : ci_eqb "<"%char x = true -> "<"%char = x.
Proof.
  destruct x as [[] [] [] [] [] [] [] []]; vm_compute; intros H;
    solve [reflexivity | discriminate H].
Qed.

Lemma markup_patterns_start_with_bracket :
  first_char_in (eq "<"%char) pageheader_re
  /\ first_char_in (eq "<"%char) comment_re
  /\ first_char_in (eq "<"%char) figure_re.
Proof.
  repeat split; cbn; intros x H.
  - now apply Ascii.eqb_eq in H.
  - now apply Ascii.eqb_eq in H.
  - now apply ci_less_than.
Qed.

(* ================================================================= *)
(** * Further properties of the text normalizer *)

Lemma in_normalize (text : str) (c : ascii) :
  In c (normalize text) -> In c text \/ c = NL.
Proof.
  unfold normalize. intros H. apply in_strip in H.
  do 3 apply in_sub_remove in H.
  unfold Re.sub in H. apply in_sub_build in H.
  destruct H as [H | (mt & _ & H)]; [now left | ].
  unfold replace_pageheader in H. simpl in H.
  destruct H as [H | H]; [now right | ].
  apply in_app_or in H. destruct H as [H | [H | []]].
  - left. now apply in_group in H.
  - now right.
Qed.

(** X1: whatever string the normalizer is given, its result is trimmed
    and made of characters of the input, apart from the newlines it puts
    around page headers. *)
Theorem normalizer_output_from_input (text : str) :
  exists cleaned,
    clean_text_preserve_headings (PyStr text) = Ok cleaned
    /\ trimmed cleaned
    /\ forall c, In c cleaned -> In c text \/ c = NL.
Proof.
  exists (normalize text). split; [apply clean_text_str | ].
  split; [apply strip_trimmed | apply in_normalize].
Qed.

(** X2: a text without the character [<] goes through the three markup
    substitutions (page headers, comments, figures) unchanged; only the
    removal of boilerplate lines and the trimming act on it. *)
Theorem normalizer_leaves_plain_text (text : str) :
  ~ In "<"%char text ->
  clean_text_preserve_headings (PyStr text)
  = Ok (strip (Re.sub boilerplate_re (remove text) text)).
Proof.
  intros Hno. rewrite clean_text_str. unfold normalize.
  destruct markup_patterns_start_with_bracket as (Hp & Hc & Hf).
  rewrite (@sub_no_match pageheader_re _ text)
    by (now apply search_needs_first with (c := "<"%char)).
  rewrite (@sub_no_match comment_re _ text)
    by (now apply search_needs_first with (c := "<"%char)).
  rewrite (@sub_no_match figure_re _ text)
    by (now apply search_needs_first with (c := "<"%char)).
  reflexivity.
Qed.

(** An instance: a plain text with a boilerplate line. *)
Lemma normalizer_leaves_plain_text_witness :
  ~ In "<"%char (L "Scope" ++ [NL] ++ L "Footer" ++ [NL] ++ L "of work ")
  /\ clean_text_preserve_headings
       (PyStr (L "Scope" ++ [NL] ++ L "Footer" ++ [NL] ++ L "of work "))
     = Ok (L "Scope" ++ [NL; NL] ++ L "of work").
Proof.
  assert (Hno : ~ In "<"%char
                  (L "Scope" ++ [NL] ++ L "Footer" ++ [NL] ++ L "of work ")).
  { vm_compute. intros H.
    repeat (destruct H as [H | H]; [discriminate H | ]). exact H. }
  split; [exact Hno | ].
  rewrite (@normalizer_leaves_plain_text _ Hno). vm_compute. reflexivity.
Defined.

(* ================================================================= *)
(** * Further properties of the aligner *)

Lemma scan_skip (a b : list str) (target : str) :
  (forall p, In p a -> p_clean p <> target) ->
  forall j, scan (a ++ b) j target = scan b (j + length a) target.
Proof.
  induction a as [ | p a IH]; intros Hno j; simpl.
  - now rewrite Nat.add_0_r.
  - assert (E : str_eqb (p_clean p) target = false).
    { apply str_eqb_neq. apply Hno. now left. }
    rewrite E, IH; [f_equal; lia | ]. intros q Hq. apply Hno. now right.
Qed.

Lemma find_heading_block (done lead : list str) (hp : str) (tail : list str)
      (target : str) :
  p_clean hp = target ->
  (forall p, In p lead -> p_clean p <> target) ->
  find_heading (done ++ lead ++ hp :: tail) (length done) target
  = Some (length done + length lead).
Proof.
  intros Hhp Hlead. unfold find_heading.
  rewrite skipn_app, skipn_all, Nat.sub_diag. cbn [app skipn].
  rewrite scan_skip by assumption. simpl.
  apply str_eqb_eq in Hhp. now rewrite Hhp.
Qed.

Lemma well_laid_no_lead (lead : list str) (pairs : list (str * block)) :
  well_laid lead pairs -> well_laid [] pairs.
Proof.
  destruct pairs as [ | [h [hp body]] rest]; simpl; [auto | ].
  intros (H1 & _ & H3). repeat split; [assumption | intros p [] | assumption].
Qed.

Lemma find_end_block (done : list str) (hp : str) (body : list str)
      (rest : list (str * block)) :
  well_laid body rest ->
  find_end (done ++ hp :: body ++ flat_blocks (map snd rest)) (length done)
           (map fst rest)
  = S (length done) + length body.
Proof.
  intros Hw. destruct rest as [ | [h2 [hp2 body2]] rest]; simpl.
  - rewrite app_nil_r, length_app. simpl. lia.
  - destruct Hw as (H1 & H2 & _).
    change (flat_blocks ((hp2, body2) :: map snd rest))
      with (hp2 :: body2 ++ flat_blocks (map snd rest)).
    replace (done ++ hp :: body ++ hp2 :: body2 ++ flat_blocks (map snd rest))
      with ((done ++ [hp]) ++ body ++ hp2 :: body2 ++ flat_blocks (map snd rest))
      by (rewrite <- app_assoc; reflexivity).
    replace (S (length done)) with (length (done ++ [hp]))
      by (rewrite length_app; simpl; lia).
    rewrite find_heading_block by assumption.
    rewrite length_app. simpl. lia.
Qed.

(** The bodies the loop finds in a contract laid out as the reference
    expects are the bodies of the blocks. *)
Lemma align_trace_well_laid :
  forall pairs done lead,
    well_laid lead pairs ->
    map (body_of (done ++ lead ++ flat_blocks (map snd pairs)))
        (align_trace (done ++ lead ++ flat_blocks (map snd pairs))
                     (map fst pairs) (length done))
    = map (fun pr => block_text (snd pr)) pairs.
Proof.
  induction pairs as [ | [h [hp body]] rest IH]; intros done lead Hw;
    [reflexivity | ].
  destruct Hw as (Hhp & Hlead & Hrest).
  cbn [map fst snd flat_blocks concat align_trace].
  change (concat (map (fun b => fst b :: snd b) (map snd rest)))
    with (flat_blocks (map snd rest)).
  change ((hp :: body) ++ flat_blocks (map snd rest))
    with (hp :: body ++ flat_blocks (map snd rest)).
  rewrite (find_heading_block done lead hp _ Hhp Hlead).
  assert (Hps : done ++ lead ++ hp :: body ++ flat_blocks (map snd rest)
                = (done ++ lead) ++ hp :: body ++ flat_blocks (map snd rest))
    by (now rewrite <- app_assoc).
  assert (Hend : find_end
                   (done ++ lead ++ hp :: body ++ flat_blocks (map snd rest))
                   (length done + length lead) (map fst rest)
                 = S (length done + length lead) + length body).
  { rewrite Hps. rewrite <- length_app. now apply find_end_block. }
  rewrite Hend. cbn [map]. f_equal.
  - unfold body_of, section_text, block_text, span. cbn [snd].
    replace (S (length done + length lead) + length body
             - S (length done + length lead)) with (length body) by lia.
    rewrite Hps.
    replace (S (length done + length lead))
      with (length ((done ++ lead) ++ [hp]))
      by (rewrite !length_app; simpl; lia).
    replace ((done ++ lead) ++ hp :: body ++ flat_blocks (map snd rest))
      with (((done ++ lead) ++ [hp]) ++ body ++ flat_blocks (map snd rest))
      by (rewrite <- !app_assoc; reflexivity).
    rewrite skipn_app, skipn_all, Nat.sub_diag. cbn [app skipn].
    rewrite firstn_app, firstn_all, Nat.sub_diag. cbn [firstn].
    now rewrite app_nil_r.
  - specialize (IH (done ++ lead ++ hp :: body) [] (well_laid_no_lead _ _ Hrest)).
    cbn [app] in IH.
    replace ((done ++ lead ++ hp :: body) ++ flat_blocks (map snd rest))
      with (done ++ lead ++ hp :: body ++ flat_blocks (map snd rest)) in IH
      by (rewrite <- !app_assoc; reflexivity).
    replace (length (done ++ lead ++ hp :: body))
      with (S (length done + length lead) + length body) in IH
      by (rewrite !length_app; simpl; lia).
    exact IH.
Qed.

Lemma replay_fresh (paragraphs : list str) :
  forall steps d,
    NoDup (keys d ++ map fst steps) ->
    replay paragraphs steps d
    = d ++ map (fun st => (fst st, body_of paragraphs (snd st))) steps.
Proof.
  induction steps as [ | [h o] steps IH]; intros d Hnd; simpl.
  - now rewrite app_nil_r.
  - assert (Hfresh : ~ In h (keys d)).
    { apply NoDup_remove_2 in Hnd. intros Hin. apply Hnd.
      apply in_or_app. now left. }
    assert (Hset : dict_set d h (body_of paragraphs o)
                   = d ++ [(h, body_of paragraphs o)]).
    { clear - Hfresh. induction d as [ | [k v] d IHd]; simpl; [reflexivity | ].
      destruct (str_eqb k h) eqn:E.
      - apply str_eqb_eq in E. subst k. exfalso. apply Hfresh. now left.
      - f_equal. apply IHd. intros Hin. apply Hfresh. now right. }
    unfold replay in IH |- *. simpl. rewrite Hset, IH.
    + now rewrite <- app_assoc.
    + unfold keys. rewrite map_app. simpl. rewrite <- app_assoc. exact Hnd.
Qed.

Lemma combine_map_both {A B C D} (f : A -> B) (g : C -> D) (l : list (A * C)) :
  combine (map f (map fst l)) (map g (map snd l))
  = map (fun p => (f (fst p), g (snd p))) l.
Proof. induction l as [ | [a c] l IH]; simpl; [reflexivity | now rewrite IH]. Qed.

Lemma map_combine_snd {A B C} (g : B -> C) (l : list A) (l' : list B) :
  map (fun p => (fst p, g (snd p))) (combine l l') = combine l (map g l').
Proof.
  revert l'. induction l as [ | a l IH]; intros [ | b l']; simpl;
    try reflexivity. now rewrite IH.
Qed.

(** X3: in a contract laid out as the reference expects (each reference
    heading has its heading paragraph, in order, and no paragraph before
    a heading paragraph, back to the previous one, equals that heading),
    the aligner returns for each heading exactly the paragraphs between
    its heading paragraph and the next, joined by blank lines and
    trimmed. *)
Theorem aligner_exact_on_well_laid_contract
        (lead : list str) (pairs : list (str * block)) :
  well_laid lead pairs ->
  NoDup (map fst pairs) ->
  align_loop (lead ++ flat_blocks (map snd pairs)) (map fst pairs) 0 []
  = map (fun pr => (fst pr, block_text (snd pr))) pairs.
Proof.
  intros Hw Hnd. rewrite align_loop_replay.
  rewrite replay_fresh.
  - cbn [app]. rewrite map_combine_snd.
    pose proof (align_trace_well_laid pairs [] lead Hw) as Ht.
    cbn [app length] in Ht. rewrite Ht.
    clear. induction pairs as [ | [h b] pairs IH]; simpl;
      [reflexivity | now rewrite IH].
  - cbn [keys map app].
    assert (Hlen : length (align_trace (lead ++ flat_blocks (map snd pairs))
                                       (map fst pairs) 0)
                   = length (map fst pairs)) by apply align_trace_length.
    revert Hlen Hnd.
    generalize (align_trace (lead ++ flat_blocks (map snd pairs))
                            (map fst pairs) 0) as tr.
    generalize (map fst pairs) as hs. clear.
    induction hs as [ | h hs IH]; intros [ | o tr] Hlen Hnd;
      simpl in *; try discriminate; [constructor | ].
    inversion Hnd as [ | ? ? Hnot Hnd']; subst. constructor.
    + intros Hin. apply Hnot. clear - Hin.
      revert tr Hin. induction hs as [ | h' hs IH']; intros [ | o' tr] Hin;
        simpl in *; try contradiction.
      destruct Hin as [-> | Hin]; [now left | right; eapply IH'; eauto].
    + apply IH; [lia | assumption].
Qed.

(** An instance: a preamble, then [Term] with two paragraphs and [Fees]
    with one. *)
Lemma aligner_exact_on_well_laid_contract_witness :
  let lead := [L "intro"] in
  let pairs := [ (L "Term", (L "## TERM", [L "a"; L "b "]));
                 (L "Fees", (L "fees", [L "c"])) ] in
  well_laid lead pairs
  /\ NoDup (map fst pairs)
  /\ align_loop [L "intro"; L "## TERM"; L "a"; L "b "; L "fees"; L "c"]
                [L "Term"; L "Fees"] 0 []
     = [ (L "Term", L "a" ++ [NL; NL] ++ L "b"); (L "Fees", L "c") ].
Proof.
  intros lead pairs.
  assert (Hw : well_laid lead pairs).
  { simpl. repeat split; try (vm_compute; reflexivity).
    - intros p [<- | []]. vm_compute. discriminate.
    - intros p [<- | [<- | []]]; vm_compute; discriminate. }
  assert (Hnd : NoDup (map fst pairs)).
  { simpl. constructor.
    - simpl. intros [H | []]. discriminate H.
    - constructor; [simpl; tauto | constructor]. }
  split; [exact Hw | split; [exact Hnd | ]].
  exact (@aligner_exact_on_well_laid_contract lead pairs Hw Hnd).
Defined.

Lemma dict_set_values {V} (P : V -> Prop) (d : dict V) (k : str) (v : V) :
  Forall (fun kv => P (snd kv)) d -> P v ->
  Forall (fun kv => P (snd kv)) (dict_set d k v).
Proof.
  intros Hd Hv. induction d as [ | [k' v'] d IH]; simpl.
  - constructor; [exact Hv | constructor].
  - inversion Hd; subst. destruct (str_eqb k' k); constructor; auto.
Qed.

Lemma dict_lookup_value {V} (P : V -> Prop) (d : dict V) (k : str) (v : V) :
  Forall (fun kv => P (snd kv)) d -> dict_lookup d k = Some v -> P v.
Proof.
  intros Hd. induction d as [ | [k' v'] d IH]; simpl; [discriminate | ].
  inversion Hd; subst. destruct (str_eqb k' k).
  - intros H. inversion H; subst. assumption.
  - now apply IH.
Qed.

Lemma align_loop_values (P : str -> Prop) (paragraphs : list str) :
  P [] -> (forall s, P (strip s)) ->
  forall hs st d,
    Forall (fun kv => P (snd kv)) d ->
    Forall (fun kv => P (snd kv)) (align_loop paragraphs hs st d).
Proof.
  intros Hnil Hstrip. induction hs as [ | h hs IH]; intros st d Hd; simpl;
    [exact Hd | ].
  destruct (find_heading paragraphs st (lower h)) as [f | ]; apply IH;
    apply dict_set_values; auto. unfold section_text. apply Hstrip.
Qed.

(** X4: every paragraph the aligner works on is non-empty and trimmed,
    and every body it returns is trimmed; so the aggregator's blank test
    holds for an aligned body only when the body is empty: the aligner
    never returns a body of white space alone. *)
Theorem aligned_bodies_are_trimmed (contract_text : str) (hs : list str) :
  exists aligned,
    extract_contract_sections contract_text hs = Ok aligned
    /\ (forall p, In p (paragraphs_of (normalize contract_text)) ->
                  p <> [] /\ trimmed p)
    /\ (forall h, trimmed (dict_get aligned h [])
                  /\ (blank aligned h = true <-> dict_get aligned h [] = [])).
Proof.
  eexists. split; [apply extract_contract_sections_eq | ]. split.
  - intros p Hin. unfold paragraphs_of in Hin. apply in_map_iff in Hin.
    destruct Hin as (q & <- & Hq). apply filter_In in Hq.
    destruct Hq as [_ Hq]. split; [ | apply strip_trimmed].
    destruct (strip q); [discriminate | discriminate].
  - intros h.
    assert (Ht : trimmed
                   (dict_get (align_loop (paragraphs_of (normalize contract_text))
                                         hs 0 []) h [])).
    { unfold dict_get.
      destruct (dict_lookup (align_loop (paragraphs_of (normalize contract_text))
                                        hs 0 []) h) as [v | ] eqn:E;
        [ | reflexivity].
      eapply dict_lookup_value with (P := trimmed); [ | exact E].
      apply align_loop_values; [reflexivity | apply strip_trimmed | constructor]. }
    split; [exact Ht | ]. unfold blank. now apply strip_blank_iff.
Qed.




(* ================================================================= *)
(** * Further properties of the aggregator's run *)

Section RunFacts.
Variable FIELDGLASS_REF_MD : str.
Variable json_loads : str -> result json.
Variable client : trace -> request -> reply.

(** The loop asks the oracle exactly the requests of the sections whose
    aligned text is not blank, in order. *)
Lemma loop_trace_exact (cs : dict str) :
  forall secs acc tr res tr',
    validate_loop json_loads client cs secs acc tr = Ok (res, tr') ->
    tr' = tr ++ map OracleCall (requests_for cs secs).
Proof.
  unfold requests_for.
  induction secs as [ | [h rt] secs IH]; intros acc tr res tr' H.
  - inversion H; subst. simpl. now rewrite app_nil_r.
  - cbn [filter fst]. destruct (blank cs h) eqn:Hb; cbn [negb].
    + rewrite loop_skip in H by assumption. eapply IH; eassumption.
    + rewrite loop_step in H by assumption.
      destruct (compare_section_with_gpt json_loads client h rt
                  (dict_get cs h []) tr) as [[parsed tr1] | e] eqn:Hc;
        [ | discriminate].
      apply compare_trace in Hc. subst tr1.
      assert (Hrest : exists acc',
                 validate_loop json_loads client cs secs acc'
                   (tr ++ [OracleCall (request_for h rt (dict_get cs h []))])
                 = Ok (res, tr')).
      { destruct (json_get parsed (L "status")) as [status | e];
          [ | discriminate].
        destruct (eq_str status (L "Modified")); eauto. }
      destruct Hrest as (acc' & Hrest). apply IH in Hrest.
      rewrite Hrest. cbn [map fst snd]. now rewrite <- app_assoc.
Qed.

(** Each round appends at most one verdict. *)
Lemma loop_result_bound (cs : dict str) :
  forall secs acc tr res tr',
    validate_loop json_loads client cs secs acc tr = Ok (res, tr') ->
    length res <= length acc + length (requests_for cs secs).
Proof.
  unfold requests_for.
  induction secs as [ | [h rt] secs IH]; intros acc tr res tr' H.
  - inversion H; subst. simpl. lia.
  - cbn [filter fst]. destruct (blank cs h) eqn:Hb; cbn [negb].
    + rewrite loop_skip in H by assumption. eapply IH; eassumption.
    + rewrite loop_step in H by assumption.
      destruct (compare_section_with_gpt json_loads client h rt
                  (dict_get cs h []) tr) as [[parsed tr1] | e];
        [ | discriminate].
      destruct (json_get parsed (L "status")) as [status | e];
        [ | discriminate].
      cbn [map length].
      destruct (eq_str status (L "Modified")); apply IH in H;
        try rewrite length_app in H; simpl in H; lia.
Qed.

(** A loop that returns had every request answered with a text. *)
Lemma loop_answers (cs : dict str) :
  forall secs acc tr res tr',
    validate_loop json_loads client cs secs acc tr = Ok (res, tr') ->
    forall before req after,
      requests_for cs secs = before ++ req :: after ->
      exists content,
        client (tr ++ map OracleCall before) req = Completion (Some content).
Proof.
  unfold requests_for.
  induction secs as [ | [h rt] secs IH]; intros acc tr res tr' H before req
                                               after Hsplit.
  - simpl in Hsplit. now destruct before.
  - cbn [filter fst] in Hsplit. destruct (blank cs h) eqn:Hb;
      cbn [negb] in Hsplit.
    + rewrite loop_skip in H by assumption. eapply IH; eassumption.
    + rewrite loop_step in H by assumption.
      destruct (compare_section_with_gpt json_loads client h rt
                  (dict_get cs h []) tr) as [[parsed tr1] | e] eqn:Hc;
        [ | discriminate].
      pose proof (compare_trace _ _ _ _ _ _ Hc) as Htr. subst tr1.
      cbn [map fst snd] in Hsplit.
      destruct before as [ | b before]; simpl in Hsplit;
        inversion Hsplit as [[Hreq Hrest]].
      * simpl. rewrite app_nil_r.
        unfold compare_section_with_gpt in Hc.
        fold (request_for h rt (dict_get cs h [])) in Hc.
        destruct (client tr (request_for h rt (dict_get cs h [])))
          as [[content | ] | ]; try discriminate. eauto.
      * assert (Hloop : exists acc',
                   validate_loop json_loads client cs secs acc'
                     (tr ++ [OracleCall (request_for h rt (dict_get cs h []))])
                   = Ok (res, tr')).
        { destruct (json_get parsed (L "status")) as [status | e];
            [ | discriminate].
          destruct (eq_str status (L "Modified")); eauto. }
        destruct Hloop as (acc' & Hloop).
        destruct (IH _ _ _ _ Hloop before req after Hrest) as (content & Hcl).
        exists content. simpl. rewrite <- app_assoc in Hcl. exact Hcl.
Qed.

(** X6: a run that passes the gate and returns has called the aligner
    once and then asked the oracle exactly once for each reference section
    whose aligned text is not blank, in reference order, and nothing
    else. *)
Theorem oracle_asked_once_per_section
        (contract_md_text : str) (tr : trace) (rep : report) (tr' : trace) :
  contains_marker contract_md_text ->
  validate_service_description FIELDGLASS_REF_MD json_loads client
                               contract_md_text tr = Ok (rep, tr') ->
  exists ref_sections aligned,
    extract_reference_sections FIELDGLASS_REF_MD = Ok ref_sections
    /\ extract_contract_sections contract_md_text (map fst ref_sections)
       = Ok aligned
    /\ tr' = tr ++ AlignerCall contract_md_text (map fst ref_sections)
                :: map OracleCall (requests_for aligned ref_sections).
Proof.
  intros Hgate H. apply gate_search_spec in Hgate.
  destruct (validate_open_gate _ _ _ _ _ Hgate H)
    as (rs & al & Hr & Ha & Hl & _).
  exists rs, al. split; [assumption | split; [assumption | ]].
  apply loop_trace_exact in Hl. rewrite Hl, <- app_assoc. reflexivity.
Qed.

(** X7: every entry of [modified_sections] of a returned report is an
    object whose status is the string [Modified], and there are at most
    as many entries as oracle calls the run added to the trace. *)
Theorem modified_sections_are_modified_verdicts
        (contract_md_text : str) (tr : trace) (rep : report) (tr' : trace) :
  validate_service_description FIELDGLASS_REF_MD json_loads client
                               contract_md_text tr = Ok (rep, tr') ->
  (forall v, In v (modified_sections rep) ->
             json_get v (L "status") = Ok (Some (JStr (L "Modified"))))
  /\ length (modified_sections rep) + length tr <= length tr'.
Proof.
  intros H. split; [eapply modified_sections_all_modified; exact H | ].
  destruct (Re.search gate_re contract_md_text) as [mt | ] eqn:Hs.
  - assert (Hgate : Re.search gate_re contract_md_text <> None)
      by (rewrite Hs; discriminate).
    destruct (validate_open_gate _ _ _ _ _ Hgate H)
      as (rs & al & _ & _ & Hl & _).
    pose proof (loop_result_bound _ _ _ _ Hl) as Hb.
    apply loop_trace_exact in Hl. rewrite Hl.
    rewrite !length_app, length_map. simpl in *. lia.
  - rewrite gate_closed_short_circuits in H by assumption.
    inversion H; subst. simpl. lia.
Qed.

(** X8: a report is returned only if every request the run sent to the
    oracle was answered with a text: the answer to the request that
    follows the calls [before] was a completion with content.  There is
    no report after a transport failure or an empty completion. *)
Theorem report_needs_every_answer
        (contract_md_text : str) (rep : report) (tr' : trace)
        (before : trace) (req : request) (after : trace) :
  validate_service_description FIELDGLASS_REF_MD json_loads client
                               contract_md_text [] = Ok (rep, tr') ->
  tr' = before ++ OracleCall req :: after ->
  exists content, client before req = Completion (Some content).
Proof.
  intros H Hsplit.
  destruct (Re.search gate_re contract_md_text) as [mt | ] eqn:Hs.
  - assert (Hgate : Re.search gate_re contract_md_text <> None)
      by (rewrite Hs; discriminate).
    destruct (validate_open_gate _ _ _ _ _ Hgate H)
      as (rs & al & _ & _ & Hl & _).
    pose proof (loop_trace_exact _ _ _ _ Hl) as Htr. cbn [app] in Htr, Hl.
    rewrite Htr in Hsplit.
    destruct before as [ | b before]; simpl in Hsplit;
      inversion Hsplit as [[Hb Hrest]]. subst b.
    assert (Hcalls : exists bq aq,
               before = map OracleCall bq
               /\ requests_for al rs = bq ++ req :: aq).
    { clear - Hrest. revert before Hrest.
      induction (requests_for al rs) as [ | q qs IH]; intros before Hrest.
      - simpl in Hrest. now destruct before.
      - destruct before as [ | b before]; simpl in Hrest;
          inversion Hrest as [[Hq Hqs]].
        + exists [], qs. split; reflexivity.
        + destruct (IH _ Hqs) as (bq & aq & -> & Hsplit).
          exists (q :: bq), aq. split; [reflexivity | ].
          simpl. now rewrite <- Hsplit. }
    destruct Hcalls as (bq & aq & -> & Hq).
    destruct (loop_answers _ _ _ _ Hl _ _ _ Hq) as (content & Hc).
    exists content. exact Hc.
  - rewrite gate_closed_short_circuits in H by assumption.
    inversion H; subst. now destruct before.
Qed.

(** X9: in a run that returns, every request sent to the oracle carries
    excerpts of at most 3000 characters, and its contract excerpt is not
    empty and does not begin with white space. *)
Theorem oracle_requests_are_bounded
        (contract_md_text : str) (tr : trace) (rep : report) (tr' : trace)
        (req : request) :
  validate_service_description FIELDGLASS_REF_MD json_loads client
                               contract_md_text tr = Ok (rep, tr') ->
  In (OracleCall req) (skipn (length tr) tr') ->
  length (req_reference req) <= 3000
  /\ length (req_contract req) <= 3000
  /\ req_contract req <> []
  /\ head_ok (req_contract req).
Proof.
  intros H Hin.
  destruct (Re.search gate_re contract_md_text) as [mt | ] eqn:Hs.
  - assert (Hgate : Re.search gate_re contract_md_text <> None)
      by (rewrite Hs; discriminate).
    destruct (validate_open_gate _ _ _ _ _ Hgate H)
      as (rs & al & _ & _ & Hl & _).
    apply loop_trace_exact in Hl. rewrite Hl, <- app_assoc in Hin.
    rewrite skipn_app, skipn_all, Nat.sub_diag in Hin. cbn [app skipn] in Hin.
    destruct Hin as [Hin | Hin]; [discriminate | ].
    apply in_map_iff in Hin. destruct Hin as (q & Hq & Hin).
    inversion Hq; subst q. unfold requests_for in Hin.
    apply in_map_iff in Hin. destruct Hin as ([h rt] & <- & Hsec).
    apply filter_In in Hsec. destruct Hsec as [_ Hnb]. cbn [fst snd] in *.
    unfold request_for. cbn [req_reference req_contract].
    unfold blank in Hnb.
    assert (Hst : head_ok (strip (dict_get al h [])))
      by apply strip_head_ok.
    repeat split.
    + rewrite length_firstn. lia.
    + rewrite length_firstn. lia.
    + destruct (strip (dict_get al h [])); [discriminate | discriminate].
    + destruct (strip (dict_get al h [])); [exact I | exact Hst].
  - rewrite gate_closed_short_circuits in H by assumption.
    inversion H; subst. rewrite skipn_all in Hin. contradiction.
Qed.

End RunFacts.

Lemma sample_run :
  validate_service_description sample_reference never_parses
    (always_answers sample_answer) sample_contract []
  = Ok (sample_report, sample_trace).
Proof. vm_compute. reflexivity. Qed.

Lemma sample_contract_has_marker : contains_marker sample_contract.
Proof. apply gate_search_spec. vm_compute. discriminate. Qed.

(** An instance: the sample run asks once, for [Term]. *)
Lemma oracle_asked_once_per_section_witness :
  contains_marker sample_contract
  /\ validate_service_description sample_reference never_parses
       (always_answers sample_answer) sample_contract []
     = Ok (sample_report, sample_trace)
  /\ exists ref_sections aligned,
      extract_reference_sections sample_reference = Ok ref_sections
      /\ extract_contract_sections sample_contract (map fst ref_sections)
         = Ok aligned
      /\ sample_trace
         = [] ++ AlignerCall sample_contract (map fst ref_sections)
              :: map OracleCall (requests_for aligned ref_sections).
Proof.
  split; [exact sample_contract_has_marker | split; [exact sample_run | ]].
  exact (@oracle_asked_once_per_section sample_reference never_parses
           (always_answers sample_answer) sample_contract []
           sample_report sample_trace sample_contract_has_marker sample_run).
Defined.

(** An instance: the one entry of the sample report. *)
Lemma modified_sections_are_modified_verdicts_witness :
  validate_service_description sample_reference never_parses
    (always_answers sample_answer) sample_contract []
  = Ok (sample_report, sample_trace)
  /\ (forall v, In v (modified_sections sample_report) ->
                json_get v (L "status") = Ok (Some (JStr (L "Modified"))))
  /\ length (modified_sections sample_report) + 0 <= length sample_trace.
Proof.
  split; [exact sample_run | ].
  exact (@modified_sections_are_modified_verdicts sample_reference
           never_parses (always_answers sample_answer) sample_contract []
           sample_report sample_trace sample_run).
Defined.

(** An instance: the request of the sample run was answered. *)
Lemma report_needs_every_answer_witness :
  validate_service_description sample_reference never_parses
    (always_answers sample_answer) sample_contract []
  = Ok (sample_report, sample_trace)
  /\ sample_trace
     = [AlignerCall sample_contract [L "Term"; L "Fees"]]
         ++ OracleCall sample_request :: []
  /\ exists content,
      always_answers sample_answer
        [AlignerCall sample_contract [L "Term"; L "Fees"]] sample_request
      = Completion (Some content).
Proof.
  split; [exact sample_run | split; [reflexivity | ]].
  exact (@report_needs_every_answer sample_reference never_parses
           (always_answers sample_answer) sample_contract
           sample_report sample_trace
           [AlignerCall sample_contract [L "Term"; L "Fees"]]
           sample_request [] sample_run eq_refl).
Defined.

(** An instance: the request of the sample run. *)
Lemma oracle_requests_are_bounded_witness :
  validate_service_description sample_reference never_parses
    (always_answers sample_answer) sample_contract []
  = Ok (sample_report, sample_trace)
  /\ In (OracleCall sample_request) (skipn (length (@nil event)) sample_trace)
  /\ length (req_reference sample_request) <= 3000
  /\ length (req_contract sample_request) <= 3000
  /\ req_contract sample_request <> []
  /\ head_ok (req_contract sample_request).
Proof.
  assert (Hin : In (OracleCall sample_request)
                   (skipn (length (@nil event)) sample_trace))
    by (simpl; right; left; reflexivity).
  split; [exact sample_run | split; [exact Hin | ]].
  exact (@oracle_requests_are_bounded sample_reference never_parses
           (always_answers sample_answer) sample_contract []
           sample_report sample_trace sample_request sample_run Hin).
Defined.

(* ================================================================= *)
(** * Further properties: the reference document and the run as a whole *)

Lemma no_heading_without_sharp (s : str) :
  ~ In "#"%char s -> Re.search heading_re s = None.
Proof.
  intros Hno. destruct (Re.search heading_re s) as [mt | ] eqn:E;
    [ | reflexivity].
  exfalso.
  assert (Hs : Re.search heading_re s <> None) by (rewrite E; discriminate).
  apply ReFacts.search_spec in Hs. destruct Hs as (i & j & _ & Hm).
  unfold heading_re in Hm. destruct Hm as (m1 & _ & m2 & Hgrp & _).
  destruct Hgrp as (Hle & Hlo & _ & Hall).
  destruct (Hall m1) as (c & Hc & Hp); [lia | ].
  apply Ascii.eqb_eq in Hp. subst c.
  apply Hno. eapply nth_error_In. exact Hc.
Qed.

Lemma reference_without_sharp (md_text : str) :
  ~ In "#"%char md_text -> _extract_sections_from_text md_text = Ok [].
Proof.
  intros Hno. unfold _extract_sections_from_text.
  rewrite clean_text_str. cbn [rbind].
  rewrite finditer_nil_of_search; [reflexivity | ].
  apply no_heading_without_sharp. intros Hin.
  apply in_normalize in Hin. destruct Hin as [Hin | Hnl];
    [now apply Hno | discriminate Hnl].
Qed.

Section WholeRun.
Variable FIELDGLASS_REF_MD : str.
Variable json_loads : str -> result json.
Variable client : trace -> request -> reply.

(** X10: with a reference document that holds no [#] character (so no
    heading is recognized), every run on a contract with the marker
    returns [Correct] with no verdict, after calling the aligner with an
    empty heading list and without asking the oracle. *)
Theorem empty_reference_reports_correct
        (contract_md_text : str) (tr : trace) :
  ~ In "#"%char FIELDGLASS_REF_MD ->
  contains_marker contract_md_text ->
  validate_service_description FIELDGLASS_REF_MD json_loads client
                               contract_md_text tr
  = Ok (MkReport (L "Correct") [], tr ++ [AlignerCall contract_md_text []]).
Proof.
  intros Hno Hgate. apply gate_search_spec in Hgate.
  unfold validate_service_description.
  destruct (Re.search gate_re contract_md_text) as [mt | ]; [ | congruence].
  unfold mbind, lift, extract_reference_sections.
  rewrite (reference_without_sharp _ Hno). cbn [map].
  unfold call_aligner. rewrite extract_contract_sections_eq. reflexivity.
Qed.

(** X11: the pipeline's validation returns a report, whatever the full
    text, as long as the oracle answers every request with a text on
    whose brace slices [json.loads] raises nothing but [JSONDecodeError],
    and [json.loads] yields objects only on the texts that start with a
    brace. *)
Theorem pipeline_returns_when_oracle_answers (full_text : str) (tr : trace) :
  (forall tr req, exists content,
      client tr req = Completion (Some content)
      /\ only_decode_errors json_loads content) ->
  (forall s v, json_loads ("{"%char :: s) = Ok v ->
               exists fields, v = JObj fields) ->
  exists rep tr',
    service_description_validation FIELDGLASS_REF_MD json_loads client
                                   full_text tr = Ok (rep, tr').
Proof.
  intros Hclient Hjson. unfold service_description_validation.
  now apply validate_returns.
Qed.

End WholeRun.

(** An instance: a reference without headings. *)
Lemma empty_reference_reports_correct_witness :
  ~ In "#"%char (L "Term: 12 months")
  /\ contains_marker sample_contract
  /\ validate_service_description (L "Term: 12 months") never_parses
       (always_answers sample_answer) sample_contract []
     = Ok (MkReport (L "Correct") [], [] ++ [AlignerCall sample_contract []]).
Proof.
  assert (Hno : ~ In "#"%char (L "Term: 12 months")).
  { vm_compute. intros H.
    repeat (destruct H as [H | H]; [discriminate H | ]). exact H. }
  split; [exact Hno | split; [exact sample_contract_has_marker | ]].
  exact (@empty_reference_reports_correct (L "Term: 12 months") never_parses
           (always_answers sample_answer) sample_contract []
           Hno sample_contract_has_marker).
Defined.

Lemma sample_loads_objects :
  forall s v, sample_loads ("{"%char :: s) = Ok v ->
              exists fields, v = JObj fields.
Proof.
  intros s v H. unfold sample_loads in H.
  destruct (str_eqb ("{"%char :: s) json_answer).
  - inversion H. eauto.
  - destruct (str_eqb ("{"%char :: s) (L "[]")) eqn:E; [ | discriminate H].
    apply str_eqb_eq in E. unfold L in E. simpl in E. discriminate E.
Qed.

Lemma sample_loads_only_decode_errors (content : str) :
  only_decode_errors sample_loads content.
Proof.
  intros i j e _ _ _ _ H. unfold sample_loads in H.
  destruct (str_eqb _ json_answer); [discriminate H | ].
  destruct (str_eqb _ (L "[]")); [discriminate H | now inversion H].
Qed.

Lemma always_answers_json :
  forall tr req, exists content,
    always_answers json_answer tr req = Completion (Some content)
    /\ only_decode_errors sample_loads content.
Proof.
  intros tr req. exists json_answer.
  split; [reflexivity | apply sample_loads_only_decode_errors].
Qed.

(** An instance: an oracle that always answers with the JSON text of a
    [Match] verdict, and a [json.loads] that parses it; the same
    [json.loads] yields a list for the text of the empty array. *)
Lemma pipeline_returns_when_oracle_answers_witness :
  (forall tr req, exists content,
      always_answers json_answer tr req = Completion (Some content)
      /\ only_decode_errors sample_loads content)
  /\ (forall s v, sample_loads ("{"%char :: s) = Ok v ->
                  exists fields, v = JObj fields)
  /\ sample_loads (L "[]") = Ok (JArr [])
  /\ exists rep tr',
      service_description_validation sample_reference sample_loads
        (always_answers json_answer) sample_full_text [] = Ok (rep, tr').
Proof.
  split; [exact always_answers_json | ].
  split; [exact sample_loads_objects | ].
  split; [vm_compute; reflexivity | ].
  exact (@pipeline_returns_when_oracle_answers sample_reference sample_loads
           (always_answers json_answer) sample_full_text []
           always_answers_json sample_loads_objects).
Defined.

(* ================================================================= *)
(** * Further properties of the comparator: the slice given to [json.loads] *)

Lemma first_index_some (c : ascii) (s : str) :
  forall i, first_index c s = Some i ->
            nth_error s i = Some c
            /\ forall q, q < i -> nth_error s q <> Some c.
Proof.
  induction s as [ | x s IH]; intros i H; simpl in H; [discriminate | ].
  destruct (Ascii.eqb x c) eqn:E.
  - inversion H; subst. apply Ascii.eqb_eq in E. subst x.
    split; [reflexivity | intros q Hq; lia].
  - destruct (first_index c s) as [i' | ]; simpl in H; [ | discriminate].
    inversion H; subst. destruct (IH i' eq_refl) as [Hn Hmin].
    split; [exact Hn | ]. intros [ | q] Hq; simpl.
    + intros Hx. inversion Hx; subst. now rewrite Ascii.eqb_refl in E.
    + apply Hmin. lia.
Qed.

Lemma first_index_none (c : ascii) (s : str) :
  first_index c s = None -> forall q, nth_error s q <> Some c.
Proof.
  induction s as [ | x s IH]; intros H q; simpl in H.
  - now destruct q.
  - destruct (Ascii.eqb x c) eqn:E; [discriminate | ].
    destruct (first_index c s) as [i' | ]; simpl in H; [discriminate | ].
    destruct q as [ | q]; simpl.
    + intros Hx. inversion Hx; subst. now rewrite Ascii.eqb_refl in E.
    + now apply IH.
Qed.

Lemma last_index_some (c : ascii) (s : str) :
  forall j, last_index c s = Some j ->
            nth_error s j = Some c
            /\ forall q, j < q -> nth_error s q <> Some c.
Proof.
  induction s as [ | x s IH]; intros j H; simpl in H; [discriminate | ].
  destruct (last_index c s) as [j' | ] eqn:El.
  - inversion H; subst. destruct (IH j' eq_refl) as [Hn Hmax].
    split; [exact Hn | ]. intros [ | q] Hq; [lia | ]. simpl. apply Hmax. lia.
  - destruct (Ascii.eqb x c) eqn:E; [ | discriminate].
    inversion H; subst. apply Ascii.eqb_eq in E. subst x.
    split; [reflexivity | ]. intros [ | q] Hq; [lia | ]. simpl.
    clear - El. revert q. induction s as [ | y s IHs]; intros q.
    + now destruct q.
    + simpl in El. destruct (last_index c s) as [j' | ] eqn:E2;
        [discriminate | ].
      destruct (Ascii.eqb y c) eqn:Ey; [discriminate | ].
      destruct q as [ | q]; simpl.
      * intros Hx. inversion Hx; subst. now rewrite Ascii.eqb_refl in Ey.
      * now apply IHs.
Qed.

Lemma last_index_none (c : ascii) (s : str) :
  last_index c s = None -> forall q, nth_error s q <> Some c.
Proof.
  induction s as [ | x s IH]; intros H q; simpl in H.
  - now destruct q.
  - destruct (last_index c s) as [j' | ]; [discriminate | ].
    destruct (Ascii.eqb x c) eqn:E; [discriminate | ].
    destruct q as [ | q]; simpl.
    + intros Hx. inversion Hx; subst. now rewrite Ascii.eqb_refl in E.
    + now apply IH.
Qed.

(** The match [re.search] returns is the leftmost: the pattern matches at
    no earlier position. *)
Lemma search_from_leftmost r s :
  forall suf pos mt,
    search_from r s suf pos false = Some mt ->
    forall q e, pos <= q < m_start mt -> ~ matches s r q e.
Proof.
  induction suf as [ | c suf IH]; intros pos mt H q e Hq Hm; simpl in H.
  - destruct (match_at r s pos false) eqn:Ha; [ | discriminate].
    inversion H; subst. apply ReFacts.match_at_sound in Ha. lia.
  - destruct (match_at r s pos false) eqn:Ha.
    + inversion H; subst. apply ReFacts.match_at_sound in Ha. lia.
    + destruct (Nat.eq_dec q pos) as [-> | Hne].
      * now apply (@ReFacts.match_at_complete r s pos e Hm).
      * apply (IH _ _ H q e); [lia | assumption].
Qed.

(** A greedy star over a class that holds every character hands over the
    last position its continuation accepts. *)
Lemma rep_greedy_last {A} (p : ascii -> bool) :
  (forall c, p c = true) ->
  forall suf cnt pos (k : nat -> option A) res,
    rep true 0 None p suf cnt pos k = Some res ->
    exists n,
      n <= length suf /\ k (pos + n) = Some res
      /\ forall n', n < n' <= length suf -> k (pos + n') = None.
Proof.
  intros Hall. induction suf as [ | c suf IH]; intros cnt pos k res H.
  - simpl in H. exists 0. rewrite Nat.add_0_r.
    split; [lia | split; [assumption | ]]. simpl. intros n' Hn. lia.
  - simpl in H. rewrite Hall in H.
    destruct (rep true 0 None p suf (S cnt) (S pos) k) as [x | ] eqn:Hm.
    + inversion H; subst x. destruct (IH _ _ _ _ Hm) as (n & Hn & Hk & Hmax).
      exists (S n). split; [simpl; lia | split].
      * now replace (pos + S n) with (S pos + n) by lia.
      * intros [ | n'] Hn'; [lia | ].
        replace (pos + S n') with (S pos + n') by lia. apply Hmax.
        simpl in Hn'. lia.
    + exists 0. rewrite Nat.add_0_r. split; [lia | split; [assumption | ]].
      intros [ | n'] Hn'; [lia | ].
      destruct (k (pos + S n')) as [y | ] eqn:Hk; [ | reflexivity].
      exfalso.
      apply (@ReFacts.rep_complete A true 0 None p suf (S cnt) (S pos) k n');
        try assumption.
      * simpl in Hn'. lia.
      * intros q Hq. assert (Hlt : q < length suf) by (simpl in Hn'; lia).
        apply nth_error_Some in Hlt.
        destruct (nth_error suf q) as [c' | ]; [ | congruence]. eauto.
      * lia.
      * exact I.
      * replace (S pos + n') with (pos + S n') by lia. congruence.
Qed.

Lemma json_match_ends_at_last_brace (content : str) (pos : nat) (mt : rmatch) :
  match_at json_re content pos false = Some mt ->
  forall q, m_end mt <= q -> nth_error content q <> Some "}"%char.
Proof.
  unfold match_at, json_re. cbn [run lit star].
  destruct (nth_error content pos) as [c | ] eqn:Hc; [ | discriminate].
  destruct (Ascii.eqb "{"%char c) eqn:Ec; [ | discriminate].
  intros H. apply rep_greedy_last in H; [ | reflexivity].
  destruct H as (n & Hn & Hk & Hmax).
  destruct (nth_error content (S pos + n)) as [c2 | ] eqn:Hc2;
    [ | discriminate].
  destruct (Ascii.eqb "}"%char c2) eqn:Ec2; [ | discriminate].
  simpl in Hk. inversion Hk; subst mt. cbn [m_end].
  intros q Hq Hbrace.
  assert (Hlen : q < length content) by (apply nth_error_Some; congruence).
  rewrite length_skipn in Hn, Hmax.
  specialize (Hmax (q - S pos)).
  replace (S pos + (q - S pos)) with q in Hmax by lia.
  rewrite Hbrace in Hmax. rewrite Ascii.eqb_refl in Hmax.
  assert (Hrange : n < q - S pos <= length content - S pos) by lia.
  specialize (Hmax Hrange). simpl in Hmax. discriminate.
Qed.

Lemma json_re_matches_between (content : str) (i j : nat) :
  i < j ->
  nth_error content i = Some "{"%char ->
  nth_error content j = Some "}"%char ->
  matches content json_re i (S j).
Proof.
  intros Hij Hi Hj. unfold json_re. exists (S i). split.
  - split; [reflexivity | ]. exists "{"%char. split; [assumption | reflexivity].
  - exists j. split.
    + cbn. repeat split; try lia. intros q Hq.
      assert (Hlt : q < length content).
      { assert (j < length content) by (apply nth_error_Some; congruence).
        lia. }
      apply nth_error_Some in Hlt.
      destruct (nth_error content q) as [c | ]; [ | congruence].
      exists c. split; reflexivity.
    + split; [reflexivity | ]. exists "}"%char.
      split; [assumption | reflexivity].
Qed.

(** The span the JSON pattern finds runs from the first opening brace of
    the answer to its last closing brace; when no closing brace follows
    the first opening brace, nothing is found. *)
Lemma json_slice_from_first_to_last_brace (content : str) :
  option_map (fun mt => (m_start mt, m_end mt)) (Re.search json_re content)
  = match first_index "{"%char content, last_index "}"%char content with
    | Some i, Some j => if i <? j then Some (i, S j) else None
    | _, _ => None
    end.
Proof.
  destruct (Re.search json_re content) as [mt | ] eqn:Hs; simpl.
  - pose proof (json_re_span _ Hs) as (Hlt & Hlen & Hopen & Hclose).
    assert (Hleft : forall q, q < m_start mt ->
                              nth_error content q <> Some "{"%char).
    { intros q Hq Hbrace. unfold Re.search in Hs.
      apply (@search_from_leftmost json_re content content 0 mt Hs
                                   q (m_end mt)); [lia | ].
      replace (m_end mt) with (S (m_end mt - 1)) by lia.
      apply json_re_matches_between; [ | assumption | assumption].
      destruct (Nat.eq_dec (m_start mt) (m_end mt - 1)) as [E | E]; [ | lia].
      rewrite E in Hopen. congruence. }
    assert (Hright : forall q, m_end mt <= q ->
                               nth_error content q <> Some "}"%char).
    { unfold Re.search in Hs.
      assert (Hat : match_at json_re content (m_start mt) false = Some mt).
      { clear - Hs. revert Hs. generalize 0 as pos. generalize content at 2 as suf.
        induction suf as [ | c suf IH]; intros pos H; simpl in H.
        - destruct (match_at json_re content pos false) eqn:Ha;
            [ | discriminate].
          inversion H; subst. pose proof (ReFacts.match_at_sound _ _ _ _ Ha)
            as (Hst & _). now rewrite Hst.
        - destruct (match_at json_re content pos false) eqn:Ha.
          + inversion H; subst.
            pose proof (ReFacts.match_at_sound _ _ _ _ Ha) as (Hst & _).
            now rewrite Hst.
          + eapply IH; eassumption. }
      now apply json_match_ends_at_last_brace with (pos := m_start mt). }
    destruct (first_index "{"%char content) as [i | ] eqn:Ei.
    + destruct (first_index_some _ _ Ei) as [Hi Himin].
      assert (i = m_start mt).
      { destruct (Nat.lt_trichotomy i (m_start mt)) as [L | [E | G]];
          [ | exact E | ].
        - exfalso. now apply (Hleft i).
        - exfalso. now apply (Himin (m_start mt)). }
      subst i.
      destruct (last_index "}"%char content) as [j | ] eqn:Ej.
      * destruct (last_index_some _ _ Ej) as [Hj Hjmax].
        assert (j = m_end mt - 1).
        { destruct (Nat.lt_trichotomy j (m_end mt - 1)) as [L | [E | G]];
            [ | exact E | ].
          - exfalso. now apply (Hjmax (m_end mt - 1)).
          - exfalso. apply (Hright j); [lia | assumption]. }
        subst j.
        assert (Hne : m_start mt <> m_end mt - 1).
        { intros E. rewrite E in Hopen. congruence. }
        replace (m_start mt <? m_end mt - 1) with true
          by (symmetry; apply Nat.ltb_lt; lia).
        do 2 f_equal. lia.
      * exfalso.
        now apply (@last_index_none "}"%char content Ej (m_end mt - 1)).
    + exfalso. now apply (@first_index_none "{"%char content Ei (m_start mt)).
  - destruct (first_index "{"%char content) as [i | ] eqn:Ei; [ | reflexivity].
    destruct (last_index "}"%char content) as [j | ] eqn:Ej; [ | reflexivity].
    destruct (i <? j) eqn:Hij; [ | reflexivity].
    apply Nat.ltb_lt in Hij. exfalso.
    destruct (first_index_some _ _ Ei) as [Hi _].
    destruct (last_index_some _ _ Ej) as [Hj _].
    assert (Hfound : Re.search json_re content <> None).
    { apply ReFacts.search_spec. exists i, (S j). split.
      - assert (i < length content) by (apply nth_error_Some; congruence). lia.
      - now apply json_re_matches_between. }
    congruence.
Qed.

(** X12: what the comparator does with an answer with content, without
    reference to the pattern.  When a closing brace follows the first
    opening brace, [json.loads] is given the slice from that first
    opening brace to the last closing brace: its value is returned as it
    is, its [JSONDecodeError] gives the fallback verdict, and any other
    exception it raises leaves the comparator.  When no closing brace
    follows the first opening brace, the fallback verdict is returned.
    Whenever the comparator returns, it has added its request to the
    trace. *)
Theorem comparator_parses_first_to_last_brace
        (json_loads : str -> result json) (client : trace -> request -> reply)
        (ref_heading ref_text con_text : str) (tr : trace) (content : str) :
  client tr (request_for ref_heading ref_text con_text)
  = Completion (Some content) ->
  compare_section_with_gpt json_loads client ref_heading ref_text con_text tr
  = result_json <-
      match first_index "{"%char content, last_index "}"%char content with
      | Some i, Some j =>
          if i <? j
          then match json_loads (slice content i (S j)) with
               | Ok v => Ok v
               | Raise e =>
                   if is_JSONDecodeError e
                   then Ok (fallback ref_heading content)
                   else Raise e
               end
          else Ok (fallback ref_heading content)
      | _, _ => Ok (fallback ref_heading content)
      end ;;
    Ok (result_json,
        tr ++ [OracleCall (request_for ref_heading ref_text con_text)]).
Proof.
  intros Hc. unfold compare_section_with_gpt.
  fold (request_for ref_heading ref_text con_text). rewrite Hc.
  pose proof (json_slice_from_first_to_last_brace content) as Hspan.
  destruct (Re.search json_re content) as [mt | ]; simpl in Hspan.
  - destruct (first_index "{"%char content) as [i | ]; [ | discriminate].
    destruct (last_index "}"%char content) as [j | ]; [ | discriminate].
    destruct (i <? j); [ | discriminate].
    inversion Hspan as [[Hi Hj]]. unfold group0. rewrite Hi, Hj.
    destruct (json_loads (slice content i (S j))) as [v | e];
      [reflexivity | ].
    destruct (is_JSONDecodeError e); reflexivity.
  - destruct (first_index "{"%char content) as [i | ]; [ | reflexivity].
    destruct (last_index "}"%char content) as [j | ]; [ | reflexivity].
    destruct (i <? j); [discriminate | reflexivity].
Qed.

(** An instance: a [Match] verdict followed by a second pair of braces.
    The verdict alone parses, but the slice runs to the last closing
    brace, [json.loads] rejects it, and the fallback verdict is
    returned. *)
Lemma comparator_parses_first_to_last_brace_witness :
  let content := json_answer ++ L " and {b}" in
  always_answers content [] (request_for (L "Term") (L "x") (L "y"))
  = Completion (Some content)
  /\ sample_loads json_answer = Ok (JObj [(L "status", JStr (L "Match"))])
  /\ compare_section_with_gpt sample_loads (always_answers content)
       (L "Term") (L "x") (L "y") []
     = Ok (fallback (L "Term") content,
           [OracleCall (request_for (L "Term") (L "x") (L "y"))]).
Proof.
  intros content. split; [reflexivity | ].
  split; [vm_compute; reflexivity | ].
  rewrite (@comparator_parses_first_to_last_brace sample_loads
             (always_answers content) (L "Term") (L "x") (L "y") [] content
             eq_refl).
  vm_compute. reflexivity.
Defined.

(* ================================================================= *)
(** * Properties of the document extractor *)

(** The extractor's start pattern is the gate's pattern. *)
Lemma start_pattern_is_gate : start_pattern = gate_re.
Proof. reflexivity. Qed.

Lemma end_pattern_anchor_free : Re.anchor_free end_pattern.
Proof. vm_compute. tauto. Qed.

Lemma lower_is_two (x : ascii) : lower_char x = "2"%char -> x = "2"%char.
Proof.
  destruct x as [[] [] [] [] [] [] [] []]; vm_compute; intros H;
    solve [reflexivity | discriminate H].
Qed.

(** The words of the end pattern. *)
Lemma end_pattern_words (v : str) : Re.lang end_pattern v <-> next_marker v.
Proof.
  unfold end_pattern, next_marker, ws. split.
  - intros (a & r1 & -> & Ha & w & o & -> & Hw & Ho).
    apply lang_lits_ci in Ha. apply lang_star in Hw. apply lang_lit_ci in Ho.
    assert (o = L "2").
    { destruct o as [ | x [ | y o]]; simpl in Ho; try discriminate.
      inversion Ho as [Hx]. change (lower_char "2") with "2"%char in Hx.
      apply lower_is_two in Hx. now subst x. }
    subst o. exists a, w. repeat split; assumption.
  - intros (a & w & -> & Ha & Hw).
    exists a, (w ++ L "2"). split; [reflexivity | ].
    split; [now apply lang_lits_ci | ].
    exists w, (L "2"). split; [reflexivity | ].
    split; [now apply lang_star | ]. now apply lang_lit_ci.
Qed.

(** [strip] cuts a slice out of its argument. *)
Lemma strip_infix (s : str) : exists l r, s = l ++ strip s ++ r.
Proof.
  unfold strip, rstrip.
  destruct (lstrip_split s) as (sp & Hs & _).
  destruct (lstrip_split (rev (lstrip s))) as (sp' & Hs' & _).
  exists sp, (rev sp').
  apply (f_equal (@rev ascii)) in Hs'.
  rewrite rev_involutive, rev_app_distr in Hs'.
  rewrite <- Hs'. exact Hs.
Qed.

Lemma next_marker_nonempty (v : str) : next_marker v -> 0 < length v.
Proof.
  intros (a & w & -> & _ & _). rewrite !length_app. simpl. lia.
Qed.

(** The end pattern finds nothing in the part of the text that the
    extractor keeps. *)
Lemma end_pattern_not_in_cut (md_text : str) (start_index : nat) :
  start_index <= length md_text ->
  Re.search end_pattern
    (strip (slice md_text start_index
              match Re.search end_pattern (skipn start_index md_text) with
              | Some end_match => start_index + m_start end_match
              | None => length md_text
              end)) = None.
Proof.
  intros Hstart.
  match goal with |- ?x = None => destruct x as [mt | ] eqn:E end;
    [exfalso | reflexivity].
  assert (Hs : Re.search end_pattern
                 (strip (slice md_text start_index
                    match Re.search end_pattern (skipn start_index md_text) with
                    | Some end_match => start_index + m_start end_match
                    | None => length md_text
                    end)) <> None) by (rewrite E; discriminate).
  clear E mt.
  apply (@ReFacts.search_lang end_pattern _ end_pattern_anchor_free) in Hs.
  destruct Hs as (b & v & a & Hres & Hv).
  match type of Hres with strip ?x = _ =>
    destruct (strip_infix x) as (l & r & Hcut) end.
  rewrite Hres in Hcut. clear Hres.
  set (rest := skipn start_index md_text) in *.
  unfold Re.search in Hcut.
  destruct (Re.search_from end_pattern rest rest 0 false) as [em | ] eqn:Ee.
  - (* the cut stops where the first match in the rest starts *)
    pose proof (ReFacts.search_from_sound _ _ _ _ _ Ee) as (Hb & _ & _).
    simpl in Hb.
    assert (Hfirst : slice md_text start_index (start_index + m_start em)
                     = firstn (m_start em) rest).
    { unfold slice, rest. f_equal. lia. }
    rewrite Hfirst in Hcut.
    assert (Hrest : rest = (l ++ b) ++ v ++ (a ++ r) ++ skipn (m_start em) rest).
    { rewrite <- (firstn_skipn (m_start em) rest) at 1. rewrite Hcut.
      now rewrite <- !app_assoc. }
    assert (Hlen : length (l ++ b) + length v <= m_start em).
    { apply (f_equal (@length ascii)) in Hcut.
      rewrite length_firstn, !length_app in Hcut.
      rewrite !length_app. lia. }
    pose proof (next_marker_nonempty (proj1 (end_pattern_words v) Hv)) as Hne.
    apply (@search_from_leftmost end_pattern rest rest 0 em Ee
             (length (l ++ b)) (length (l ++ b) + length v)); [lia | ].
    apply ReFacts.lang_matches; [lia | | ].
    + rewrite Hrest at 1. rewrite !length_app. lia.
    + rewrite Hrest at 1. now rewrite slice_of_app.
  - (* no match in the rest: the cut is the whole rest *)
    assert (Hall : slice md_text start_index (length md_text) = rest).
    { unfold slice, rest. apply firstn_all2. rewrite length_skipn. lia. }
    rewrite Hall in Hcut.
    assert (Hs : Re.search end_pattern rest <> None).
    { apply (@ReFacts.search_lang end_pattern _ end_pattern_anchor_free).
      exists (l ++ b), v, (a ++ r). split; [ | assumption].
      rewrite Hcut. now rewrite <- !app_assoc. }
    unfold Re.search in Hs. congruence.
Qed.

Lemma space_lowers_to_no_letter (c : ascii) :
  isspace c = true -> alnum (lower_char c) = false.
Proof.
  destruct c as [[] [] [] [] [] [] [] []]; vm_compute; intros H;
    solve [reflexivity | discriminate H].
Qed.

Lemma symbol_lowers_to_no_letter (c : ascii) :
  negb (alnum c) = true -> alnum (lower_char c) = false.
Proof.
  destruct c as [[] [] [] [] [] [] [] []]; vm_compute; intros H;
    solve [reflexivity | discriminate H].
Qed.

Lemma letter_is_no_space (c : ascii) :
  alnum (lower_char c) = true -> isspace c = false.
Proof.
  destruct c as [[] [] [] [] [] [] [] []]; vm_compute; intros H;
    solve [reflexivity | discriminate H].
Qed.

Lemma attachment_letters :
  L "attachment" = ["a"; "t"; "t"; "a"; "c"; "h"; "m"; "e"; "n"; "t"]%char.
Proof. reflexivity. Qed.

(** The characters of a string that lowers to [word] are not [ch], when
    [word] holds no [ch]. *)
Lemma lowered_misses (ch : ascii) (x word : str) :
  map lower_char x = word -> ~ In ch word ->
  Forall (fun c => lower_char c <> ch) x.
Proof.
  intros <- Hno. apply Forall_forall. intros c Hc E.
  apply Hno. rewrite <- E. now apply in_map.
Qed.

Lemma class_misses_a (p : ascii -> bool) (x : str) :
  (forall c, p c = true -> alnum (lower_char c) = false) ->
  all_chars p x -> Forall (fun c => lower_char c <> "a"%char) x.
Proof.
  intros Hp H. unfold all_chars in H. rewrite Forall_forall in *.
  intros c Hc E. apply H, Hp in Hc. rewrite E in Hc. discriminate Hc.
Qed.

(** White space, then a character that is no white space: the two ways
    to read a text so agree on the character. *)
Lemma spaces_then_char (w1 w2 : str) (x y : ascii) (X Y : str) :
  all_chars isspace w1 -> all_chars isspace w2 ->
  isspace x = false -> isspace y = false ->
  w1 ++ x :: X = w2 ++ y :: Y -> x = y.
Proof.
  unfold all_chars. revert w2.
  induction w1 as [ | c w1 IH]; intros w2 H1 H2 Hx Hy E.
  - destruct w2 as [ | c2 w2]; simpl in E.
    + congruence.
    + inversion E; subst. inversion H2; subst. congruence.
  - destruct w2 as [ | c2 w2]; simpl in E.
    + inversion E; subst. inversion H1; subst. congruence.
    + inversion E; subst. inversion H1; inversion H2; subst.
      now apply (IH w2).
Qed.

(** The shape of a loose marker: ten letters that lower to [attachment],
    then characters none of which lowers to [a], the first of them that is
    no white space being [1]. *)
Lemma marker_shape (w : str) :
  loose_marker w ->
  exists a w1 tail,
    w = a ++ w1 ++ "1"%char :: tail
    /\ lower a = L "attachment"
    /\ all_chars isspace w1
    /\ Forall (fun c => lower_char c <> "a"%char) (w1 ++ "1"%char :: tail).
Proof.
  intros (a & w1 & w2 & sv & w3 & d & -> & Ha & Hw1 & Hw2 & Hsv & Hw3 & Hd).
  exists a, w1, (w2 ++ sv ++ w3 ++ d). repeat split; try assumption.
  apply Forall_app. split.
  { apply (class_misses_a space_lowers_to_no_letter Hw1). }
  constructor; [vm_compute; discriminate | ].
  apply Forall_app. split.
  { apply (class_misses_a symbol_lowers_to_no_letter Hw2). }
  apply Forall_app. split.
  { apply (@lowered_misses "a"%char sv (L "service") Hsv).
    vm_compute. intuition discriminate. }
  apply Forall_app. split.
  { apply (class_misses_a space_lowers_to_no_letter Hw3). }
  apply (@lowered_misses "a"%char d (L "description") Hd).
  vm_compute. intuition discriminate.
Qed.

(** A loose marker starts and ends with a letter. *)
Lemma marker_ends (w : str) :
  loose_marker w -> w <> [] /\ head_ok w /\ head_ok (rev w).
Proof.
  intros (a & w1 & w2 & sv & w3 & d & -> & Ha & _ & _ & _ & _ & Hd).
  unfold lower in Ha, Hd.
  destruct a as [ | c0 a]; [discriminate Ha | ].
  split; [discriminate | ]. split.
  - simpl. apply letter_is_no_space.
    rewrite attachment_letters in Ha. simpl in Ha.
    injection Ha as H0 _. now rewrite H0.
  - rewrite !rev_app_distr.
    assert (Hrd : exists cn r, rev d = cn :: r /\ lower_char cn = "n"%char).
    { apply (f_equal (@rev ascii)) in Hd. rewrite <- map_rev in Hd.
      destruct (rev d) as [ | cn r]; [discriminate Hd | ].
      exists cn, r. split; [reflexivity | ].
      change (rev (L "description"))
        with ("n"%char :: rev (L "descriptio")) in Hd.
      simpl in Hd. now injection Hd as H0 _. }
    destruct Hrd as (cn & r & -> & Hn). simpl.
    apply letter_is_no_space. now rewrite Hn.
Qed.

(** In a text that starts with a loose marker, no word of the end
    pattern starts inside the marker. *)
Lemma marker_precedes_next (w rest : str) (p q : nat) :
  loose_marker w -> Re.matches (w ++ rest) end_pattern p q -> length w <= p.
Proof.
  intros Hw Hm.
  destruct (le_lt_dec (length w) p) as [Hle | Hlt]; [assumption | exfalso].
  pose proof (@ReFacts.matches_bounds _ _ _ _ Hm) as [Hpq Hq].
  assert (Hp : p <= length (w ++ rest)) by (rewrite length_app; lia).
  specialize (Hq Hp).
  apply ReFacts.matches_lang in Hm;
    [ | exact end_pattern_anchor_free | exact Hp].
  apply end_pattern_words in Hm. destruct Hm as (a' & ws' & Hv & Ha' & Hws').
  pose proof (@text_cut (w ++ rest) p q Hpq) as Hcut.
  rewrite Hv in Hcut.
  assert (Hpre : length (firstn p (w ++ rest)) = p)
    by (rewrite length_firstn; lia).
  set (pre := firstn p (w ++ rest)) in *.
  set (post := skipn q (w ++ rest)) in *.
  destruct (marker_shape Hw) as (a & w1 & tail & -> & Ha & Hw1 & Htail).
  unfold lower in Ha, Ha'.
  assert (Hla : length a = 10)
    by (apply (f_equal (@length ascii)) in Ha; now rewrite length_map in Ha).
  assert (Hla' : length a' = 10)
    by (apply (f_equal (@length ascii)) in Ha'; now rewrite length_map in Ha').
  (* the lowered text, read in both ways *)
  set (s := (a ++ w1 ++ "1"%char :: tail) ++ rest) in *.
  assert (HL : map lower_char s
               = L "attachment"
                 ++ map lower_char (w1 ++ "1"%char :: tail)
                 ++ map lower_char rest).
  { unfold s. rewrite <- app_assoc, map_app, Ha. f_equal. apply map_app. }
  assert (HR : map lower_char s
               = map lower_char pre ++ L "attachment"
                 ++ map lower_char (ws' ++ L "2" ++ post)).
  { rewrite Hcut. rewrite <- !app_assoc, map_app. f_equal.
    now rewrite map_app, Ha'. }
  assert (Hnth : forall k, k < 10 ->
            nth_error (map lower_char s) (p + k)
            = nth_error (L "attachment") k).
  { intros k Hk. rewrite HR.
    rewrite nth_error_app2 by (rewrite length_map; lia).
    rewrite length_map, Hpre.
    replace (p + k - p) with k by lia.
    apply nth_error_app1. rewrite attachment_letters. simpl. lia. }
  assert (H0 : nth_error (map lower_char s) p = Some "a"%char).
  { rewrite <- (Nat.add_0_r p) at 1. rewrite Hnth by lia. reflexivity. }
  rewrite HL in H0.
  assert (Hp03 : p = 0 \/ p = 3).
  { destruct (le_lt_dec 10 p) as [H10 | H10].
    - exfalso.
      rewrite nth_error_app2 in H0 by (rewrite attachment_letters; simpl; lia).
      rewrite nth_error_app1 in H0.
      + apply nth_error_In in H0. apply in_map_iff in H0.
        destruct H0 as (c & Hc & Hin).
        rewrite Forall_forall in Htail. now apply (Htail c Hin).
      + rewrite length_map. rewrite attachment_letters. simpl.
        rewrite !length_app in Hlt. rewrite length_app. lia.
    - rewrite nth_error_app1 in H0 by (rewrite attachment_letters; simpl; lia).
      rewrite attachment_letters in H0.
      do 10 (destruct p as [ | p];
             [simpl in H0; first [now left | now right | discriminate H0] | ]).
      lia. }
  destruct Hp03 as [-> | ->].
  - (* at the start: the digit after the white space is 1, not 2 *)
    destruct pre as [ | c pre]; [ | discriminate Hpre].
    unfold s in Hcut. simpl in Hcut. rewrite <- !app_assoc in Hcut.
    apply app_inv_length in Hcut; [ | lia].
    destruct Hcut as [_ Hcut].
    apply spaces_then_char in Hcut; try assumption; try reflexivity.
    discriminate Hcut.
  - (* at the fourth letter: [c] follows, not [t] *)
    pose proof (Hnth 1 ltac:(lia)) as H1. rewrite HL in H1.
    rewrite attachment_letters in H1. simpl in H1. discriminate H1.
Qed.

(** [strip] keeps a word at the start of its argument that starts and
    ends with a character that is no white space, and removes white space
    from the end only. *)
Lemma strip_keeps_prefix (w X : str) :
  w <> [] -> head_ok w -> head_ok (rev w) ->
  exists after sp,
    strip (w ++ X) = w ++ after /\ X = after ++ sp /\ all_chars isspace sp.
Proof.
  intros Hne Hh Hl. unfold strip, rstrip.
  rewrite (@lstrip_fixed (w ++ X)) by now apply head_ok_app_l.
  rewrite rev_app_distr.
  destruct (lstrip_split (rev X ++ rev w)) as (sp & Hs & Hsp).
  destruct (@lstrip_app_keep (rev X) (rev w)) as (a' & Ha').
  - intros H. apply (f_equal (@rev ascii)) in H.
    rewrite rev_involutive in H. now apply Hne.
  - exact Hl.
  - rewrite Ha' in *. rewrite app_assoc in Hs. apply app_inv_tail in Hs.
    exists (rev a'), (rev sp). split; [ | split].
    + now rewrite rev_app_distr, rev_involutive.
    + apply (f_equal (@rev ascii)) in Hs.
      now rewrite rev_involutive, rev_app_distr in Hs.
    + unfold all_chars. apply Forall_forall. intros c Hc.
      apply in_rev in Hc. rewrite forallb_forall in Hsp. now apply Hsp.
Qed.

(** What the extractor returns when the start pattern is found: the text
    from the start of the match, which is a loose marker, up to the first
    word of the end pattern that follows, or to the end of the text,
    without the white space at the end. *)
Lemma extractor_cut (md_text : str) (start_match : rmatch) :
  Re.search start_pattern md_text = Some start_match ->
  exists w after sp rest,
    md_text = firstn (m_start start_match) md_text
              ++ (w ++ after) ++ sp ++ rest
    /\ extract_service_description md_text = w ++ after
    /\ loose_marker w
    /\ all_chars isspace sp
    /\ (rest = [] \/ exists v r, rest = v ++ r /\ next_marker v)
    /\ trimmed (w ++ after).
Proof.
  intros Hs. unfold extract_service_description. rewrite Hs. cbv zeta.
  unfold Re.search in Hs.
  apply ReFacts.search_from_sound in Hs. destruct Hs as (Hb & Hm & _).
  simpl in Hb.
  set (start := m_start start_match) in *.
  set (e := m_end start_match) in *.
  pose proof (@ReFacts.matches_bounds _ _ _ _ Hm) as [Hse He].
  assert (Hstart : start <= length md_text) by lia.
  specialize (He Hstart).
  assert (Hw : loose_marker (slice md_text start e)).
  { apply gate_re_words.
    now apply (@ReFacts.matches_lang md_text gate_re start e
                 gate_re_anchor_free Hstart). }
  assert (Hlw : length (slice md_text start e) = e - start)
    by now apply length_slice.
  assert (Hrest : skipn start md_text
                  = slice md_text start e ++ skipn e md_text)
    by (symmetry; now apply slice_skipn).
  set (w := slice md_text start e) in *.
  set (end_index :=
         match Re.search end_pattern (skipn start md_text) with
         | Some end_match => start + m_start end_match
         | None => length md_text
         end).
  assert (Hend : e <= end_index <= length md_text
                 /\ (skipn end_index md_text = []
                     \/ exists v r, skipn end_index md_text = v ++ r
                                    /\ next_marker v)).
  { unfold end_index, Re.search.
    destruct (Re.search_from end_pattern (skipn start md_text)
                (skipn start md_text) 0 false) as [em | ] eqn:Ee.
    - apply ReFacts.search_from_sound in Ee. destruct Ee as (Hb2 & Hm2 & _).
      simpl in Hb2. rewrite length_skipn in Hb2.
      pose proof (@ReFacts.matches_bounds _ _ _ _ Hm2) as [Hpq _].
      assert (Hv : Re.lang end_pattern
                     (slice (skipn start md_text) (m_start em) (m_end em))).
      { apply ReFacts.matches_lang;
          [exact end_pattern_anchor_free | rewrite length_skipn; lia
          | exact Hm2]. }
      pose proof Hm2 as Hm3. rewrite Hrest in Hm3.
      pose proof (@marker_precedes_next w (skipn e md_text) (m_start em)
                    (m_end em) Hw Hm3) as Hle.
      split; [lia | ]. right.
      exists (slice (skipn start md_text) (m_start em) (m_end em)),
             (skipn (m_end em) (skipn start md_text)).
      split; [ | now apply end_pattern_words].
      rewrite slice_skipn by assumption.
      rewrite skipn_skipn. f_equal. lia.
    - split; [lia | ]. left. apply skipn_all. }
  destruct Hend as (Hei & Hafter).
  assert (Hcut : slice md_text start end_index
                 = w ++ slice md_text e end_index).
  { unfold w. symmetry. apply slice_app. lia. }
  rewrite Hcut.
  destruct (marker_ends Hw) as (Hne & Hh & Hl).
  destruct (@strip_keeps_prefix w (slice md_text e end_index) Hne Hh Hl)
    as (after & sp & Hst & HX & Hsp).
  assert (Htr : trimmed (w ++ after)) by (rewrite <- Hst; apply strip_trimmed).
  rewrite Hst.
  exists w, after, sp, (skipn end_index md_text).
  split; [ | split; [ | split; [ | split; [ | split]]]]; try assumption.
  - rewrite (@text_cut md_text start end_index) at 1 by lia.
    rewrite Hcut, HX. now rewrite <- !app_assoc.
  - destruct w; [congruence | reflexivity].
Qed.

(** The start pattern's match is the leftmost loose marker. *)
Lemma start_match_leftmost (md_text : str) (start_match : rmatch) :
  Re.search start_pattern md_text = Some start_match ->
  forall b' w' a',
    md_text = b' ++ w' ++ a' -> loose_marker w' ->
    m_start start_match <= length b'.
Proof.
  intros Hs b' w' a' Hmd Hw'.
  destruct (le_lt_dec (m_start start_match) (length b')) as [H | H];
    [assumption | exfalso].
  unfold Re.search in Hs.
  apply (@search_from_leftmost start_pattern md_text md_text 0 start_match Hs
           (length b') (length b' + length w')); [lia | ].
  apply ReFacts.lang_matches; [lia | | ].
  - rewrite Hmd, !length_app. lia.
  - rewrite Hmd, slice_of_app. now apply gate_re_words.
Qed.

Lemma marker_first (w : str) :
  loose_marker w -> exists c0 w', w = c0 :: w' /\ lower_char c0 = "a"%char.
Proof.
  intros Hw. destruct (marker_shape Hw) as (a & w1 & tail & -> & Ha & _).
  unfold lower in Ha. rewrite attachment_letters in Ha.
  destruct a as [ | c0 a]; [discriminate Ha | ].
  simpl in Ha. injection Ha as H0 _.
  exists c0, (a ++ w1 ++ "1"%char :: tail). now split.
Qed.

(** The end pattern finds nothing in what the extractor returns. *)
Lemma extractor_no_next (md_text : str) :
  Re.search end_pattern (extract_service_description md_text) = None.
Proof.
  unfold extract_service_description.
  destruct (Re.search start_pattern md_text) as [sm | ] eqn:Hs;
    [ | reflexivity].
  cbv zeta.
  unfold Re.search in Hs. apply ReFacts.search_from_sound in Hs.
  destruct Hs as (Hb & _ & _). simpl in Hb.
  pose proof (@end_pattern_not_in_cut md_text (m_start sm) (proj2 Hb)) as H.
  destruct (is_empty _); [reflexivity | exact H].
Qed.

Lemma search_none_no_word (r : re) (s : str) :
  Re.anchor_free r -> Re.search r s = None ->
  forall b v a, s = b ++ v ++ a -> ~ Re.lang r v.
Proof.
  intros Haf Hs b v a Hcut Hv.
  assert (H : Re.search r s <> None).
  { apply (@ReFacts.search_lang r s Haf). now exists b, v, a. }
  congruence.
Qed.

Lemma search_start_some (md_text : str) :
  contains_marker md_text ->
  exists sm, Re.search start_pattern md_text = Some sm.
Proof.
  intros H. apply gate_search_spec in H.
  change gate_re with start_pattern in H.
  destruct (Re.search start_pattern md_text) as [sm | ]; [eauto | congruence].
Qed.

(** X13: on a text with a loose marker, the extractor returns a slice of
    the text that starts with the leftmost loose marker: nothing before
    the marker is kept, and the marker itself is. *)
Theorem extractor_starts_at_first_marker (md_text : str) :
  contains_marker md_text ->
  exists before w after rest,
    md_text = before ++ (w ++ after) ++ rest
    /\ extract_service_description md_text = w ++ after
    /\ loose_marker w
    /\ (forall b' w' a',
           md_text = b' ++ w' ++ a' -> loose_marker w' ->
           length before <= length b').
Proof.
  intros Hc. destruct (@search_start_some _ Hc) as (sm & Hs).
  destruct (@extractor_cut md_text sm Hs)
    as (w & after & sp & rest & Hmd & Hres & Hw & _ & _ & _).
  pose proof Hs as Hb. unfold Re.search in Hb.
  apply ReFacts.search_from_sound in Hb. destruct Hb as (Hb & _ & _).
  simpl in Hb.
  exists (firstn (m_start sm) md_text), w, after, (sp ++ rest).
  repeat split; try assumption.
  intros b' w' a' Hcut Hw'. rewrite length_firstn.
  pose proof (@start_match_leftmost md_text sm Hs _ _ _ Hcut Hw'). lia.
Qed.

(** An instance: a cover page before the marker is dropped. *)
Lemma extractor_starts_at_first_marker_witness :
  contains_marker sample_full_text
  /\ exists before w after rest,
      sample_full_text = before ++ (w ++ after) ++ rest
      /\ extract_service_description sample_full_text = w ++ after
      /\ loose_marker w
      /\ (forall b' w' a',
             sample_full_text = b' ++ w' ++ a' -> loose_marker w' ->
             length before <= length b').
Proof.
  assert (Hc : contains_marker sample_full_text)
    by (apply gate_search_spec; vm_compute; discriminate).
  split; [exact Hc | ].
  exact (@extractor_starts_at_first_marker sample_full_text Hc).
Defined.

(** X14: on a text with a loose marker, what the extractor returns is
    followed in the text by white space only and then by the end of the
    text or by a word [attachment 2]; and it holds no such word itself. *)
Theorem extractor_stops_at_next_marker (md_text : str) :
  contains_marker md_text ->
  exists before sp rest,
    md_text = before ++ extract_service_description md_text ++ sp ++ rest
    /\ all_chars isspace sp
    /\ (rest = [] \/ exists v r, rest = v ++ r /\ next_marker v)
    /\ (forall b v a,
           extract_service_description md_text = b ++ v ++ a ->
           ~ next_marker v).
Proof.
  intros Hc. destruct (@search_start_some _ Hc) as (sm & Hs).
  destruct (@extractor_cut md_text sm Hs)
    as (w & after & sp & rest & Hmd & Hres & _ & Hsp & Hrest & _).
  exists (firstn (m_start sm) md_text), sp, rest.
  rewrite Hres. repeat split; try assumption.
  intros b v a Hcut Hv. rewrite <- Hres in Hcut.
  apply (@search_none_no_word end_pattern _ end_pattern_anchor_free
           (extractor_no_next md_text) b v a Hcut).
  now apply end_pattern_words.
Qed.

(** An instance: the second attachment of the sample text is cut off. *)
Lemma extractor_stops_at_next_marker_witness :
  contains_marker sample_full_text
  /\ extract_service_description sample_full_text = sample_contract
  /\ exists before sp rest,
      sample_full_text
      = before ++ extract_service_description sample_full_text ++ sp ++ rest
      /\ all_chars isspace sp
      /\ (rest = [] \/ exists v r, rest = v ++ r /\ next_marker v)
      /\ (forall b v a,
             extract_service_description sample_full_text = b ++ v ++ a ->
             ~ next_marker v).
Proof.
  assert (Hc : contains_marker sample_full_text)
    by (apply gate_search_spec; vm_compute; discriminate).
  split; [exact Hc | ]. split; [vm_compute; reflexivity | ].
  exact (@extractor_stops_at_next_marker sample_full_text Hc).
Defined.

(** X15: the extractor returns the text [*Service Description not found*]
    exactly on the texts without a loose marker, and it never returns
    the text [*Service Description is empty*]. *)
Theorem extractor_sentinels (md_text : str) :
  (extract_service_description md_text = L "*Service Description not found*"
   <-> ~ contains_marker md_text)
  /\ str_eqb (extract_service_description md_text)
             (L "*Service Description is empty*") = false.
Proof.
  destruct (Re.search start_pattern md_text) as [sm | ] eqn:Hs.
  - destruct (@extractor_cut md_text sm Hs)
      as (w & after & sp & rest & Hmd & Hres & Hw & _ & _ & _).
    destruct (@marker_first _ Hw) as (c0 & w' & -> & H0).
    assert (Hc : contains_marker md_text).
    { apply gate_search_spec. change gate_re with start_pattern.
      rewrite Hs. discriminate. }
    rewrite Hres. split; [split | ].
    + intros E. exfalso. change (L "*Service Description not found*")
        with ("*"%char :: L "Service Description not found*") in E.
      simpl in E. injection E as E _. subst c0. discriminate H0.
    + intros Hn. now exfalso.
    + apply str_eqb_neq. intros E.
      change (L "*Service Description is empty*")
        with ("*"%char :: L "Service Description is empty*") in E.
      simpl in E. injection E as E _. subst c0. discriminate H0.
  - assert (Hn : ~ contains_marker md_text).
    { intros Hc. apply gate_search_spec in Hc.
      change gate_re with start_pattern in Hc. congruence. }
    unfold extract_service_description. rewrite Hs.
    split; [now split | reflexivity].
Qed.

(** X16: extracting twice changes nothing: the extractor returns its own
    results as they are. *)
Theorem extractor_idempotent (md_text : str) :
  extract_service_description (extract_service_description md_text)
  = extract_service_description md_text.
Proof.
  destruct (Re.search start_pattern md_text) as [sm | ] eqn:Hs.
  - pose proof (extractor_no_next md_text) as Hnext.
    destruct (@extractor_cut md_text sm Hs)
      as (w & after & sp & rest & Hmd & Hres & Hw & _ & _ & Htr).
    rewrite Hres in *.
    assert (Hc : contains_marker (w ++ after)).
    { exists [], w, after. now split. }
    destruct (@search_start_some _ Hc) as (sm' & Hs').
    pose proof (@start_match_leftmost (w ++ after) sm' Hs' [] w after
                  eq_refl Hw) as H0.
    simpl in H0.
    unfold extract_service_description at 1. rewrite Hs'. cbv zeta.
    replace (m_start sm') with 0 by lia.
    change (skipn 0 (w ++ after)) with (w ++ after). rewrite Hnext.
    unfold slice. rewrite Nat.sub_0_r, firstn_all.
    change (skipn 0 (w ++ after)) with (w ++ after).
    rewrite Htr.
    destruct (@marker_first _ Hw) as (c0 & w' & -> & _). reflexivity.
  - unfold extract_service_description at 2 3. rewrite Hs. reflexivity.
Qed.

(* ================================================================= *)
(** * The extractor composed with the validator *)

Section Pipeline.
Variable FIELDGLASS_REF_MD : str.
Variable json_loads : str -> result json.
Variable client : trace -> request -> reply.

(** X17: when the pipeline's validation returns, its status is [Missing]
    exactly when the full text holds no loose marker; then there is no
    verdict and nothing was called.  Otherwise the aligner was called
    with the extractor's cut, not with the full text, and the rest of the
    trace are requests to the oracle. *)
Theorem pipeline_missing_iff_no_marker
        (full_text : str) (tr : trace) (rep : report) (tr' : trace) :
  service_description_validation FIELDGLASS_REF_MD json_loads client
                                 full_text tr = Ok (rep, tr') ->
  (validation_status rep = L "Missing" <-> ~ contains_marker full_text)
  /\ (~ contains_marker full_text ->
      rep = MkReport (L "Missing") [] /\ tr' = tr)
  /\ (contains_marker full_text ->
      exists headings calls,
        tr' = tr ++ AlignerCall (extract_service_description full_text)
                                headings
                 :: map OracleCall calls).
Proof.
  unfold service_description_validation. intros H.
  destruct (Re.search start_pattern full_text) as [sm | ] eqn:Hs.
  - assert (Hc : contains_marker full_text).
    { apply gate_search_spec. change gate_re with start_pattern.
      rewrite Hs. discriminate. }
    destruct (@extractor_cut full_text sm Hs)
      as (w & after & sp & rest & _ & Hres & Hw & _).
    assert (Hgate : Re.search gate_re (extract_service_description full_text)
                    <> None).
    { apply gate_search_spec. rewrite Hres. exists [], w, after. now split. }
    destruct (validate_open_gate _ _ _ _ _ Hgate H)
      as (ref_sections & aligned & _ & _ & Hl & Hst).
    apply loop_trace_exact in Hl.
    split; [split | split].
    + intros E. rewrite E in Hst.
      destruct (is_nil (modified_sections rep)); discriminate Hst.
    + intros Hn. now exfalso.
    + intros Hn. now exfalso.
    + intros _. exists (map fst ref_sections), (requests_for aligned ref_sections).
      rewrite Hl. now rewrite <- app_assoc.
  - assert (Hn : ~ contains_marker full_text).
    { intros Hc. apply gate_search_spec in Hc.
      change gate_re with start_pattern in Hc. congruence. }
    unfold extract_service_description in H. rewrite Hs in H.
    rewrite gate_closed_short_circuits in H by reflexivity.
    inversion H; subst. split; [split | split].
    + intros _. exact Hn.
    + reflexivity.
    + intros _. now split.
    + intros Hc. now exfalso.
Qed.

End Pipeline.

(** An instance: the sample contract inside a longer text. *)
Lemma pipeline_missing_iff_no_marker_witness :
  service_description_validation sample_reference never_parses
    (always_answers sample_answer) sample_full_text []
  = Ok (sample_report, sample_trace)
  /\ (validation_status sample_report = L "Missing"
      <-> ~ contains_marker sample_full_text)
  /\ (~ contains_marker sample_full_text ->
      sample_report = MkReport (L "Missing") [] /\ sample_trace = [])
  /\ (contains_marker sample_full_text ->
      exists headings calls,
        sample_trace
        = [] ++ AlignerCall (extract_service_description sample_full_text)
                            headings
             :: map OracleCall calls).
Proof.
  assert (H : service_description_validation sample_reference never_parses
                (always_answers sample_answer) sample_full_text []
              = Ok (sample_report, sample_trace))
    by (vm_compute; reflexivity).
  split; [exact H | ].
  exact (@pipeline_missing_iff_no_marker sample_reference never_parses
           (always_answers sample_answer) sample_full_text []
           sample_report sample_trace H).
Defined.

(* ================================================================= *)
(** * Headings and the final markdown of the extractor *)

Lemma remove_dots_fixed (s : str) :
  ~ In "."%char s -> remove_dots s = s.
Proof.
  unfold remove_dots. induction s as [ | c s IH]; intros H; simpl.
  - reflexivity.
  - destruct (Ascii.eqb c "."%char) eqn:E.
    + apply Ascii.eqb_eq in E. subst c. exfalso. apply H. now left.
    + simpl. f_equal. apply IH. intros Hin. apply H. now right.
Qed.

Lemma remove_dots_no_dot (s : str) : ~ In "."%char (remove_dots s).
Proof.
  unfold remove_dots. intros H. apply filter_In in H.
  destruct H as [_ H]. discriminate H.
Qed.

(** X18: a cleaned heading holds no period and no white space at either
    end, every character of it comes from the heading, and cleaning it
    again changes nothing. *)
Theorem clean_heading_normal_form (heading : str) :
  ~ In "."%char (_clean_heading heading)
  /\ trimmed (_clean_heading heading)
  /\ (forall c, In c (_clean_heading heading) -> In c heading)
  /\ _clean_heading (_clean_heading heading) = _clean_heading heading.
Proof.
  assert (Hno : ~ In "."%char (_clean_heading heading)).
  { unfold _clean_heading. intros H. apply in_strip in H.
    now apply remove_dots_no_dot in H. }
  split; [exact Hno | ]. split; [apply strip_trimmed | ]. split.
  - unfold _clean_heading. intros c H. apply in_strip in H.
    unfold remove_dots in H. apply filter_In in H. tauto.
  - unfold _clean_heading at 1.
    rewrite (@remove_dots_fixed (_clean_heading heading) Hno).
    exact (strip_trimmed (remove_dots heading)).
Qed.

Lemma fold_left_app_blocks (render : str * str -> str)
      (sections : dict str) (md : str) :
  fold_left (fun md sec => md ++ render sec) sections md
  = md ++ concat (map render sections).
Proof.
  revert md. induction sections as [ | sec sections IH]; intros md; simpl.
  - now rewrite app_nil_r.
  - rewrite IH. now rewrite <- app_assoc.
Qed.

(** X19: the final markdown starts with the title line, and every section
    of the dictionary stands in it under its own [##] heading, followed
    by its content and an empty line. *)
Theorem final_markdown_holds_every_section
        (sections : dict str) (title content : str) :
  In (title, content) sections ->
  exists pre post,
    _build_final_markdown sections
    = L "# Extracted Sections" ++ [NL; NL] ++ pre
      ++ (L "## " ++ title ++ [NL; NL] ++ content ++ [NL; NL]) ++ post.
Proof.
  intros Hin. unfold _build_final_markdown.
  destruct sections as [ | sec0 sections0] eqn:E; [destruct Hin | ].
  cbn [is_nil]. rewrite <- E in *. clear E sec0 sections0.
  rewrite (fold_left_app_blocks
             (fun sec => L "## " ++ fst sec ++ [NL; NL] ++ snd sec ++ [NL; NL])).
  apply in_split in Hin. destruct Hin as (l1 & l2 & ->).
  rewrite map_app, concat_app. cbn [map concat fst snd].
  exists (concat (map (fun sec => L "## " ++ fst sec ++ [NL; NL]
                                      ++ snd sec ++ [NL; NL]) l1)),
         (concat (map (fun sec => L "## " ++ fst sec ++ [NL; NL]
                                      ++ snd sec ++ [NL; NL]) l2)).
  now rewrite <- app_assoc.
Qed.

(** An instance: two sections. *)
Lemma final_markdown_holds_every_section_witness :
  let sections := [(L "Term", L "12 months"); (L "Fees", L "none")] in
  In (L "Fees", L "none") sections
  /\ exists pre post,
      _build_final_markdown sections
      = L "# Extracted Sections" ++ [NL; NL] ++ pre
        ++ (L "## " ++ L "Fees" ++ [NL; NL] ++ L "none" ++ [NL; NL]) ++ post.
Proof.
  intros sections.
  assert (Hin : In (L "Fees", L "none") sections) by (right; now left).
  split; [exact Hin | ].
  exact (@final_markdown_holds_every_section sections (L "Fees") (L "none")
           Hin).
Defined.
